(** * The fastText-style training engine of [src/model.cc]

    A shallow embedding of [Model] (Huffman tree, negative table, forward
    pass, loss kernels, update drivers) and the properties of its
    specification.  Part I holds the embedding, function by function;
    Part II the invariants of its loops, the properties C1 to C10 of the
    specification and further properties of the code (X1 and
    following).

    Conventions of the embedding.
    - [int32_t], [int64_t] and [size_t] values are [Z] (or [nat] for
      container positions).  Signed overflow is undefined behaviour in C++;
      the model covers the executions without overflow.
    - A read or write of a [std::vector] or raw array outside its bounds, a
      failed [assert] and a loop that never exits have no result: the
      functions that can meet them return [option], with [None] for "no
      result".
    - [real] (declared in [real.h], which is not part of the sources) is
      modelled by the mathematical reals [R]: rounding, infinities and NaN
      are outside the model.  Where the source can divide 0 by 0 (the
      attention weights, when every logit is below -50), or where a
      rounding can decide a count or a sign (the bound of the push loop of
      [initTableNegatives], the last entry of the log table, an
      exponential that underflows), the further properties are stated so
      that they do not depend on it: under a hypothesis that excludes the
      case, or with a bound that is not strict.
    - The [Vector] and [Matrix] operations leave an index outside the
      stored range to their caller; the model reads 0 there and writes
      nothing.  The properties of the update drivers that state that a
      call returns take the indices in range as hypotheses. *)

From Stdlib Require Import ZArith List Lia Reals Lra Permutation.
From stdpp Require Import base option list list_numbers.

Local Open Scope Z_scope.

(** * Part I: the embedding *)

(** ** Arrays indexed by machine integers *)

Section ZArray.
Context {A : Type}.

(** [v[i]] for a signed index. *)
Definition getZ (v : list A) (i : Z) : option A :=
  if i <? 0 then None else v !! Z.to_nat i.

(** [v[i] = f (v[i])]. *)
Definition updZ (v : list A) (i : Z) (f : A -> A) : option (list A) :=
  match getZ v i with
  | Some x => Some (<[Z.to_nat i := f x]> v)
  | None => None
  end.
End ZArray.

(** A counted [for] loop whose body may have no result. *)
Fixpoint forM {St : Type} (body : Z -> St -> option St) (idx : list Z) (s : St)
  : option St :=
  match idx with
  | [] => Some s
  | i :: idx' =>
      match body i s with
      | Some s' => forM body idx' s'
      | None => None
      end
  end.

(** ** Huffman tree ([Model::buildTree]) *)

Module Huffman.

(** [struct Node] of [model.h]. *)
Record Node := mkNode {
  parent : Z;
  left : Z;
  right : Z;
  count : Z;
  binary : bool
}.

Definition set_parent (p : Z) (n : Node) : Node :=
  mkNode p (left n) (right n) (count n) (binary n).
Definition set_left (l : Z) (n : Node) : Node :=
  mkNode (parent n) l (right n) (count n) (binary n).
Definition set_right (r : Z) (n : Node) : Node :=
  mkNode (parent n) (left n) r (count n) (binary n).
Definition set_count (c : Z) (n : Node) : Node :=
  mkNode (parent n) (left n) (right n) c (binary n).
Definition set_binary (b : bool) (n : Node) : Node :=
  mkNode (parent n) (left n) (right n) (count n) b.

(** The count [1e15] given to every node before it is built. *)
Definition UNBUILT : Z := 10 ^ 15.

(** Lines 471-477: the value every node is reset to. *)
Definition blank : Node := mkNode (-1) (-1) (-1) UNBUILT false.

(** Lines 478-480: [tree[i].count = counts[i]] for [i < osz_]. *)
Definition setCounts (osz : Z) (counts : list Z) (tree : list Node)
  : option (list Node) :=
  forM (fun i t =>
          match getZ counts i with
          | Some c => updZ t i (set_count c)
          | None => None
          end) (seqZ 0 osz) tree.

(** Lines 486-490: one choice of [mini[j]]; returns [mini[j]] and the new
    cursors.  [&&] does not read [tree[node]] when [leaf < 0]. *)
Definition pick (tree : list Node) (leaf node : Z) : option (Z * Z * Z) :=
  if 0 <=? leaf then
    match getZ tree leaf, getZ tree node with
    | Some l, Some n =>
        if count l <? count n then Some (leaf, leaf - 1, node)
        else Some (node, leaf, node + 1)
    | _, _ => None
    end
  else Some (node, leaf, node + 1).

(** Lines 492-497: parent [i] adopts [mini[0] = m0] and [mini[1] = m1]. *)
Definition link (i m0 m1 : Z) (tree : list Node) : option (list Node) :=
  tree ← updZ tree i (set_left m0);
  tree ← updZ tree i (set_right m1);
  n0 ← getZ tree m0;
  n1 ← getZ tree m1;
  tree ← updZ tree i (set_count (count n0 + count n1));
  tree ← updZ tree m0 (set_parent i);
  tree ← updZ tree m1 (set_parent i);
  updZ tree m1 (set_binary true).

(** Lines 484-497: the body of the merge loop for parent [i]. *)
Definition merge (i : Z) (st : list Node * Z * Z) : option (list Node * Z * Z) :=
  let '(tree, leaf, node) := st in
  '(m0, leaf, node) ← pick tree leaf node;
  '(m1, leaf, node) ← pick tree leaf node;
  tree ← link i m0 m1 tree;
  Some (tree, leaf, node).

(** Lines 502-507: the walk from [j] to the root.  The [while] loop is
    unbounded in the source; [fuel] bounds the number of its iterations. *)
Fixpoint pathToRoot (fuel : nat) (tree : list Node) (osz j : Z)
  : option (list Z * list bool) :=
  match getZ tree j with
  | None => None
  | Some nd =>
      if parent nd =? -1 then Some ([], [])
      else
        match fuel with
        | O => None
        | S fuel' =>
            match pathToRoot fuel' tree osz (parent nd) with
            | Some (path, code) =>
                Some ((parent nd - osz) :: path, binary nd :: code)
            | None => None
            end
        end
  end.

(** Lines 499-510: [paths] and [codes] of the classes in [cs]. *)
Fixpoint allPaths (fuel : nat) (tree : list Node) (osz : Z) (cs : list Z)
  : option (list (list Z) * list (list bool)) :=
  match cs with
  | [] => Some ([], [])
  | c :: cs' =>
      match pathToRoot fuel tree osz c with
      | Some (path, code) =>
          match allPaths fuel tree osz cs' with
          | Some (ps, ks) => Some (path :: ps, code :: ks)
          | None => None
          end
      | None => None
      end
  end.

(** [Model::buildTree] for an engine with [osz_ = osz] whose [paths] and
    [codes] are still empty; returns [tree], [paths] and [codes].
    [tree.resize] of a negative size has no result. *)
Definition buildTree (fuel : nat) (osz : Z) (counts : list Z)
  : option (list Node * list (list Z) * list (list bool)) :=
  if 2 * osz - 1 <? 0 then None else
  tree ← setCounts osz counts (replicate (Z.to_nat (2 * osz - 1)) blank);
  '(tree, _, _) ← forM merge (seqZ osz (osz - 1)) (tree, osz - 1, osz);
  '(paths, codes) ← allPaths fuel tree osz (seqZ 0 osz);
  Some (tree, paths, codes).

(** The descent of the specification (section 8, invariant 2), which the
    source does not have as a function.  From node [n], each step names
    the internal node it expects to stand on (a [paths] entry, offset by
    [osz]) and the [codes] bit that chooses the child there: right on
    [true], left on [false], as [Model::dfs] reads the tree. *)
Fixpoint descend (tree : list Node) (osz n : Z) (steps : list (Z * bool))
  : option Z :=
  match steps with
  | [] => Some n
  | (p, b) :: steps' =>
      if n =? p + osz then
        match getZ tree n with
        | Some nd => descend tree osz (if b then right nd else left nd) steps'
        | None => None
        end
      else None
  end.

End Huffman.

(** ** Vectors and matrices *)

(** [Vector] ([vector.h]): [m_] floats; the length of the list is [m_]. *)
Definition Vector := list R.

(** Modelled from the spec: [Matrix] ([matrix.h] and [matrix.cc] are not
    part of the sources) is "a two-dimensional contiguous array of floats
    with row addressing", here the list of its rows. *)
Definition Matrix := list (list R).

Section LinearAlgebra.
Local Open Scope R_scope.

(** The bodies of the [Vector] and [Matrix] operations ([vector.cc],
    [matrix.cc]) are not part of the sources; section 4.1 of the spec
    describes them.  The spec leaves indices outside the stored range to
    the caller ("callers must not pass out-of-range indices"); here such a
    read yields [0] and such a write changes nothing. *)

(** Modelled from the spec: [Vector::operator[]], read of element [i]. *)
Definition vget (v : Vector) (i : Z) : R := default 0 (getZ v i).

(** Modelled from the spec: [Vector::operator[]], write of element [i]. *)
Definition vset (v : Vector) (i : Z) (x : R) : Vector :=
  default v (updZ v i (fun _ => x)).

(** Modelled from the spec: row [i] of a matrix ("row addressing"). *)
Definition mrow (M : Matrix) (i : Z) : Vector := default [] (getZ M i).

(** Modelled from the spec: [Matrix::operator()], read of [M(i, j)]. *)
Definition mat_at (M : Matrix) (i j : Z) : R := vget (mrow M i) j.

(** Modelled from the spec: [Matrix::operator()], write of [M(i, j)]. *)
Definition mat_set (M : Matrix) (i j : Z) (x : R) : Matrix :=
  default M (updZ M i (fun r => vset r j x)).

(** Modelled from the spec: [Vector::zero], zero-fill. *)
Definition zero (v : Vector) : Vector := map (fun _ => 0) v.

(** Modelled from the spec: [Vector::mul(real)], scalar multiply in
    place. *)
Definition scale (v : Vector) (a : R) : Vector := map (fun x => x * a) v.

(** Modelled from the spec: [v += a * u], entry by entry over [v]. *)
Fixpoint axpy (a : R) (u v : Vector) : Vector :=
  match v with
  | [] => []
  | x :: v' => (x + a * hd 0 u) :: axpy a (tl u) v'
  end.

(** Modelled from the spec: dot product. *)
Fixpoint dot (u v : Vector) : R :=
  match u, v with
  | x :: u', y :: v' => x * y + dot u' v'
  | _, _ => 0
  end.

(** Modelled from the spec: [Vector::addRow(A, i)], [v += A[i]]. *)
Definition addRow1 (v : Vector) (A : Matrix) (i : Z) : Vector :=
  axpy 1 (mrow A i) v.

(** Modelled from the spec: [Vector::addRow(A, i, a)], [v += a * A[i]]. *)
Definition addRow (v : Vector) (A : Matrix) (i : Z) (a : R) : Vector :=
  axpy a (mrow A i) v.

(** Modelled from the spec: [Matrix::dotRow(vec, i)], the dot product of
    row [i] and [vec]. *)
Definition dotRow (M : Matrix) (vec : Vector) (i : Z) : R :=
  dot (mrow M i) vec.

(** Modelled from the spec: [Matrix::addRow(vec, i, a)],
    [M[i] += a * vec]. *)
Definition mat_addRow (M : Matrix) (vec : Vector) (i : Z) (a : R) : Matrix :=
  default M (updZ M i (axpy a vec)).

(** Modelled from the spec: [Vector::mul(A, vec)], [v = A * vec] with one
    entry of [v] per row of [A]. *)
Definition mulMat (v : Vector) (A : Matrix) (vec : Vector) : Vector :=
  imap (fun i _ => dotRow A vec (Z.of_nat i)) v.

(** [std::max(a, b)]. *)
Definition std_max (a b : R) : R := if Rlt_dec a b then b else a.

(** Conversion of a [real] to an integer: truncation towards zero. *)
Definition trunc (x : R) : Z := if Rlt_dec x 0 then Zceil x else Zfloor x.
End LinearAlgebra.

(** ** The engine *)

(** Modelled from the spec: the enumerations of [args.h] (not part of the
    sources).  The spec lists the losses [ns], [hs], [softmax] and names
    the model [sup]; the other two constructors stand for every model that
    is not [sup]. *)
Module loss_name.
Inductive t := hs | ns | softmax.
End loss_name.

Module model_name.
Inductive t := cbow | sg | sup.
End model_name.

(** The fields of [Args] the engine reads. *)
Record Args := mkArgs {
  dim : Z;
  loss : loss_name.t;
  model : model_name.t;
  neg : Z
}.

(** The state of a [Model].  The four parameter objects are held by
    [shared_ptr]; one engine is modelled, so they are fields of its
    state.  The sigmoid and log tables are filled once by the constructor
    and never written again: they are the constants [t_sigmoid] and
    [t_log] below. *)
Record Model := mkModel {
  wi_ : Matrix;
  wo_ : Matrix;
  attn_ : Matrix;
  bias_ : Vector;
  args_ : Args;
  hidden_ : Vector;
  output_ : Vector;
  grad_ : Vector;
  softmaxattn_ : list R;
  isz_ : Z;
  osz_ : Z;
  hsz_ : Z;
  loss_ : R;
  nexamples_ : Z;
  negatives : list Z;
  negpos : nat;
  paths : list (list Z);
  codes : list (list bool);
  tree : list Huffman.Node;
  rng : Z
}.

Definition set_wi (x : Matrix) (m : Model) : Model :=
  mkModel x (wo_ m) (attn_ m) (bias_ m) (args_ m) (hidden_ m) (output_ m)
    (grad_ m) (softmaxattn_ m) (isz_ m) (osz_ m) (hsz_ m) (loss_ m)
    (nexamples_ m) (negatives m) (negpos m) (paths m) (codes m) (tree m) (rng m).
Definition set_wo (x : Matrix) (m : Model) : Model :=
  mkModel (wi_ m) x (attn_ m) (bias_ m) (args_ m) (hidden_ m) (output_ m)
    (grad_ m) (softmaxattn_ m) (isz_ m) (osz_ m) (hsz_ m) (loss_ m)
    (nexamples_ m) (negatives m) (negpos m) (paths m) (codes m) (tree m) (rng m).
Definition set_attn (x : Matrix) (m : Model) : Model :=
  mkModel (wi_ m) (wo_ m) x (bias_ m) (args_ m) (hidden_ m) (output_ m)
    (grad_ m) (softmaxattn_ m) (isz_ m) (osz_ m) (hsz_ m) (loss_ m)
    (nexamples_ m) (negatives m) (negpos m) (paths m) (codes m) (tree m) (rng m).
Definition set_bias (x : Vector) (m : Model) : Model :=
  mkModel (wi_ m) (wo_ m) (attn_ m) x (args_ m) (hidden_ m) (output_ m)
    (grad_ m) (softmaxattn_ m) (isz_ m) (osz_ m) (hsz_ m) (loss_ m)
    (nexamples_ m) (negatives m) (negpos m) (paths m) (codes m) (tree m) (rng m).
Definition set_hidden (x : Vector) (m : Model) : Model :=
  mkModel (wi_ m) (wo_ m) (attn_ m) (bias_ m) (args_ m) x (output_ m)
    (grad_ m) (softmaxattn_ m) (isz_ m) (osz_ m) (hsz_ m) (loss_ m)
    (nexamples_ m) (negatives m) (negpos m) (paths m) (codes m) (tree m) (rng m).
Definition set_output (x : Vector) (m : Model) : Model :=
  mkModel (wi_ m) (wo_ m) (attn_ m) (bias_ m) (args_ m) (hidden_ m) x
    (grad_ m) (softmaxattn_ m) (isz_ m) (osz_ m) (hsz_ m) (loss_ m)
    (nexamples_ m) (negatives m) (negpos m) (paths m) (codes m) (tree m) (rng m).
Definition set_grad (x : Vector) (m : Model) : Model :=
  mkModel (wi_ m) (wo_ m) (attn_ m) (bias_ m) (args_ m) (hidden_ m) (output_ m)
    x (softmaxattn_ m) (isz_ m) (osz_ m) (hsz_ m) (loss_ m)
    (nexamples_ m) (negatives m) (negpos m) (paths m) (codes m) (tree m) (rng m).
Definition set_softmaxattn (x : list R) (m : Model) : Model :=
  mkModel (wi_ m) (wo_ m) (attn_ m) (bias_ m) (args_ m) (hidden_ m) (output_ m)
    (grad_ m) x (isz_ m) (osz_ m) (hsz_ m) (loss_ m)
    (nexamples_ m) (negatives m) (negpos m) (paths m) (codes m) (tree m) (rng m).
Definition set_loss (x : R) (m : Model) : Model :=
  mkModel (wi_ m) (wo_ m) (attn_ m) (bias_ m) (args_ m) (hidden_ m) (output_ m)
    (grad_ m) (softmaxattn_ m) (isz_ m) (osz_ m) (hsz_ m) x
    (nexamples_ m) (negatives m) (negpos m) (paths m) (codes m) (tree m) (rng m).
Definition set_nexamples (x : Z) (m : Model) : Model :=
  mkModel (wi_ m) (wo_ m) (attn_ m) (bias_ m) (args_ m) (hidden_ m) (output_ m)
    (grad_ m) (softmaxattn_ m) (isz_ m) (osz_ m) (hsz_ m) (loss_ m)
    x (negatives m) (negpos m) (paths m) (codes m) (tree m) (rng m).
Definition set_negatives (x : list Z) (m : Model) : Model :=
  mkModel (wi_ m) (wo_ m) (attn_ m) (bias_ m) (args_ m) (hidden_ m) (output_ m)
    (grad_ m) (softmaxattn_ m) (isz_ m) (osz_ m) (hsz_ m) (loss_ m)
    (nexamples_ m) x (negpos m) (paths m) (codes m) (tree m) (rng m).
Definition set_negpos (x : nat) (m : Model) : Model :=
  mkModel (wi_ m) (wo_ m) (attn_ m) (bias_ m) (args_ m) (hidden_ m) (output_ m)
    (grad_ m) (softmaxattn_ m) (isz_ m) (osz_ m) (hsz_ m) (loss_ m)
    (nexamples_ m) (negatives m) x (paths m) (codes m) (tree m) (rng m).
Definition set_tree (t : list Huffman.Node) (p : list (list Z))
    (c : list (list bool)) (m : Model) : Model :=
  mkModel (wi_ m) (wo_ m) (attn_ m) (bias_ m) (args_ m) (hidden_ m) (output_ m)
    (grad_ m) (softmaxattn_ m) (isz_ m) (osz_ m) (hsz_ m) (loss_ m)
    (nexamples_ m) (negatives m) (negpos m) p c t (rng m).

(** [Model::Model].  Modelled from the spec: [Vector(n)] ([vector.cc] is
    not part of the sources) has [n] entries, here zero. *)
Definition new_Model (wi wo attn : Matrix) (bias : Vector) (args : Args)
    (seed : Z) : Model :=
  {| wi_ := wi; wo_ := wo; attn_ := attn; bias_ := bias; args_ := args;
     hidden_ := replicate (Z.to_nat (dim args)) 0%R;
     output_ := replicate (length wo) 0%R;
     grad_ := replicate (Z.to_nat (dim args)) 0%R;
     softmaxattn_ := [];
     isz_ := Z.of_nat (length wi);
     osz_ := Z.of_nat (length wo);
     hsz_ := dim args;
     loss_ := 0%R;
     nexamples_ := 1;
     negatives := []; negpos := 0%nat;
     paths := []; codes := []; tree := [];
     rng := seed |}.

(** [Model::getLoss]. *)
Definition getLoss (m : Model) : R := (loss_ m / IZR (nexamples_ m))%R.

(** [Model::getNegative]: the [do ... while] loop, with [fuel] bounding
    the number of draws. *)
Fixpoint getNegative_loop (fuel : nat) (table : list Z) (pos : nat)
    (target : Z) : option (Z * nat) :=
  match fuel with
  | O => None
  | S fuel' =>
      match table !! pos with
      | None => None
      | Some negative =>
          let pos' := ((pos + 1) mod length table)%nat in
          if target =? negative
          then getNegative_loop fuel' table pos' target
          else Some (negative, pos')
      end
  end.

(** [Model::getNegative].  A walk of [negatives.size()] draws that only
    meets [target] has seen the whole cycle and never ends
    ([getNegative_loop_exact]), so this fuel loses no result. *)
Definition getNegative (m : Model) (target : Z) : option (Z * Model) :=
  '(negative, pos) ←
    getNegative_loop (length (negatives m)) (negatives m) (negpos m) target;
  Some (negative, set_negpos pos m).

(** What [model.h], which is not part of the sources, declares and the
    engine uses: the four constants, and the random generator [rng], which
    the engine only hands to [std::shuffle]; [shuffle rng v] is the vector
    [std::shuffle(v.begin(), v.end(), rng)] leaves. *)
Class Constants := {
  SIGMOID_TABLE_SIZE : Z;
  MAX_SIGMOID : Z;
  LOG_TABLE_SIZE : Z;
  NEGATIVE_TABLE_SIZE : Z;
  shuffle : Z -> list Z -> list Z
}.

Section Engine.
Local Open Scope R_scope.
Context {K : Constants}.

(** [Model::initSigmoid]. *)
Definition t_sigmoid : list R :=
  (fun i : Z =>
     let x := IZR (i * 2 * MAX_SIGMOID) / IZR SIGMOID_TABLE_SIZE
              - IZR MAX_SIGMOID in
     1 / (1 + exp (- x)))
  <$> seqZ 0 (SIGMOID_TABLE_SIZE + 1).

(** [Model::initLog]. *)
Definition t_log : list R :=
  (fun i : Z => ln ((IZR i + 1e-5) / IZR LOG_TABLE_SIZE))
  <$> seqZ 0 (LOG_TABLE_SIZE + 1).

(** [Model::log]. *)
Definition log (x : R) : option R :=
  if Rlt_dec 1 x then Some 0
  else getZ t_log (trunc (x * IZR LOG_TABLE_SIZE)).

(** [Model::sigmoid]. *)
Definition sigmoid (x : R) : option R :=
  if Rlt_dec x (- IZR MAX_SIGMOID) then Some 0
  else if Rlt_dec (IZR MAX_SIGMOID) x then Some 1
  else getZ t_sigmoid
         (trunc ((x + IZR MAX_SIGMOID) * IZR SIGMOID_TABLE_SIZE
                 / IZR MAX_SIGMOID / 2)).

(** [Model::binaryLogistic]; returns the loss and the new state. *)
Definition binaryLogistic (m : Model) (target : Z) (label : bool) (lr : R)
  : option (R * Model) :=
  score ← sigmoid (dotRow (wo_ m) (hidden_ m) target);
  let alpha := lr * ((if label then 1 else 0) - score) in
  let m := set_grad (addRow (grad_ m) (wo_ m) target alpha) m in
  let m := set_wo (mat_addRow (wo_ m) (hidden_ m) target alpha) m in
  if label then l ← log score; Some (- l, m)
  else l ← log (1 - score); Some (- l, m).

(** Lines 62-68 for [n = 1 .. neg]: [k] more negatives. *)
Fixpoint negativeSampling_loop (k : nat) (target : Z) (lr : R) (loss : R)
    (m : Model) : option (R * Model) :=
  match k with
  | O => Some (loss, m)
  | S k' =>
      '(negative, m) ← getNegative m target;
      '(l, m) ← binaryLogistic m negative false lr;
      negativeSampling_loop k' target lr (loss + l) m
  end.

(** [Model::negativeSampling]. *)
Definition negativeSampling (m : Model) (target : Z) (lr : R)
  : option (R * Model) :=
  let m := set_grad (zero (grad_ m)) m in
  if (neg (args_ m) <? 0)%Z then Some (0, m)
  else
    '(l, m) ← binaryLogistic m target true lr;
    negativeSampling_loop (Z.to_nat (neg (args_ m))) target lr (0 + l) m.

(** Lines 79-81: the loop over [pathToRoot], reading [binaryCode[i]]. *)
Fixpoint hierarchicalSoftmax_loop (pathToRoot : list Z)
    (binaryCode : list bool) (lr : R) (loss : R) (m : Model)
  : option (R * Model) :=
  match pathToRoot with
  | [] => Some (loss, m)
  | p :: pathToRoot' =>
      match binaryCode with
      | [] => None
      | b :: binaryCode' =>
          '(l, m) ← binaryLogistic m p b lr;
          hierarchicalSoftmax_loop pathToRoot' binaryCode' lr (loss + l) m
      end
  end.

(** [Model::hierarchicalSoftmax]. *)
Definition hierarchicalSoftmax (m : Model) (target : Z) (lr : R)
  : option (R * Model) :=
  let m := set_grad (zero (grad_ m)) m in
  binaryCode ← getZ (codes m) target;
  pathToRoot ← getZ (paths m) target;
  hierarchicalSoftmax_loop pathToRoot binaryCode lr 0 m.

(** [Model::computeOutputSoftmax(hidden, output)] for an engine with
    [osz_ = osz]. *)
Definition computeOutputSoftmax (wo : Matrix) (osz : Z) (hidden output : Vector)
  : Vector :=
  let output := mulMat output wo hidden in
  let max := fold_left (fun max i => std_max (vget output i) max)
               (seqZ 0 osz) (vget output 0) in
  let '(output, z) :=
    fold_left (fun '(output, z) i =>
                 let output := vset output i (exp (vget output i - max)) in
                 (output, z + vget output i))
              (seqZ 0 osz) (output, 0) in
  fold_left (fun output i => vset output i (vget output i / z))
    (seqZ 0 osz) output.

(** Lines 105-110: the loop of [Model::softmax]. *)
Definition softmax_step (target : Z) (lr : R) (m : Model) (i : Z) : Model :=
  let label := if (i =? target)%Z then 1 else 0 in
  let alpha := lr * (label - vget (output_ m) i) in
  let m := set_grad (addRow (grad_ m) (wo_ m) i alpha) m in
  set_wo (mat_addRow (wo_ m) (hidden_ m) i alpha) m.

(** [Model::softmax]. *)
Definition softmax (m : Model) (target : Z) (lr : R) : option (R * Model) :=
  let m := set_grad (zero (grad_ m)) m in
  let m := set_output
             (computeOutputSoftmax (wo_ m) (osz_ m) (hidden_ m) (output_ m)) m in
  let m := fold_left (softmax_step target lr) (seqZ 0 (osz_ m)) m in
  l ← log (vget (output_ m) target);
  Some (- l, m).

(** The dispatch on [args_->loss] of the three update drivers (lines
    364-370, 402-408, 419-425): the loss kernel that runs, with the loss
    it returns. *)
Definition lossKernel (m : Model) (target : Z) (lr : R) : option (R * Model) :=
  match loss (args_ m) with
  | loss_name.ns => negativeSampling m target lr
  | loss_name.hs => hierarchicalSoftmax m target lr
  | loss_name.softmax => softmax m target lr
  end.

(** [Model::computeHidden]. *)
Definition computeHidden (m : Model) (input : list Z) (hidden : Vector)
  : option Vector :=
  if (Z.of_nat (length hidden) =? hsz_ m)%Z then
    let hidden := zero hidden in
    let hidden := fold_left (fun h it => addRow1 h (wi_ m) it) input hidden in
    Some (scale hidden (1 / INR (length input)))
  else None.

(** [Model::update]. *)
Definition update (m : Model) (input : list Z) (target : Z) (lr : R)
  : option Model :=
  if negb (0 <=? target)%Z then None else
  if negb (target <? osz_ m)%Z then None else
  if (length input =? 0)%nat then Some m else
  hidden ← computeHidden m input (hidden_ m);
  let m := set_hidden hidden m in
  '(l, m) ← lossKernel m target lr;
  let m := set_loss (loss_ m + l) m in
  let m := set_nexamples (nexamples_ m + 1)%Z m in
  let m := match model (args_ m) with
           | model_name.sup =>
               set_grad (scale (grad_ m) (1 / INR (length input))) m
           | _ => m
           end in
  Some (fold_left
          (fun m it => set_wi (mat_addRow (wi_ m) (grad_ m) it 1) m)
          input m).

(** The loss the kernel returns when [update m input target lr] runs
    it. *)
Definition update_loss (m : Model) (input : list Z) (target : Z) (lr : R)
  : option R :=
  hidden ← computeHidden m input (hidden_ m);
  '(l, _) ← lossKernel (set_hidden hidden m) target lr;
  Some l.

(** A run of [update] calls, each given as [(input, target, lr)];
    returns the last state and the losses the kernels returned, in
    order. *)
Fixpoint updates (m : Model) (calls : list (list Z * Z * R))
  : option (Model * list R) :=
  match calls with
  | [] => Some (m, [])
  | (input, target, lr) :: calls' =>
      l ← update_loss m input target lr;
      m ← update m input target lr;
      '(m, ls) ← updates m calls';
      Some (m, l :: ls)
  end.

(** [Model::computeAttnHidden]; returns [hidden] and [softmaxattn].  The
    four loops of the source run over [i < input.size()]; [attention] and
    [softmaxattn] get one entry per pair, so the loops that read them with
    [at(i)] are folds over these vectors. *)
Definition computeAttnHidden (m : Model) (input : list (Z * Z))
    (hidden : Vector) : option (Vector * list R) :=
  if negb (Z.of_nat (length hidden) =? hsz_ m)%Z then None else
  let hidden := zero hidden in
  let '(attention_max, attention) :=
    fold_left
      (fun '(attention_max, attention) p =>
         let attention_i :=
           mat_at (attn_ m) (fst p) (snd p) + vget (bias_ m) (snd p) in
         ((if Rlt_dec attention_max attention_i then attention_i
           else attention_max),
          attention ++ [attention_i]))
      input (0, []) in
  let '(softmaxattn, sum) :=
    fold_left
      (fun '(softmaxattn, sum) a =>
         let w := if Rlt_dec (a - attention_max) (-50) then 0
                  else exp (a - attention_max) in
         (softmaxattn ++ [w], sum + w))
      attention ([], 0) in
  let softmaxattn := map (fun w => w / sum) softmaxattn in
  let hidden :=
    fold_left (fun h '(p, w) => addRow h (wi_ m) (fst p) w)
      (zip input softmaxattn) hidden in
  Some (hidden, softmaxattn).

(** [Model::computeAttnHidden2]: as [computeAttnHidden], with the logit
    read at row [target] of [attn_]. *)
Definition computeAttnHidden2 (m : Model) (input : list (Z * Z)) (target : Z)
    (hidden : Vector) : option (Vector * list R) :=
  if negb (Z.of_nat (length hidden) =? hsz_ m)%Z then None else
  let hidden := zero hidden in
  let '(attention_max, attention) :=
    fold_left
      (fun '(attention_max, attention) p =>
         let attention_i :=
           mat_at (attn_ m) target (snd p) + vget (bias_ m) (snd p) in
         ((if Rlt_dec attention_max attention_i then attention_i
           else attention_max),
          attention ++ [attention_i]))
      input (0, []) in
  let '(softmaxattn, sum) :=
    fold_left
      (fun '(softmaxattn, sum) a =>
         let w := if Rlt_dec (a - attention_max) (-50) then 0
                  else exp (a - attention_max) in
         (softmaxattn ++ [w], sum + w))
      attention ([], 0) in
  let softmaxattn := map (fun w => w / sum) softmaxattn in
  let hidden :=
    fold_left (fun h '(p, w) => addRow h (wi_ m) (fst p) w)
      (zip input softmaxattn) hidden in
  Some (hidden, softmaxattn).

(** Lines 298-312: the loop of [Model::computeAttnGradient];
    [softmaxattn.at(i)] has no result past the end. *)
Fixpoint computeAttnGradient_loop (input_size : Z) (gradient : Vector)
    (input : list (Z * Z)) (softmaxattn : list R) (m : Model) : option Model :=
  match input with
  | [] => Some m
  | p :: input' =>
      match softmaxattn with
      | [] => None
      | a :: softmaxattn' =>
          let gattn :=
            a * (dotRow (wi_ m) gradient (fst p) - dot gradient (hidden_ m)) in
          let m := set_wi (mat_addRow (wi_ m) gradient (fst p)
                             (a * IZR input_size)) m in
          let m := set_attn (mat_set (attn_ m) (fst p) (snd p)
                               (mat_at (attn_ m) (fst p) (snd p) + gattn)) m in
          let m := set_bias (vset (bias_ m) (snd p)
                               (vget (bias_ m) (snd p) + gattn)) m in
          computeAttnGradient_loop input_size gradient input' softmaxattn' m
      end
  end.

(** [Model::computeAttnGradient], called on [grad_] and [softmaxattn_],
    which the loop does not write. *)
Definition computeAttnGradient (m : Model) (input : list (Z * Z))
    (gradient : Vector) (softmaxattn : list R) : option Model :=
  if negb (Z.of_nat (length gradient) =? hsz_ m)%Z then None else
  computeAttnGradient_loop (Z.of_nat (length input)) gradient input
    softmaxattn m.

(** Lines 328-335: the loop of [Model::computeAttnGradient2]. *)
Fixpoint computeAttnGradient2_loop (input_size : Z) (target : Z)
    (gradient : Vector) (input : list (Z * Z)) (softmaxattn : list R)
    (m : Model) : option Model :=
  match input with
  | [] => Some m
  | p :: input' =>
      match softmaxattn with
      | [] => None
      | a :: softmaxattn' =>
          let gattn :=
            a * (dotRow (wi_ m) gradient (fst p) - dot gradient (hidden_ m)) in
          let m := set_wi (mat_addRow (wi_ m) gradient (fst p)
                             (a * IZR input_size)) m in
          let m := set_attn (mat_set (attn_ m) target (snd p)
                               (mat_at (attn_ m) target (snd p) + gattn)) m in
          let m := set_bias (vset (bias_ m) (snd p)
                               (vget (bias_ m) (snd p) + gattn)) m in
          computeAttnGradient2_loop input_size target gradient input'
            softmaxattn' m
      end
  end.

(** [Model::computeAttnGradient2]. *)
Definition computeAttnGradient2 (m : Model) (input : list (Z * Z))
    (target : Z) (gradient : Vector) (softmaxattn : list R) : option Model :=
  if negb (Z.of_nat (length gradient) =? hsz_ m)%Z then None else
  computeAttnGradient2_loop (Z.of_nat (length input)) target gradient input
    softmaxattn m.

(** Lines 355-360 and 393-398: the loop that erases from [input] every
    pair whose first component is [target]. *)
Fixpoint eraseTarget (target : Z) (input : list (Z * Z)) : list (Z * Z) :=
  match input with
  | [] => []
  | p :: input' =>
      if (fst p =? target)%Z then eraseTarget target input'
      else p :: eraseTarget target input'
  end.

(** [Model::updateAttn].  [input] is passed by reference and written:
    the result holds the new state and the caller's vector after the
    call. *)
Definition updateAttn (m : Model) (input : list (Z * Z)) (target : Z) (lr : R)
  : option (Model * list (Z * Z)) :=
  if negb (0 <=? target)%Z then None else
  if negb (target <? osz_ m)%Z then None else
  if (length input =? 0)%nat then Some (m, input) else
  let m := set_softmaxattn [] m in
  let input := eraseTarget target input in
  if (length input =? 0)%nat then Some (m, input) else
  '(hidden, softmaxattn) ← computeAttnHidden m input (hidden_ m);
  let m := set_softmaxattn softmaxattn (set_hidden hidden m) in
  '(l, m) ← lossKernel m target lr;
  let m := set_loss (loss_ m + l) m in
  let m := set_nexamples (nexamples_ m + 1)%Z m in
  m ← computeAttnGradient m input (grad_ m) (softmaxattn_ m);
  Some (m, input).

(** [Model::updateAttn2]. *)
Definition updateAttn2 (m : Model) (input : list (Z * Z)) (target : Z) (lr : R)
  : option (Model * list (Z * Z)) :=
  if negb (0 <=? target)%Z then None else
  if negb (target <? osz_ m)%Z then None else
  if (length input =? 0)%nat then Some (m, input) else
  let m := set_softmaxattn [] m in
  let input := eraseTarget target input in
  if (length input =? 0)%nat then Some (m, input) else
  '(hidden, softmaxattn) ← computeAttnHidden2 m input target (hidden_ m);
  let m := set_softmaxattn softmaxattn (set_hidden hidden m) in
  '(l, m) ← lossKernel m target lr;
  let m := set_loss (loss_ m + l) m in
  let m := set_nexamples (nexamples_ m + 1)%Z m in
  m ← computeAttnGradient2 m input target (grad_ m) (softmaxattn_ m);
  Some (m, input).

(** Lines 453-455: the pushes of class [i], from [j] on, while
    [j < bound]; [fuel] bounds their number. *)
Fixpoint push_class (fuel : nat) (bound : R) (i j : Z) (table : list Z)
  : option (list Z) :=
  if Rlt_dec (IZR j) bound then
    match fuel with
    | O => None
    | S fuel' => push_class fuel' bound i (j + 1) (table ++ [i])
    end
  else Some table.

(** Lines 451-456, for the classes from [i] on.  [pow(x, 0.5)] is the
    square root. *)
Fixpoint push_classes (fuel : nat) (z : R) (i : Z) (counts : list Z)
    (table : list Z) : option (list Z) :=
  match counts with
  | [] => Some table
  | count :: counts' =>
      let c := sqrt (IZR count) in
      table ← push_class fuel (c * IZR NEGATIVE_TABLE_SIZE / z) i 0 table;
      push_classes fuel z (i + 1) counts' table
  end.

(** [Model::initTableNegatives].  The state the shuffle leaves the
    generator in is not recorded: nothing else of the engine reads it. *)
Definition initTableNegatives (fuel : nat) (m : Model) (counts : list Z)
  : option Model :=
  let z := fold_left (fun z count => z + sqrt (IZR count)) counts 0 in
  table ← push_classes fuel z 0 counts (negatives m);
  Some (set_negatives (shuffle (rng m) table) m).

(** [Model::setTargetCounts]; [buildTree] appends to [paths] and
    [codes]. *)
Definition setTargetCounts (fuel : nat) (m : Model) (counts : list Z)
  : option Model :=
  if negb (Z.of_nat (length counts) =? osz_ m)%Z then None else
  m ← match loss (args_ m) with
      | loss_name.ns => initTableNegatives fuel m counts
      | _ => Some m
      end;
  match loss (args_ m) with
  | loss_name.hs =>
      '(t, p, c) ← Huffman.buildTree fuel (osz_ m) counts;
      Some (set_tree t (paths m ++ p) (codes m ++ c) m)
  | _ => Some m
  end.
End Engine.

(** ** Prediction *)

(** What [<algorithm>] provides and [findKBest], [dfs] and [predict] use:
    the heap algorithms on a vector of pairs, with the comparison that is
    passed to them.  [push_heap comp v] is the vector that
    [std::push_heap(v.begin(), v.end(), comp)] leaves, and so on for
    [pop_heap] and [sort_heap]. *)
Class HeapAlgorithms := {
  push_heap : (R * Z -> R * Z -> bool) -> list (R * Z) -> list (R * Z);
  pop_heap : (R * Z -> R * Z -> bool) -> list (R * Z) -> list (R * Z);
  sort_heap : (R * Z -> R * Z -> bool) -> list (R * Z) -> list (R * Z)
}.

(** [Model::comparePairs]: [l.first > r.first]. *)
Definition comparePairs (l r : R * Z) : bool :=
  if Rlt_dec (fst r) (fst l) then true else false.

(** The conversion of the [int32_t k] to [size_t] where [heap.size()] is
    compared with it, for a [size_t] of 64 bits. *)
Definition as_size_t (k : Z) : Z := k mod 2 ^ 64.

(** [v.pop_back()]; on an empty vector it has no result. *)
Definition pop_back {A : Type} (v : list A) : option (list A) :=
  match v with
  | [] => None
  | _ => Some (removelast v)
  end.

Section Prediction.
Local Open Scope R_scope.
Context {K : Constants} {H : HeapAlgorithms}.

(** Lines 243-248 and 260-265: the pair is pushed on the heap, and the
    front is popped when the heap has grown beyond [k]. *)
Definition push_bounded (k : Z) (heap : list (R * Z)) (e : R * Z)
  : option (list (R * Z)) :=
  let heap := push_heap comparePairs (heap ++ [e]) in
  if (as_size_t k <? Z.of_nat (length heap))%Z then
    pop_back (pop_heap comparePairs heap)
  else Some heap.

(** Lines 240 and 255: [heap.size() == k && x < heap.front().first];
    [&&] reads the front only of a heap of [k] entries, and
    [heap.front()] has no result on an empty vector. *)
Definition below_front (k : Z) (heap : list (R * Z)) (x : option R)
  : option bool :=
  if (Z.of_nat (length heap) =? as_size_t k)%Z then
    x ← x;
    front ← head heap;
    Some (if Rlt_dec x (fst front) then true else false)
  else Some false.

(** Lines 240-248: the body of the loop of [Model::findKBest] for class
    [i]. *)
Definition findKBest_step (k : Z) (output : Vector) (i : Z)
    (heap : list (R * Z)) : option (list (R * Z)) :=
  skip ← below_front k heap (log (vget output i));
  if (skip : bool) then Some heap
  else
    l ← log (vget output i);
    push_bounded k heap (l, i).

(** [Model::findKBest]; returns [heap] and [output]. *)
Definition findKBest (m : Model) (k : Z) (heap : list (R * Z))
    (hidden output : Vector) : option (list (R * Z) * Vector) :=
  let output := computeOutputSoftmax (wo_ m) (osz_ m) hidden output in
  heap ← forM (findKBest_step k output) (seqZ 0 (osz_ m)) heap;
  Some (heap, output).

(** [Model::dfs]; returns [heap].  The recursion of the source is
    unbounded; [fuel] bounds its depth. *)
Fixpoint dfs (fuel : nat) (m : Model) (k node : Z) (score : R)
    (heap : list (R * Z)) (hidden : Vector) : option (list (R * Z)) :=
  match fuel with
  | O => None
  | S fuel' =>
      prune ← below_front k heap (Some score);
      if (prune : bool) then Some heap
      else
        nd ← getZ (tree m) node;
        if ((Huffman.left nd =? -1) && (Huffman.right nd =? -1))%Z then
          push_bounded k heap (score, node)
        else
          f ← sigmoid (dotRow (wo_ m) hidden (node - osz_ m));
          l ← log (1 - f);
          heap ← dfs fuel' m k (Huffman.left nd) (score + l) heap hidden;
          l ← log f;
          dfs fuel' m k (Huffman.right nd) (score + l) heap hidden
  end.

(** [Model::predict] with the five arguments; returns [heap], [hidden]
    and [output].  [heap.reserve] changes the capacity only. *)
Definition predict (fuel : nat) (m : Model) (input : list Z) (k : Z)
    (heap : list (R * Z)) (hidden output : Vector)
  : option (list (R * Z) * Vector * Vector) :=
  if negb (0 <? k)%Z then None else
  hidden ← computeHidden m input hidden;
  '(heap, output) ←
    match loss (args_ m) with
    | loss_name.hs =>
        heap ← dfs fuel m k (2 * osz_ m - 2) 0 heap hidden;
        Some (heap, output)
    | _ => findKBest m k heap hidden output
    end;
  Some (sort_heap comparePairs heap, hidden, output).

(** [Model::predict] with the three arguments, on [hidden_] and
    [output_]; returns [heap] and the new state. *)
Definition predict_state (fuel : nat) (m : Model) (input : list Z) (k : Z)
    (heap : list (R * Z)) : option (list (R * Z) * Model) :=
  '(heap, hidden, output) ←
    predict fuel m input k heap (hidden_ m) (output_ m);
  Some (heap, set_output output (set_hidden hidden m)).
End Prediction.

(** * Part II: properties *)

(** ** Arrays indexed by machine integers *)

Section ZArrayFacts.
Context {A : Type}.
Implicit Types (v : list A) (i j k : Z).

Lemma getZ_Some v i x :
  getZ v i = Some x <-> 0 <= i /\ v !! Z.to_nat i = Some x.
Proof.
  unfold getZ. destruct (Z.ltb_spec i 0); split; intros H1.
  - discriminate.
  - lia.
  - split; [lia | exact H1].
  - tauto.
Qed.

Lemma getZ_lt v i x : getZ v i = Some x -> 0 <= i < Z.of_nat (length v).
Proof.
  intros [H0 H1]%getZ_Some. apply lookup_lt_Some in H1. lia.
Qed.

Lemma getZ_in_range v i :
  0 <= i < Z.of_nat (length v) -> exists x, getZ v i = Some x.
Proof.
  intros H. destruct (lookup_lt_is_Some_2 v (Z.to_nat i)) as [x Hx]; [lia|].
  exists x. apply getZ_Some. split; [lia | exact Hx].
Qed.

Lemma updZ_length v i f v' : updZ v i f = Some v' -> length v' = length v.
Proof.
  unfold updZ. destruct (getZ v i); [|discriminate].
  intros [= <-]. apply length_insert.
Qed.

Lemma updZ_get_eq v i f v' x :
  updZ v i f = Some v' -> getZ v i = Some x -> getZ v' i = Some (f x).
Proof.
  unfold updZ. intros Hu Hg. rewrite Hg in Hu. injection Hu as <-.
  apply getZ_Some in Hg as [H0 H1]. apply getZ_Some. split; [exact H0|].
  apply list_lookup_insert_eq. eapply lookup_lt_Some; eauto.
Qed.

Lemma updZ_get_ne v i f v' j :
  updZ v i f = Some v' -> i <> j -> getZ v' j = getZ v j.
Proof.
  unfold updZ. destruct (getZ v i) eqn:Hg; [|discriminate].
  intros [= <-] Hne. apply getZ_Some in Hg as [H0 _].
  unfold getZ. destruct (Z.ltb_spec j 0); [reflexivity|].
  apply list_lookup_insert_ne. lia.
Qed.

Lemma getZ_insert v k y x :
  0 <= k < Z.of_nat (length v) ->
  getZ (<[Z.to_nat k := y]> v) x = if x =? k then Some y else getZ v x.
Proof.
  intros Hk. unfold getZ. destruct (Z.eqb_spec x k) as [->|Hne].
  - destruct (Z.ltb_spec k 0); [lia|]. apply list_lookup_insert_eq. lia.
  - destruct (Z.ltb_spec x 0); [reflexivity|].
    apply list_lookup_insert_ne. lia.
Qed.

Lemma updZ_in_range v i f :
  0 <= i < Z.of_nat (length v) -> exists v', updZ v i f = Some v'.
Proof.
  intros H. destruct (getZ_in_range v i H) as [x Hx].
  unfold updZ. rewrite Hx. eauto.
Qed.
End ZArrayFacts.

(** ** The Huffman tree *)

Module HuffmanFacts.
Import Huffman.

(** *** Loop invariants *)

Lemma forM_inv {St : Type} (body : Z -> St -> option St) (P : Z -> St -> Prop)
    (n : nat) : forall lo s,
  P lo s ->
  (forall i s, lo <= i < lo + Z.of_nat n -> P i s ->
     exists s', body i s = Some s' /\ P (i + 1) s') ->
  exists s', forM body (seqZ lo (Z.of_nat n)) s = Some s' /\ P (lo + Z.of_nat n) s'.
Proof.
  induction n as [|n IH]; intros lo s HP Hstep.
  - exists s. split; [reflexivity|]. now replace (lo + Z.of_nat 0) with lo by lia.
  - rewrite seqZ_cons by lia. cbn [forM].
    destruct (Hstep lo s ltac:(lia) HP) as [s1 [-> HP1]].
    replace (Z.pred (Z.of_nat (S n))) with (Z.of_nat n) by lia.
    destruct (IH (Z.succ lo) s1) as [s2 [Hs2 HP2]].
    + now replace (Z.succ lo) with (lo + 1) by lia.
    + intros i s' Hi. apply Hstep. lia.
    + exists s2. split; [exact Hs2|].
      now replace (lo + Z.of_nat (S n)) with (Z.succ lo + Z.of_nat n) by lia.
Qed.

Lemma link_spec i m0 m1 tree n0 n1 :
  getZ tree i = Some blank -> getZ tree m0 = Some n0 -> getZ tree m1 = Some n1 ->
  m0 <> i -> m1 <> i -> m0 <> m1 ->
  exists tree',
    link i m0 m1 tree = Some tree' /\
    length tree' = length tree /\
    getZ tree' i = Some (mkNode (-1) m0 m1 (count n0 + count n1) false) /\
    getZ tree' m0 = Some (set_parent i n0) /\
    getZ tree' m1 = Some (set_binary true (set_parent i n1)) /\
    (forall x, x <> i -> x <> m0 -> x <> m1 -> getZ tree' x = getZ tree x).
Proof.
  intros Hi H0 H1 N0 N1 N01.
  pose proof (getZ_lt _ _ _ Hi) as Ri.
  pose proof (getZ_lt _ _ _ H0) as R0.
  pose proof (getZ_lt _ _ _ H1) as R1.
  apply Z.eqb_neq in N0 as E0. apply Z.eqb_neq in N1 as E1.
  apply Z.eqb_neq in N01 as E01.
  assert (E10 : (m1 =? m0) = false) by (apply Z.eqb_neq; lia).
  assert (Ei0 : (i =? m0) = false) by (apply Z.eqb_neq; lia).
  assert (Ei1 : (i =? m1) = false) by (apply Z.eqb_neq; lia).
  unfold link, updZ.
  repeat (rewrite ?getZ_insert, ?length_insert, ?Z.eqb_refl, ?E0, ?E1, ?E01,
            ?E10, ?Hi, ?H0, ?H1 by (rewrite ?length_insert; lia); cbn).
  eexists. split; [reflexivity|].
  repeat (rewrite ?getZ_insert, ?length_insert, ?Z.eqb_refl, ?E0, ?E1, ?E01,
            ?E10, ?Ei0, ?Ei1 by (rewrite ?length_insert; lia); cbn).
  repeat split; try reflexivity.
  intros x Xi X0 X1.
  apply Z.eqb_neq in Xi, X0, X1.
  repeat (rewrite ?getZ_insert, ?length_insert, ?Xi, ?X0, ?X1
            by (rewrite ?length_insert; lia); cbn).
  reflexivity.
Qed.

Section Invariant.
Variable osz : Z.
Hypothesis Hosz : 1 <= osz.

(** The cursors after [p] choices in total, while parent [i] is built. *)
Definition cursors (i p leaf node : Z) : Prop :=
  -1 <= leaf <= osz - 1 /\ osz <= node <= i /\ node - leaf = p + 1.

(** The nodes already given a parent. *)
Definition consumed (leaf node x : Z) : Prop :=
  leaf < x < osz \/ osz <= x < node.

(** What the choice of [mini] reads: sizes, leaves below the unbuilt
    count, parents from [i] on still blank. *)
Definition tree_shape (i : Z) (tree : list Node) : Prop :=
  Z.of_nat (length tree) = 2 * osz - 1 /\
  (forall x, 0 <= x < osz ->
     exists nd, getZ tree x = Some nd /\ count nd < UNBUILT /\
                left nd = -1 /\ right nd = -1) /\
  (forall x, i <= x < 2 * osz - 1 -> getZ tree x = Some blank).

(** Every consumed node is the child its [binary] flag names of a parent
    above it; every other node has no parent yet. *)
Definition tree_links (i leaf node : Z) (tree : list Node) : Prop :=
  (forall x, consumed leaf node x ->
     exists nd pn, getZ tree x = Some nd /\ osz <= parent nd < i /\
                   x < parent nd /\ getZ tree (parent nd) = Some pn /\
                   (if binary nd then right pn else left pn) = x) /\
  (forall x, 0 <= x < 2 * osz - 1 -> ~ consumed leaf node x ->
     exists nd, getZ tree x = Some nd /\ parent nd = -1 /\ binary nd = false).

Lemma pick_ok i p leaf node tree :
  osz <= i <= 2 * osz - 2 ->
  2 * (i - osz) <= p <= 2 * (i - osz) + 1 ->
  tree_shape i tree -> cursors i p leaf node ->
  exists m leaf' node',
    pick tree leaf node = Some (m, leaf', node') /\
    cursors i (p + 1) leaf' node' /\
    0 <= m < i /\ ~ consumed leaf node m /\
    (forall x, consumed leaf' node' x <-> consumed leaf node x \/ x = m).
Proof.
  intros Hi Hp (Hlen & Hleaf & Hblank) (Hl & Hn & Hd).
  unfold pick. destruct (Z.leb_spec 0 leaf) as [Hle|Hlt].
  - destruct (Hleaf leaf ltac:(lia)) as (l & -> & Hc & _).
    destruct (getZ_in_range tree node ltac:(lia)) as (n & Hgn). rewrite Hgn.
    destruct (Z.ltb_spec (count l) (count n)) as [Hcmp|Hcmp].
    + exists leaf, (leaf - 1), node. unfold cursors, consumed.
      repeat split; try lia.
    + assert (node < i).
      { destruct (Z.eq_dec node i) as [->|]; [|lia].
        rewrite Hblank in Hgn by lia. injection Hgn as <-.
        cbn in Hcmp. lia. }
      exists node, leaf, (node + 1). unfold cursors, consumed.
      repeat split; try lia.
  - exists node, leaf, (node + 1). unfold cursors, consumed.
    repeat split; try lia.
Qed.

Lemma merge_ok i leaf node tree :
  osz <= i <= 2 * osz - 2 ->
  tree_shape i tree -> tree_links i leaf node tree ->
  cursors i (2 * (i - osz)) leaf node ->
  exists tree' leaf' node',
    merge i (tree, leaf, node) = Some (tree', leaf', node') /\
    tree_shape (i + 1) tree' /\ tree_links (i + 1) leaf' node' tree' /\
    cursors (i + 1) (2 * (i + 1 - osz)) leaf' node' /\ node' <= i.
Proof.
  intros Hi Hshape (Hlinked & Hfree) Hcur.
  destruct (pick_ok i (2 * (i - osz)) leaf node tree Hi ltac:(lia) Hshape Hcur)
    as (m0 & leaf1 & node1 & Hp0 & Hcur1 & Hm0 & Hf0 & Hc1).
  destruct (pick_ok i (2 * (i - osz) + 1) leaf1 node1 tree Hi ltac:(lia) Hshape
              Hcur1)
    as (m1 & leaf2 & node2 & Hp1 & Hcur2 & Hm1 & Hf1 & Hc2).
  assert (Hne : m0 <> m1).
  { intros ->. apply Hf1. apply Hc1. now right. }
  destruct Hshape as (Hlen & Hleaf & Hblank).
  destruct (Hfree m0 ltac:(lia) Hf0) as (n0 & Hg0 & Hpar0 & Hbin0).
  assert (Hf1' : ~ consumed leaf node m1).
  { intros Hc. apply Hf1. apply Hc1. now left. }
  destruct (Hfree m1 ltac:(lia) Hf1') as (n1 & Hg1 & Hpar1 & Hbin1).
  destruct (link_spec i m0 m1 tree n0 n1 (Hblank i ltac:(lia)) Hg0 Hg1
              ltac:(lia) ltac:(lia) Hne)
    as (tree' & Hlink & Hlen' & Gi & G0 & G1 & Gx).
  exists tree', leaf2, node2. split.
  { unfold merge. rewrite Hp0. cbn. rewrite Hp1. cbn. rewrite Hlink.
    reflexivity. }
  assert (Hcons : forall x, consumed leaf2 node2 x <->
                            consumed leaf node x \/ x = m0 \/ x = m1).
  { intros x. rewrite Hc2, Hc1. tauto. }
  assert (Hparents : forall x nd, getZ tree x = Some nd ->
            exists nd', getZ tree' x = Some nd' /\
                        left nd' = (if x =? i then m0 else left nd) /\
                        right nd' = (if x =? i then m1 else right nd) /\
                        (x <> i -> count nd' = count nd)).
  { intros x nd Hx. destruct (Z.eqb_spec x i) as [->|Xi].
    - eexists. split; [exact Gi|]. cbn. repeat split; congruence.
    - destruct (Z.eq_dec x m0) as [->|X0].
      { eexists. split; [exact G0|]. rewrite Hg0 in Hx. injection Hx as ->.
        cbn. tauto. }
      destruct (Z.eq_dec x m1) as [->|X1].
      { eexists. split; [exact G1|]. rewrite Hg1 in Hx. injection Hx as ->.
        cbn. tauto. }
      exists nd. rewrite Gx by assumption. tauto. }
  repeat split.
  - lia.
  - intros x Hx. destruct (Hleaf x Hx) as (nd & Hnd & Hc & Hl & Hr).
    destruct (Hparents x nd Hnd) as (nd' & Hnd' & Hl' & Hr' & Hcnt).
    destruct (Z.eqb_spec x i); [lia|].
    exists nd'. rewrite Hcnt by assumption. repeat split; congruence.
  - intros x Hx. rewrite Gx by lia. apply Hblank. lia.
  - intros x [Hold|[->| ->]]%Hcons.
    + destruct (Hlinked x Hold) as (nd & pn & Hnd & Hpr & Hlt & Hpn & Hch).
      assert (x <> m0) by (intros ->; contradiction).
      assert (x <> m1) by (intros ->; contradiction).
      destruct (Hparents _ pn Hpn) as (pn' & Hpn' & Hl' & Hr' & _).
      destruct (Z.eqb_spec (parent nd) i); [lia|].
      exists nd, pn'. rewrite Gx by lia.
      repeat split; try assumption; try lia.
      rewrite Hl', Hr'. exact Hch.
    + eexists _, _. split; [exact G0|]. cbn. rewrite Hbin0.
      repeat split; try lia; [exact Gi | reflexivity].
    + eexists _, _. split; [exact G1|]. cbn.
      repeat split; try lia; [exact Gi | reflexivity].
  - intros x Hx Hnc.
    assert (Hnc' : ~ consumed leaf node x /\ x <> m0 /\ x <> m1).
    { rewrite Hcons in Hnc. tauto. }
    destruct Hnc' as (Hold & X0 & X1).
    destruct (Z.eq_dec x i) as [->|Xi].
    + eexists. split; [exact Gi|]. cbn. tauto.
    + rewrite Gx by assumption. apply Hfree; [lia | assumption].
  - destruct Hcur2 as (? & ? & ?). lia.
  - destruct Hcur2 as (? & ? & ?). lia.
  - destruct Hcur2 as (? & ? & ?). lia.
  - destruct Hcur2 as (? & ? & ?). lia.
  - destruct Hcur2 as (? & ? & ?). lia.
  - destruct Hcur2 as (? & ? & ?). lia.
Qed.

(** The tree after the merge loop: every node below the root
    [2 * osz - 2] is the child its [binary] flag names of a parent above
    it, and the root has no parent. *)
Definition well_linked (tree : list Node) : Prop :=
  Z.of_nat (length tree) = 2 * osz - 1 /\
  (forall x, 0 <= x < osz ->
     exists nd, getZ tree x = Some nd /\ left nd = -1 /\ right nd = -1) /\
  (forall x, 0 <= x < 2 * osz - 2 ->
     exists nd pn, getZ tree x = Some nd /\ osz <= parent nd < 2 * osz - 1 /\
                   x < parent nd /\ getZ tree (parent nd) = Some pn /\
                   (if binary nd then right pn else left pn) = x) /\
  (exists nd, getZ tree (2 * osz - 2) = Some nd /\ parent nd = -1).

Lemma descend_app tree n s1 s2 :
  descend tree osz n (s1 ++ s2) =
  match descend tree osz n s1 with
  | Some m => descend tree osz m s2
  | None => None
  end.
Proof.
  revert n. induction s1 as [|[p b] s1 IH]; intros n; cbn; [reflexivity|].
  destruct (n =? p + osz); [|reflexivity].
  destruct (getZ tree n); [apply IH | reflexivity].
Qed.

Lemma pathToRoot_ok tree (fuel : nat) :
  well_linked tree -> forall j,
  0 <= j <= 2 * osz - 2 ->
  2 * osz - 2 - Z.max j (osz - 1) <= Z.of_nat fuel ->
  exists path code,
    pathToRoot fuel tree osz j = Some (path, code) /\
    length path = length code /\
    Z.of_nat (length path) <= 2 * osz - 2 - Z.max j (osz - 1) /\
    descend tree osz (2 * osz - 2) (rev (zip path code)) = Some j.
Proof.
  intros (Hl & Hleaf & Hlinked & (root & Hroot & Hrp)).
  assert (Htop : forall fuel',
    exists path code,
      pathToRoot fuel' tree osz (2 * osz - 2) = Some (path, code) /\
      length path = length code /\
      Z.of_nat (length path) <= 2 * osz - 2 - Z.max (2 * osz - 2) (osz - 1) /\
      descend tree osz (2 * osz - 2) (rev (zip path code)) = Some (2 * osz - 2)).
  { intros fuel'. exists [], []. destruct fuel'; cbn; rewrite Hroot, Hrp; cbn;
      repeat split; lia. }
  induction fuel as [|fuel IH]; intros j Hj Hfuel.
  - assert (j = 2 * osz - 2) as -> by lia. apply Htop.
  - destruct (Z.eq_dec j (2 * osz - 2)) as [->|Hne]; [apply Htop|].
    destruct (Hlinked j ltac:(lia)) as (nd & pn & Hnd & Hp & Hlt & Hpn & Hch).
    destruct (IH (parent nd) ltac:(lia) ltac:(lia))
      as (path & code & Hrec & Hlen' & Hbound & Hdesc).
    exists ((parent nd - osz) :: path), (binary nd :: code).
    cbn [pathToRoot]. rewrite Hnd.
    destruct (Z.eqb_spec (parent nd) (-1)); [lia|].
    rewrite Hrec. repeat split.
    + cbn. now rewrite Hlen'.
    + cbn [length]. lia.
    + cbn [zip zip_with rev]. rewrite descend_app.
      change (zip_with pair path code) with (zip path code). rewrite Hdesc.
      cbn. replace (parent nd - osz + osz) with (parent nd) by lia.
      rewrite Z.eqb_refl, Hpn. now rewrite Hch.
Qed.

Lemma allPaths_ok tree (fuel : nat) :
  well_linked tree -> osz - 1 <= Z.of_nat fuel ->
  forall cs, Forall (fun c => 0 <= c < osz) cs ->
  exists ps ks,
    allPaths fuel tree osz cs = Some (ps, ks) /\
    forall k c, cs !! k = Some c ->
      exists path code,
        ps !! k = Some path /\ ks !! k = Some code /\
        length path = length code /\
        Z.of_nat (length path) <= osz - 1 /\
        descend tree osz (2 * osz - 2) (rev (zip path code)) = Some c.
Proof.
  intros Hwl Hfuel cs. induction cs as [|c cs IH]; intros Hcs.
  - exists [], []. split; [reflexivity|]. intros k c Hk. discriminate.
  - apply Forall_cons in Hcs as [Hc Hcs].
    destruct (IH Hcs) as (ps & ks & Hall & Hlook).
    destruct (pathToRoot_ok tree fuel Hwl c ltac:(lia) ltac:(lia))
      as (path & code & Hp & Hlen' & Hbound & Hdesc).
    exists (path :: ps), (code :: ks). cbn. rewrite Hp, Hall.
    split; [reflexivity|]. intros [|k] c' Hk.
    + injection Hk as <-. exists path, code. repeat split; try assumption. lia.
    + apply Hlook. exact Hk.
Qed.

Variable counts : list Z.
Hypothesis Hlen : Z.of_nat (length counts) = osz.
Hypothesis Hsmall : Forall (fun c => c < UNBUILT) counts.

Lemma setCounts_ok :
  exists tree,
    setCounts osz counts (replicate (Z.to_nat (2 * osz - 1)) blank) = Some tree /\
    tree_shape osz tree /\ tree_links osz (osz - 1) osz tree.
Proof.
  pose (P := fun (i : Z) (t : list Node) =>
    Z.of_nat (length t) = 2 * osz - 1 /\
    (forall x, 0 <= x < i ->
       exists c, getZ counts x = Some c /\ getZ t x = Some (set_count c blank)) /\
    (forall x, i <= x < 2 * osz - 1 -> getZ t x = Some blank)).
  destruct (forM_inv
    (fun i t => match getZ counts i with
                | Some c => updZ t i (set_count c)
                | None => None
                end) P (Z.to_nat osz) 0
    (replicate (Z.to_nat (2 * osz - 1)) blank)) as (tree & Htree & HP).
  - repeat split.
    + rewrite length_replicate. lia.
    + intros x Hx. lia.
    + intros x Hx. apply getZ_Some. split; [lia|].
      apply lookup_replicate_2. lia.
  - intros i t Hi (Hl & Hlo & Hhi).
    destruct (getZ_in_range counts i ltac:(lia)) as (c & Hc). rewrite Hc.
    pose proof (Hhi i ltac:(lia)) as Hgi.
    unfold updZ. rewrite Hgi. eexists. split; [reflexivity|].
    repeat split.
    + rewrite length_insert. exact Hl.
    + intros x Hx. rewrite getZ_insert by lia.
      destruct (Z.eqb_spec x i) as [->|Hne]; [eauto|]. apply Hlo. lia.
    + intros x Hx. rewrite getZ_insert by lia.
      destruct (Z.eqb_spec x i) as [->|Hne]; [lia|]. apply Hhi. lia.
  - rewrite Z2Nat.id in Htree, HP by lia. cbn in HP.
    destruct HP as (Hl & Hlo & Hhi).
    exists tree. split; [exact Htree|]. repeat split.
    + exact Hl.
    + intros x Hx. destruct (Hlo x Hx) as (c & Hc & Hg).
      eexists. split; [exact Hg|]. cbn. repeat split.
      apply getZ_Some in Hc as [_ Hc].
      apply (proj1 (Forall_lookup _ _) Hsmall _ _ Hc).
    + exact Hhi.
    + intros x Hx. unfold consumed in Hx. lia.
    + intros x Hx _. destruct (Z.lt_ge_cases x osz) as [Hlt|Hge].
      * destruct (Hlo x ltac:(lia)) as (c & _ & Hg).
        eexists. split; [exact Hg|]. cbn. tauto.
      * eexists. split; [apply Hhi; lia|]. cbn. tauto.
Qed.

Lemma merge_loop_ok :
  exists tree leaf node,
    (tree0 ← setCounts osz counts (replicate (Z.to_nat (2 * osz - 1)) blank);
     forM merge (seqZ osz (osz - 1)) (tree0, osz - 1, osz))
    = Some (tree, leaf, node) /\ well_linked tree.
Proof.
  destruct setCounts_ok as (tree0 & -> & Hshape0 & Hlinks0). cbn.
  pose (P := fun (i : Z) (st : list Node * Z * Z) =>
    let '(t, leaf, node) := st in
    tree_shape i t /\ tree_links i leaf node t /\
    cursors i (2 * (i - osz)) leaf node /\ node <= Z.max osz (i - 1)).
  destruct (forM_inv merge P (Z.to_nat (osz - 1)) osz (tree0, osz - 1, osz))
    as ([[tree leaf] node] & Hrun & HP).
  - cbn. repeat split; try assumption; try lia; apply Hshape0 || apply Hlinks0.
  - intros i [[t leaf] node] Hi (Hs & Hl & Hc & _).
    destruct (merge_ok i leaf node t ltac:(lia) Hs Hl Hc)
      as (t' & leaf' & node' & Hm & Hs' & Hl' & Hc' & Hn').
    exists (t', leaf', node'). split; [exact Hm|].
    cbn. repeat split; try assumption; try apply Hs'; try apply Hl';
      try apply Hc'. lia.
  - rewrite Z2Nat.id in Hrun, HP by lia.
    replace (osz + (osz - 1)) with (2 * osz - 1) in HP by lia.
    exists tree, leaf, node. split; [exact Hrun|].
    destruct HP as ((Hlen' & Hleaf & _) & (Hlinked & Hfree) & (Hc1 & Hc2 & Hc3) & Hn).
    assert (Hcons : forall x, 0 <= x < 2 * osz - 1 ->
              (consumed leaf node x <-> x < 2 * osz - 2)).
    { intros x Hx. unfold consumed. lia. }
    repeat split.
    + exact Hlen'.
    + intros x Hx. destruct (Hleaf x Hx) as (nd & ? & _ & ? & ?). eauto.
    + intros x Hx. apply Hlinked. apply Hcons; lia.
    + destruct (Hfree (2 * osz - 2)) as (nd & ? & ? & _); [lia| |eauto].
      rewrite Hcons; lia.
Qed.
End Invariant.

(** For counts below the unbuilt count, [buildTree] has a result once the
    fuel covers the [osz - 1] levels a walk to the root can take; the
    result is well linked, and every class has a path and a code of the
    same length, at most [osz - 1], that lead from the root back to it. *)
Lemma buildTree_ok (fuel : nat) (osz : Z) (counts : list Z) :
  1 <= osz -> Z.of_nat (length counts) = osz ->
  Forall (fun c => c < UNBUILT) counts ->
  osz - 1 <= Z.of_nat fuel ->
  exists tree paths codes,
    buildTree fuel osz counts = Some (tree, paths, codes) /\
    well_linked osz tree /\
    forall c, 0 <= c < osz ->
      exists path code,
        getZ paths c = Some path /\ getZ codes c = Some code /\
        length path = length code /\
        Z.of_nat (length path) <= osz - 1 /\
        descend tree osz (2 * osz - 2) (rev (zip path code)) = Some c.
Proof.
  intros Hosz Hlen Hsmall Hfuel.
  destruct (merge_loop_ok osz Hosz counts Hlen Hsmall)
    as (tree & leaf & node & Hrun & Hwl).
  destruct (allPaths_ok osz Hosz tree fuel Hwl Hfuel (seqZ 0 osz))
    as (ps & ks & Hall & Hlook).
  { apply Forall_seqZ. intros; lia. }
  exists tree, ps, ks. split.
  - unfold buildTree. destruct (Z.ltb_spec (2 * osz - 1) 0); [lia|].
    destruct (setCounts osz counts _) as [tree0|]; [|discriminate].
    cbn in Hrun |- *. rewrite Hrun. cbn. rewrite Hall. reflexivity.
  - split; [exact Hwl|]. intros c Hc.
    destruct (Hlook (Z.to_nat c) c) as (path & code & ? & ? & ?).
    { rewrite lookup_seqZ. lia. }
    exists path, code. repeat split; try tauto; apply getZ_Some; split; tauto || lia.
Qed.

(** More fuel never changes the result of a walk that ended. *)
Lemma pathToRoot_fuel_mono tree osz (f1 f2 : nat) : forall j r,
  (f1 <= f2)%nat ->
  pathToRoot f1 tree osz j = Some r -> pathToRoot f2 tree osz j = Some r.
Proof.
  revert f2. induction f1 as [|f1 IH]; intros f2 j r Hle; cbn.
  - destruct f2; cbn; [tauto|].
    destruct (getZ tree j) as [nd|]; [|discriminate].
    destruct (parent nd =? -1); [tauto | discriminate].
  - destruct f2 as [|f2]; [lia|]. cbn.
    destruct (getZ tree j) as [nd|]; [|discriminate].
    destruct (parent nd =? -1); [tauto|].
    destruct (pathToRoot f1 tree osz (parent nd)) as [r'|] eqn:Hr; [|discriminate].
    rewrite (IH f2 _ r' ltac:(lia) Hr). tauto.
Qed.

Example buildTree_10_5_1 :
  buildTree 2 3 [10; 5; 1] =
  Some ([mkNode 4 (-1) (-1) 10 true; mkNode 3 (-1) (-1) 5 true;
         mkNode 3 (-1) (-1) 1 false; mkNode 4 2 1 6 false;
         mkNode (-1) 3 0 16 false],
        [[1]; [0; 1]; [0; 1]],
        [[true]; [true; false]; [false; false]]).
Proof. reflexivity. Qed.

(** C3 (as stated) fails: with the positive counts 32, 16, 8, 4, 2, 1 the
    path of class 5 has 5 entries, above [ceil (log2 6) + 1 = 4]. *)
Lemma paths_log_bound_counterexample :
  Forall (fun c => 0 < c) [32; 16; 8; 4; 2; 1] /\
  exists tree paths codes path,
    buildTree 5 6 [32; 16; 8; 4; 2; 1] = Some (tree, paths, codes) /\
    getZ paths 5 = Some path /\
    ~ Z.of_nat (length path) <= Z.log2_up 6 + 1.
Proof.
  split; [repeat constructor|].
  eexists _, _, _, _. split; [vm_compute; reflexivity|].
  split; [reflexivity|]. vm_compute. intros H. apply H. reflexivity.
Qed.

(** C3 (amended): for positive counts below the unbuilt count [1e15],
    [buildTree] has a result and every class has a path of at most
    [osz - 1] entries. *)
Theorem paths_length_bound (fuel : nat) (osz : Z) (counts : list Z) :
  1 <= osz -> Z.of_nat (length counts) = osz ->
  Forall (fun c => 0 < c < UNBUILT) counts ->
  osz - 1 <= Z.of_nat fuel ->
  exists tree paths codes,
    buildTree fuel osz counts = Some (tree, paths, codes) /\
    forall c, 0 <= c < osz ->
      exists path, getZ paths c = Some path /\
                   Z.of_nat (length path) <= osz - 1.
Proof.
  intros Hosz Hlen Hpos Hfuel.
  destruct (buildTree_ok fuel osz counts Hosz Hlen) as
    (tree & paths & codes & Hb & _ & Hall); [|exact Hfuel|].
  { eapply Forall_impl; [exact Hpos|]. cbn. intros; lia. }
  exists tree, paths, codes. split; [exact Hb|]. intros c Hc.
  destruct (Hall c Hc) as (path & code & Hp & _ & _ & Hbound & _). eauto.
Qed.

Lemma paths_length_bound_witness :
  exists tree paths codes,
    buildTree 2 3 [10; 5; 1] = Some (tree, paths, codes) /\
    forall c, 0 <= c < 3 ->
      exists path, getZ paths c = Some path /\
                   Z.of_nat (length path) <= 3 - 1.
Proof.
  apply (paths_length_bound 2 3 [10; 5; 1]);
    [lia | reflexivity | repeat constructor | lia].
Defined.

(** C4: after [buildTree], every class [c] has a path and a code of the
    same length, and the descent from the root [2 * osz - 2] that stands
    on the [paths[c]] entries in reverse and takes the right child where
    the [codes[c]] bit is set, the left child where it is not, ends on
    leaf [c]. *)
Theorem paths_codes_lead_to_leaf (fuel : nat) (osz : Z) (counts : list Z) :
  1 <= osz -> Z.of_nat (length counts) = osz ->
  Forall (fun c => c < UNBUILT) counts ->
  osz - 1 <= Z.of_nat fuel ->
  exists tree paths codes,
    buildTree fuel osz counts = Some (tree, paths, codes) /\
    (exists root, getZ tree (2 * osz - 2) = Some root /\ parent root = -1) /\
    forall c, 0 <= c < osz ->
      exists path code leaf,
        getZ paths c = Some path /\ getZ codes c = Some code /\
        length path = length code /\
        descend tree osz (2 * osz - 2) (rev (zip path code)) = Some c /\
        getZ tree c = Some leaf /\ left leaf = -1 /\ right leaf = -1.
Proof.
  intros Hosz Hlen Hsmall Hfuel.
  destruct (buildTree_ok fuel osz counts Hosz Hlen Hsmall Hfuel) as
    (tree & paths & codes & Hb & (_ & Hleaf & _ & Hroot) & Hall).
  exists tree, paths, codes. split; [exact Hb|]. split; [exact Hroot|].
  intros c Hc.
  destruct (Hall c Hc) as (path & code & Hp & Hk & Hl & _ & Hd).
  destruct (Hleaf c Hc) as (leaf & Hg & Hll & Hlr).
  exists path, code, leaf. tauto.
Qed.

Lemma paths_codes_lead_to_leaf_witness :
  exists tree paths codes,
    buildTree 2 3 [10; 5; 1] = Some (tree, paths, codes) /\
    (exists root, getZ tree (2 * 3 - 2) = Some root /\ parent root = -1) /\
    forall c, 0 <= c < 3 ->
      exists path code leaf,
        getZ paths c = Some path /\ getZ codes c = Some code /\
        length path = length code /\
        descend tree 3 (2 * 3 - 2) (rev (zip path code)) = Some c /\
        getZ tree c = Some leaf /\ left leaf = -1 /\ right leaf = -1.
Proof.
  apply (paths_codes_lead_to_leaf 2 3 [10; 5; 1]);
    [lia | reflexivity | repeat constructor | lia].
Defined.

End HuffmanFacts.

(** ** Vectors and matrices *)

Section LinearAlgebraFacts.
Local Open Scope R_scope.

Lemma axpy_length a u v : length (axpy a u v) = length v.
Proof. revert u. induction v as [|x v IH]; intros u; cbn; [|rewrite IH]; reflexivity. Qed.

Lemma axpy_0 u v : axpy 0 u v = v.
Proof.
  revert u. induction v as [|x v IH]; intros u; cbn; [reflexivity|].
  rewrite IH. f_equal. lra.
Qed.

Lemma mat_addRow_0 M vec i : mat_addRow M vec i 0 = M.
Proof.
  unfold mat_addRow, updZ. destruct (getZ M i) as [r|] eqn:Hr; [|reflexivity].
  cbn. rewrite axpy_0. apply getZ_Some in Hr as [_ Hr].
  now apply list_insert_id.
Qed.

Lemma Rdiv_unit a b : 0 <= a <= b -> 0 < b -> 0 <= a / b <= 1.
Proof.
  intros [Ha Hab] Hb. pose proof (Rinv_0_lt_compat b Hb) as Hi.
  unfold Rdiv. split; [nra|].
  replace 1 with (b * / b) by (field; lra). nra.
Qed.

Lemma trunc_IZR z : trunc (IZR z) = z.
Proof.
  unfold trunc. destruct (Rlt_dec (IZR z) 0).
  - apply Zceil_eq. lra.
  - apply ZfloorZ.
Qed.
End LinearAlgebraFacts.

(** ** Properties of the negative-sampling cursor *)

Lemma getNegative_loop_fuel_mono table target (f1 : nat) : forall f2 pos r,
  (f1 <= f2)%nat ->
  getNegative_loop f1 table pos target = Some r ->
  getNegative_loop f2 table pos target = Some r.
Proof.
  induction f1 as [|f1 IH]; intros f2 pos r Hle; cbn; [discriminate|].
  destruct f2 as [|f2]; [lia|]. cbn.
  destruct (table !! pos) as [x|]; [|discriminate].
  destruct (target =? x); [|tauto]. apply IH. lia.
Qed.

(** A table that only holds [target] is never left: no fuel is enough. *)
Lemma getNegative_loop_diverges table target :
  Forall (fun x => x = target) table ->
  forall fuel pos, getNegative_loop fuel table pos target = None.
Proof.
  intros Hall. induction fuel as [|fuel IH]; intros pos; cbn; [reflexivity|].
  destruct (table !! pos) as [x|] eqn:Hx; [|reflexivity].
  rewrite (proj1 (Forall_lookup _ _) Hall _ _ Hx), Z.eqb_refl. apply IH.
Qed.

Lemma getNegative_loop_reach table target x (d : nat) : forall fuel pos,
  (pos < length table)%nat ->
  table !! ((pos + d) mod length table)%nat = Some x -> x <> target ->
  (d < fuel)%nat ->
  exists negative pos',
    getNegative_loop fuel table pos target = Some (negative, pos') /\
    negative <> target /\ In negative table /\ (pos' < length table)%nat.
Proof.
  induction d as [|d IH]; intros fuel pos Hpos Hx Hne Hfuel;
    (destruct fuel as [|fuel]; [lia|]); cbn.
  - rewrite Nat.add_0_r, Nat.mod_small in Hx by exact Hpos. rewrite Hx.
    destruct (Z.eqb_spec target x) as [->|_]; [congruence|].
    exists x, ((pos + 1) mod length table)%nat. repeat split.
    + exact Hne.
    + apply list_elem_of_In. eapply list_elem_of_lookup_2. exact Hx.
    + apply Nat.mod_upper_bound. lia.
  - destruct (lookup_lt_is_Some_2 table pos Hpos) as [y Hy]. rewrite Hy.
    destruct (Z.eqb_spec target y) as [->|Hty].
    + apply IH; try assumption; try lia.
      * apply Nat.mod_upper_bound. lia.
      * rewrite Nat.Div0.add_mod_idemp_l.
        now replace (pos + 1 + d)%nat with (pos + S d)%nat by lia.
    + exists y, ((pos + 1) mod length table)%nat. repeat split.
      * congruence.
      * apply list_elem_of_In. eapply list_elem_of_lookup_2. exact Hy.
      * apply Nat.mod_upper_bound. lia.
Qed.

(** From inside a table that holds a class other than [target], the walk
    ends within [length table] draws. *)
Lemma getNegative_loop_ok table target pos :
  (pos < length table)%nat ->
  (exists x, In x table /\ x <> target) ->
  exists negative pos',
    getNegative_loop (length table) table pos target = Some (negative, pos') /\
    negative <> target /\ In negative table /\ (pos' < length table)%nat.
Proof.
  intros Hpos (x & Hin & Hne).
  apply list_elem_of_In, list_elem_of_lookup_1 in Hin as [k Hk].
  pose proof (lookup_lt_Some _ _ _ Hk) as Hlt.
  set (n := length table) in *.
  apply (getNegative_loop_reach table target x ((k + n - pos) mod n)%nat n pos
           Hpos); [|exact Hne|apply Nat.mod_upper_bound; lia].
  fold n. rewrite Nat.Div0.add_mod_idemp_r.
  replace (pos + (k + n - pos))%nat with (k + 1 * n)%nat by lia.
  rewrite Nat.Div0.mod_add, Nat.mod_small by lia. exact Hk.
Qed.

(** The fuel of [getNegative] is exact: a walk from inside the table that
    has not ended after [length table] draws never ends. *)
Lemma getNegative_loop_exact table target pos :
  (pos < length table)%nat ->
  getNegative_loop (length table) table pos target = None ->
  forall fuel, getNegative_loop fuel table pos target = None.
Proof.
  intros Hpos Hnone fuel.
  destruct (List.Forall_Exists_dec (fun x => x = target)
              (fun x => Z.eq_dec x target) table) as [Hall|Hex].
  - now apply getNegative_loop_diverges.
  - apply List.Exists_exists in Hex as (x & Hin & Hne).
    destruct (getNegative_loop_ok table target pos Hpos)
      as (negative & pos' & Hrun & _); [eauto | congruence].
Qed.

(** C6: when the cursor is inside the table and the table holds a class
    other than [target], [getNegative] ends and returns a class of the
    table other than [target]; only the cursor changes, and it stays
    inside the table. *)
Theorem getNegative_returns_other (m : Model) (target : Z) :
  (negpos m < length (negatives m))%nat ->
  (exists x, In x (negatives m) /\ x <> target) ->
  exists negative pos',
    getNegative m target = Some (negative, set_negpos pos' m) /\
    negative <> target /\ In negative (negatives m) /\
    (pos' < length (negatives m))%nat.
Proof.
  intros Hpos Hex.
  destruct (getNegative_loop_ok (negatives m) target (negpos m) Hpos Hex)
    as (negative & pos' & Hrun & H1 & H2 & H3).
  exists negative, pos'. unfold getNegative. rewrite Hrun. cbn.
  repeat split; assumption.
Qed.

Definition negatives_example : Model :=
  set_negpos 1 (set_negatives [0; 2; 0; 1]
    (new_Model [[0%R]] [[0%R]; [0%R]; [0%R]] [] []
       (mkArgs 1 loss_name.ns model_name.sup 5) 0)).

Lemma getNegative_returns_other_witness :
  exists negative pos',
    getNegative negatives_example 2 =
      Some (negative, set_negpos pos' negatives_example) /\
    negative <> 2 /\ In negative (negatives negatives_example) /\
    (pos' < length (negatives negatives_example))%nat.
Proof.
  apply (getNegative_returns_other negatives_example 2).
  - cbn. lia.
  - exists 0. cbn. split; [tauto | lia].
Defined.

Example getNegative_skips_target :
  getNegative negatives_example 2 = Some (0, set_negpos 3 negatives_example).
Proof. reflexivity. Qed.

(** ** Properties of the update drivers *)

Section EngineProperties.
Local Open Scope R_scope.

Context {K : Constants}.

Lemma eraseTarget_filter target input :
  eraseTarget target input =
  List.filter (fun p => negb (fst p =? target)%Z) input.
Proof.
  induction input as [|p input IH]; cbn; [reflexivity|].
  destruct (fst p =? target)%Z; cbn; now rewrite IH.
Qed.

Lemma eraseTarget_all target input :
  Forall (fun p => fst p = target) input -> eraseTarget target input = [].
Proof.
  induction 1 as [|p input Hp _ IH]; cbn; [reflexivity|].
  now rewrite Hp, Z.eqb_refl.
Qed.

(** C9: for a target the assertions accept, [update] on an empty input
    returns the state it was given, whole: parameters, loss accumulator,
    example counter and scratch vectors.  The result is the argument
    itself, so no value computed from the input size (no [1 / 0]) enters
    it. *)
Theorem update_empty_input (m : Model) (target : Z) (lr : R) :
  (0 <= target < osz_ m)%Z -> update m [] target lr = Some m.
Proof.
  intros [H0 H1]. unfold update.
  destruct (Z.leb_spec 0 target); [|lia].
  destruct (Z.ltb_spec target (osz_ m)); [|lia].
  reflexivity.
Qed.

(** C8: when every pair of [input] has [target] as its feature,
    [updateAttn] returns before the forward pass: the caller's vector is
    left empty, the state is the one it was given but for a cleared
    [softmaxattn_], and so [wi_], [wo_], [attn_], [bias_], [loss_] and
    [nexamples_] are unchanged. *)
Theorem updateAttn_all_target (m : Model) (input : list (Z * Z)) (target : Z)
    (lr : R) :
  (0 <= target < osz_ m)%Z ->
  Forall (fun p => fst p = target) input ->
  exists m',
    updateAttn m input target lr = Some (m', []) /\
    (m' = m \/ m' = set_softmaxattn [] m) /\
    wi_ m' = wi_ m /\ wo_ m' = wo_ m /\ attn_ m' = attn_ m /\
    bias_ m' = bias_ m /\ loss_ m' = loss_ m /\
    nexamples_ m' = nexamples_ m.
Proof.
  intros [H0 H1] Hall. unfold updateAttn.
  destruct (Z.leb_spec 0 target); [|lia].
  destruct (Z.ltb_spec target (osz_ m)); [|lia].
  cbn [negb]. destruct input as [|p input].
  - exists m. cbn. tauto.
  - exists (set_softmaxattn [] m).
    rewrite (eraseTarget_all target (p :: input) Hall). cbn. tauto.
Qed.

(** *** What the loss kernels leave alone *)

(** The kernels write [grad_], [wo_], [output_] and the cursor [negpos]
    only. *)
Definition kernel_frame (m m' : Model) : Prop :=
  wi_ m' = wi_ m /\ attn_ m' = attn_ m /\ bias_ m' = bias_ m /\
  args_ m' = args_ m /\ hidden_ m' = hidden_ m /\
  softmaxattn_ m' = softmaxattn_ m /\
  loss_ m' = loss_ m /\ nexamples_ m' = nexamples_ m /\
  osz_ m' = osz_ m /\ hsz_ m' = hsz_ m /\
  negatives m' = negatives m /\ paths m' = paths m /\ codes m' = codes m /\
  length (grad_ m') = length (grad_ m).

Lemma kernel_frame_refl m : kernel_frame m m.
Proof. unfold kernel_frame. tauto. Qed.

Lemma kernel_frame_trans m1 m2 m3 :
  kernel_frame m1 m2 -> kernel_frame m2 m3 -> kernel_frame m1 m3.
Proof. unfold kernel_frame. intuition congruence. Qed.

Lemma binaryLogistic_frame m target label lr l m' :
  binaryLogistic m target label lr
    = Some (l, m') ->
  kernel_frame m m'.
Proof.
  unfold binaryLogistic. intros H.
  apply bind_Some in H as (score & _ & H).
  destruct label; apply bind_Some in H as (l' & _ & [= _ <-]);
    unfold kernel_frame; cbn; unfold addRow; rewrite axpy_length; tauto.
Qed.

Lemma getNegative_frame m target negative m' :
  getNegative m target = Some (negative, m') -> kernel_frame m m'.
Proof.
  unfold getNegative. intros H.
  apply bind_Some in H as ([n pos] & _ & [= _ <-]).
  unfold kernel_frame. cbn. tauto.
Qed.

Lemma negativeSampling_loop_frame k target lr : forall loss m l m',
  negativeSampling_loop k target lr
    loss m = Some (l, m') ->
  kernel_frame m m'.
Proof.
  induction k as [|k IH]; intros loss m l m'; cbn.
  - intros [= _ <-]. apply kernel_frame_refl.
  - intros H. apply bind_Some in H as ([n m1] & Hn & H).
    apply bind_Some in H as ([l1 m2] & Hb & H).
    eapply kernel_frame_trans; [eapply getNegative_frame, Hn|].
    eapply kernel_frame_trans; [eapply binaryLogistic_frame, Hb|].
    eapply IH, H.
Qed.

Lemma zero_grad_frame m : kernel_frame m (set_grad (zero (grad_ m)) m).
Proof. unfold kernel_frame, zero. cbn. rewrite length_map. tauto. Qed.

Lemma negativeSampling_frame m target lr l m' :
  negativeSampling m target lr
    = Some (l, m') ->
  kernel_frame m m'.
Proof.
  unfold negativeSampling. cbn [args_ set_grad].
  destruct (neg (args_ m) <? 0)%Z.
  - intros [= _ <-]. apply zero_grad_frame.
  - intros H. apply bind_Some in H as ([l1 m1] & Hb & H).
    eapply kernel_frame_trans; [apply zero_grad_frame|].
    eapply kernel_frame_trans; [eapply binaryLogistic_frame, Hb|].
    eapply negativeSampling_loop_frame, H.
Qed.

Lemma hierarchicalSoftmax_loop_frame pathToRoot : forall binaryCode lr loss m l m',
  hierarchicalSoftmax_loop pathToRoot binaryCode lr loss m = Some (l, m') ->
  kernel_frame m m'.
Proof.
  induction pathToRoot as [|p pathToRoot IH]; intros binaryCode lr loss m l m'; cbn.
  - intros [= _ <-]. apply kernel_frame_refl.
  - destruct binaryCode as [|b binaryCode]; [discriminate|].
    intros H. apply bind_Some in H as ([l1 m1] & Hb & H).
    eapply kernel_frame_trans; [eapply binaryLogistic_frame, Hb|].
    eapply IH, H.
Qed.

Lemma hierarchicalSoftmax_frame m target lr l m' :
  hierarchicalSoftmax m target lr
    = Some (l, m') ->
  kernel_frame m m'.
Proof.
  unfold hierarchicalSoftmax. cbn [codes paths set_grad]. intros H.
  apply bind_Some in H as (code & _ & H).
  apply bind_Some in H as (path & _ & H).
  eapply kernel_frame_trans; [apply zero_grad_frame|].
  eapply hierarchicalSoftmax_loop_frame, H.
Qed.

Lemma softmax_steps_frame target lr idx : forall m,
  kernel_frame m (fold_left (softmax_step target lr) idx m).
Proof.
  induction idx as [|i idx IH]; intros m; cbn; [apply kernel_frame_refl|].
  eapply kernel_frame_trans; [|apply IH].
  unfold kernel_frame, softmax_step, addRow. cbn. rewrite axpy_length. tauto.
Qed.

Lemma softmax_frame m target lr l m' :
  softmax m target lr = Some (l, m') -> kernel_frame m m'.
Proof.
  unfold softmax. intros H. apply bind_Some in H as (l' & _ & [= _ <-]).
  eapply kernel_frame_trans; [apply zero_grad_frame|].
  eapply kernel_frame_trans; [|apply softmax_steps_frame].
  unfold kernel_frame. cbn. tauto.
Qed.

Lemma lossKernel_frame m target lr l m' :
  lossKernel m target lr = Some (l, m') -> kernel_frame m m'.
Proof.
  unfold lossKernel. destruct (loss (args_ m)).
  - apply hierarchicalSoftmax_frame.
  - apply negativeSampling_frame.
  - apply softmax_frame.
Qed.

(** *** The sigmoid and log tables *)

Lemma t_sigmoid_lookup (i : Z) :
  (0 <= i <= SIGMOID_TABLE_SIZE)%Z ->
  getZ t_sigmoid i =
  Some (1 / (1 + exp (- (IZR (i * 2 * MAX_SIGMOID) / IZR SIGMOID_TABLE_SIZE
                         - IZR MAX_SIGMOID)))).
Proof.
  intros Hi. apply getZ_Some. split; [lia|]. unfold t_sigmoid.
  rewrite list_lookup_fmap, lookup_seqZ_lt by lia. cbn.
  now rewrite Z2Nat.id by lia.
Qed.

Lemma t_log_lookup (i : Z) :
  (0 <= i <= LOG_TABLE_SIZE)%Z ->
  getZ t_log i = Some (ln ((IZR i + 1e-5) / IZR LOG_TABLE_SIZE)).
Proof.
  intros Hi. apply getZ_Some. split; [lia|]. unfold t_log.
  rewrite list_lookup_fmap, lookup_seqZ_lt by lia. cbn.
  now rewrite Z2Nat.id by lia.
Qed.

Lemma trunc_range (y : R) (n : Z) :
  0 <= y <= IZR n -> (0 <= trunc y <= n)%Z.
Proof.
  intros [H0 H1]. unfold trunc. destruct (Rlt_dec y 0) as [Hneg|_]; [lra|].
  pose proof (Zfloor_bound y) as [Hlo Hhi]. split.
  - apply Z.lt_succ_r, lt_IZR. rewrite succ_IZR. lra.
  - apply le_IZR. lra.
Qed.

(** [sigmoid] always has a result, between 0 and 1. *)
Lemma sigmoid_total (x : R) :
  (0 < SIGMOID_TABLE_SIZE)%Z -> (0 < MAX_SIGMOID)%Z ->
  exists s, sigmoid x = Some s /\ 0 <= s <= 1.
Proof.
  intros HS HM. apply IZR_lt in HS, HM. unfold sigmoid.
  destruct (Rlt_dec x (- IZR MAX_SIGMOID)) as [_|Hlo]; [exists 0; split; [reflexivity|lra]|].
  destruct (Rlt_dec (IZR MAX_SIGMOID) x) as [_|Hhi]; [exists 1; split; [reflexivity|lra]|].
  set (y := (x + IZR MAX_SIGMOID) * IZR SIGMOID_TABLE_SIZE / IZR MAX_SIGMOID / 2).
  assert (Hy : 0 <= y <= IZR SIGMOID_TABLE_SIZE).
  { set (t := (x + IZR MAX_SIGMOID) / (2 * IZR MAX_SIGMOID)).
    assert (Ht : 0 <= t <= 1).
    { unfold t. apply Rdiv_unit; lra. }
    replace y with (t * IZR SIGMOID_TABLE_SIZE) by (unfold y, t; field; lra).
    nra. }
  rewrite t_sigmoid_lookup by (apply trunc_range; exact Hy).
  eexists. split; [reflexivity|].
  match goal with |- context [exp ?a] => pose proof (exp_pos a) as He end.
  apply Rdiv_unit; lra.
Qed.

(** [log] has a result on every non-negative argument. *)
Lemma log_total (x : R) :
  (0 < LOG_TABLE_SIZE)%Z -> 0 <= x -> exists l, log x = Some l.
Proof.
  intros HL Hx. apply IZR_lt in HL. unfold log.
  destruct (Rlt_dec 1 x) as [_|Hle]; [eauto|].
  rewrite t_log_lookup; [eauto|]. apply trunc_range. nra.
Qed.

Lemma set_wo_grad_id m : set_wo (wo_ m) (set_grad (grad_ m) m) = m.
Proof. destruct m. reflexivity. Qed.

(** C7: with learning rate 0, [binaryLogistic] has a result for every row
    [t] of [wo_] and every label, leaves the whole state (so [wo_] and
    [grad_]) as it was, and returns [- log s] for label 1 and
    [- log (1 - s)] for label 0, where [s] is [sigmoid] of the dot product
    of [wo_[t]] and [hidden_], and [log], [sigmoid] are the engine's
    table functions. *)
Theorem binaryLogistic_lr_0 (m : Model) (t : Z) (y : bool) :
  (0 < SIGMOID_TABLE_SIZE)%Z -> (0 < MAX_SIGMOID)%Z -> (0 < LOG_TABLE_SIZE)%Z ->
  (0 <= t < Z.of_nat (length (wo_ m)))%Z ->
  exists s l,
    sigmoid (dotRow (wo_ m) (hidden_ m) t) = Some s /\
    log (if y then s else 1 - s) = Some l /\
    binaryLogistic m t y 0 = Some (- l, m).
Proof.
  intros HS HM HL _.
  destruct (sigmoid_total (dotRow (wo_ m) (hidden_ m) t) HS HM) as (s & Hs & Hs01).
  destruct (log_total (if y then s else 1 - s) HL) as (l & Hl).
  { destruct y; lra. }
  exists s, l. split; [exact Hs|]. split; [exact Hl|].
  unfold binaryLogistic. rewrite Hs. cbn [mbind option_bind].
  rewrite Rmult_0_l. cbn [wo_ set_grad grad_ hidden_].
  unfold addRow. rewrite axpy_0, mat_addRow_0, set_wo_grad_id.
  destruct y; rewrite Hl; reflexivity.
Qed.

(** *** The loss accumulator and the example counter *)

Lemma scatter_counters input : forall m,
  let m' := fold_left
              (fun m it => set_wi (mat_addRow (wi_ m) (grad_ m) it 1) m)
              input m in
  loss_ m' = loss_ m /\ nexamples_ m' = nexamples_ m.
Proof.
  induction input as [|it input IH]; intros m; cbn; [tauto|].
  destruct (IH (set_wi (mat_addRow (wi_ m) (grad_ m) it 1) m)) as [H1 H2].
  cbn in H1, H2. tauto.
Qed.

Lemma update_counters m input target lr m' l :
  input <> [] ->
  update m input target lr = Some m' ->
  update_loss m input target lr = Some l ->
  loss_ m' = loss_ m + l /\ nexamples_ m' = (nexamples_ m + 1)%Z.
Proof.
  intros Hne. unfold update, update_loss.
  destruct (negb (0 <=? target)%Z); [discriminate|].
  destruct (negb (target <? osz_ m)%Z); [discriminate|].
  destruct input as [|it input]; [congruence|]. cbn [length Nat.eqb].
  destruct (computeHidden m (it :: input) (hidden_ m)) as [hidden|];
    [|discriminate].
  cbn [mbind option_bind].
  destruct (lossKernel (set_hidden hidden m) target lr) as [[l1 m1]|] eqn:Hk;
    [|discriminate].
  cbn [mbind option_bind]. intros [= <-] [= <-].
  apply lossKernel_frame in Hk as (_ & _ & _ & _ & _ & _ & Hl & Hn & _).
  cbn in Hl, Hn.
  match goal with
  | |- context [fold_left ?f ?i ?m0] =>
      destruct (scatter_counters i m0) as [H1 H2]
  end.
  cbn zeta in H1, H2. rewrite H1, H2.
  destruct (model (args_ m1)); cbn; rewrite ?Hl, ?Hn; split; reflexivity.
Qed.

Lemma updates_counters calls : forall m m' ls,
  Forall (fun c : list Z * Z * R => fst (fst c) <> []) calls ->
  updates m calls = Some (m', ls) ->
  loss_ m' = fold_left Rplus ls (loss_ m) /\
  nexamples_ m' = (nexamples_ m + Z.of_nat (length calls))%Z /\
  length ls = length calls.
Proof.
  induction calls as [|[[input target] lr] calls IH]; intros m m' ls Hne; cbn.
  - intros [= <- <-]. cbn. repeat split. lia.
  - apply Forall_cons in Hne as [Hin Hne]. cbn in Hin. intros H.
    apply bind_Some in H as (l & Hl & H).
    apply bind_Some in H as (m1 & Hm1 & H).
    apply bind_Some in H as ([m2 ls2] & Hrest & [= <- <-]).
    destruct (update_counters m input target lr m1 l Hin Hm1 Hl) as [E1 E2].
    destruct (IH m1 m2 ls2 Hne Hrest) as (F1 & F2 & F3).
    cbn. rewrite F1, F2, F3, E1, E2. repeat split. lia.
Qed.

(** [setTargetCounts] writes neither the loss accumulator nor the example
    counter. *)
Lemma setTargetCounts_counters (fuel : nat) m counts m' :
  setTargetCounts fuel m counts = Some m' ->
  loss_ m' = loss_ m /\ nexamples_ m' = nexamples_ m.
Proof.
  unfold setTargetCounts.
  destruct (negb (Z.of_nat (length counts) =? osz_ m)%Z); [discriminate|].
  intros H. apply bind_Some in H as (m1 & H1 & H).
  assert (E1 : loss_ m1 = loss_ m /\ nexamples_ m1 = nexamples_ m
               /\ osz_ m1 = osz_ m /\ args_ m1 = args_ m).
  { destruct (loss (args_ m)); try (injection H1 as <-; tauto).
    unfold initTableNegatives in H1.
    apply bind_Some in H1 as (table & _ & [= <-]). cbn. tauto. }
  destruct E1 as (El & En & _ & Ea). rewrite <- El, <- En.
  destruct (loss (args_ m1)); try (injection H as <-; tauto).
  apply bind_Some in H as ([[t p] c] & _ & [= <-]). cbn. tauto.
Qed.

(** C1 (amended): starting from a freshly constructed engine, on which
    [setTargetCounts] may have run (the kernels of hierarchical softmax
    and of negative sampling need it), after [n] calls of [update], each
    on a non-empty input, whose kernels returned the losses [ls],
    [getLoss] returns their sum divided by [n + 1]: the constructor starts
    the example counter at 1.  ([update_total] gives the conditions under
    which a call has a result.) *)
Theorem getLoss_after_updates (fuel : nat) (wi wo attn : Matrix)
    (bias : Vector) (args : Args) (seed : Z) (counts : list Z) (m0 : Model)
    (calls : list (list Z * Z * R)) (m' : Model) (ls : list R) :
  m0 = new_Model wi wo attn bias args seed \/
  setTargetCounts fuel (new_Model wi wo attn bias args seed) counts = Some m0 ->
  Forall (fun c : list Z * Z * R => fst (fst c) <> []) calls ->
  updates m0 calls = Some (m', ls) ->
  length ls = length calls /\
  getLoss m' = fold_left Rplus ls 0 / IZR (Z.of_nat (length calls) + 1).
Proof.
  intros Hfresh Hne Hrun.
  assert (H0 : loss_ m0 = 0 /\ nexamples_ m0 = 1%Z).
  { destruct Hfresh as [->|Hset]; [split; reflexivity|].
    apply setTargetCounts_counters in Hset. exact Hset. }
  destruct H0 as [Hl0 Hn0].
  destruct (updates_counters calls _ m' ls Hne Hrun) as (H1 & H2 & H3).
  split; [exact H3|]. unfold getLoss. rewrite H1, H2, Hl0, Hn0.
  do 2 f_equal. lia.
Qed.

(** *** The negatives table *)

(** The pushes of one class: [j] runs up to the least integer that is not
    below [bound]. *)
Lemma push_class_spec bound i (fuel : nat) : forall j table,
  (Zceil bound - j <= Z.of_nat fuel)%Z ->
  push_class fuel bound i j table
  = Some (table ++ repeat i (Z.to_nat (Zceil bound - j))).
Proof.
  pose proof (Zceil_bound bound) as [Hlo Hhi].
  induction fuel as [|fuel IH]; intros j table Hfuel; cbn [push_class];
    destruct (Rlt_dec (IZR j) bound) as [Hlt|Hge].
  - assert (j < Zceil bound)%Z by (apply lt_IZR; lra). lia.
  - assert (Zceil bound <= j)%Z.
    { apply Z.lt_succ_r, lt_IZR. rewrite succ_IZR. lra. }
    replace (Z.to_nat (Zceil bound - j)) with 0%nat by lia.
    cbn. now rewrite app_nil_r.
  - assert (j < Zceil bound)%Z by (apply lt_IZR; lra).
    rewrite IH by lia.
    replace (Z.to_nat (Zceil bound - j))
      with (S (Z.to_nat (Zceil bound - (j + 1)))) by lia.
    cbn [repeat]. now rewrite <- app_assoc.
  - assert (Zceil bound <= j)%Z.
    { apply Z.lt_succ_r, lt_IZR. rewrite succ_IZR. lra. }
    replace (Z.to_nat (Zceil bound - j)) with 0%nat by lia.
    cbn. now rewrite app_nil_r.
Qed.

Lemma count_occ_repeat (i x : Z) (n : nat) :
  count_occ Z.eq_dec (repeat i n) x = if Z.eq_dec i x then n else 0%nat.
Proof.
  induction n as [|n IH]; cbn.
  - now destruct (Z.eq_dec i x).
  - destruct (Z.eq_dec i x); lia.
Qed.

(** The number of pushes of the class with count [c], for the sum [z]. *)
Definition pushes (z : R) (c : Z) : nat :=
  Z.to_nat (Zceil (sqrt (IZR c) * IZR NEGATIVE_TABLE_SIZE / z)).

Lemma push_classes_spec z (fuel : nat) (counts : list Z) : forall i table,
  Forall (fun c => (pushes z c <= fuel)%nat) counts ->
  exists table',
    push_classes fuel z i counts table = Some table' /\
    forall x,
      count_occ Z.eq_dec table' x
      = (count_occ Z.eq_dec table x
         + match getZ counts (x - i) with
           | Some c => pushes z c
           | None => 0
           end)%nat.
Proof.
  induction counts as [|c counts IH]; intros i table Hfuel.
  - exists table. split; [reflexivity|]. intros x.
    unfold getZ. destruct (x - i <? 0)%Z; rewrite ?lookup_nil; lia.
  - apply Forall_cons in Hfuel as [Hc Hfuel]. unfold pushes in Hc.
    cbn [push_classes]. rewrite push_class_spec by lia.
    cbn [mbind option_bind].
    destruct (IH (i + 1)%Z
                (table ++ repeat i
                   (Z.to_nat (Zceil (sqrt (IZR c) * IZR NEGATIVE_TABLE_SIZE / z) - 0)))
                Hfuel)
      as (table' & Hrun & Hcount).
    exists table'. split; [exact Hrun|]. intros x.
    rewrite Hcount, count_occ_app, count_occ_repeat, Z.sub_0_r.
    fold (pushes z c). unfold getZ.
    destruct (Z.eq_dec i x) as [->|Hne].
    + replace (x - x)%Z with 0%Z by lia.
      destruct (Z.ltb_spec (x - (x + 1)) 0); [|lia].
      change (Z.to_nat 0) with 0%nat. cbn. lia.
    + destruct (Z.ltb_spec (x - (i + 1)) 0), (Z.ltb_spec (x - i) 0);
        try lia.
      replace (Z.to_nat (x - i)) with (S (Z.to_nat (x - (i + 1)))) by lia.
      cbn. destruct (counts !! Z.to_nat (x - (i + 1))); lia.
Qed.


(** *** The attention weights *)

(** The logit of a pair in the context view, and in the feature view. *)
Definition logit (m : Model) (p : Z * Z) : R :=
  mat_at (attn_ m) (fst p) (snd p) + vget (bias_ m) (snd p).

Definition logit2 (m : Model) (target : Z) (p : Z * Z) : R :=
  mat_at (attn_ m) target (snd p) + vget (bias_ m) (snd p).

(** The running maximum of lines 151-153, which starts at [0.0]. *)
Definition attention_max_of (attention : list R) : R :=
  fold_left (fun mx a => if Rlt_dec mx a then a else mx) attention 0.

(** Lines 157-160: the weight before normalisation. *)
Definition clamped_exp (mx a : R) : R :=
  if Rlt_dec (a - mx) (-50) then 0 else exp (a - mx).

(** What lines 148-163 store in [softmaxattn] for the logits
    [attention]. *)
Definition weights_of (attention : list R) : list R :=
  let ws := map (clamped_exp (attention_max_of attention)) attention in
  map (fun w => w / fold_left Rplus ws 0) ws.

Lemma logits_loop (f : Z * Z -> R) input : forall mx attention,
  fold_left
    (fun '(attention_max, attention) p =>
       let attention_i := f p in
       ((if Rlt_dec attention_max attention_i then attention_i
         else attention_max),
        attention ++ [attention_i]))
    input (mx, attention)
  = (fold_left (fun mx a => if Rlt_dec mx a then a else mx) (map f input) mx,
     attention ++ map f input).
Proof.
  induction input as [|p input IH]; intros mx attention; cbn.
  - now rewrite app_nil_r.
  - rewrite IH, <- app_assoc. reflexivity.
Qed.

Lemma weights_loop mx attention : forall softmaxattn sum,
  fold_left
    (fun '(softmaxattn, sum) a =>
       let w := if Rlt_dec (a - mx) (-50) then 0 else exp (a - mx) in
       (softmaxattn ++ [w], sum + w))
    attention (softmaxattn, sum)
  = (softmaxattn ++ map (clamped_exp mx) attention,
     fold_left Rplus (map (clamped_exp mx) attention) sum).
Proof.
  induction attention as [|a attention IH]; intros softmaxattn sum; cbn.
  - now rewrite app_nil_r.
  - rewrite IH, <- app_assoc. reflexivity.
Qed.

Lemma computeAttnHidden_weights m input hidden h softmaxattn :
  computeAttnHidden m input hidden = Some (h, softmaxattn) ->
  softmaxattn = weights_of (map (logit m) input).
Proof.
  unfold computeAttnHidden.
  destruct (negb (Z.of_nat (length hidden) =? hsz_ m)%Z); [discriminate|].
  rewrite (logits_loop (logit m)), weights_loop. cbn [app].
  intros [= _ <-]. reflexivity.
Qed.

Lemma computeAttnHidden2_weights m input target hidden h softmaxattn :
  computeAttnHidden2 m input target hidden = Some (h, softmaxattn) ->
  softmaxattn = weights_of (map (logit2 m target) input).
Proof.
  unfold computeAttnHidden2.
  destruct (negb (Z.of_nat (length hidden) =? hsz_ m)%Z); [discriminate|].
  rewrite (logits_loop (logit2 m target)), weights_loop. cbn [app].
  intros [= _ <-]. reflexivity.
Qed.

Lemma weights_of_length attention :
  length (weights_of attention) = length attention.
Proof. unfold weights_of. now rewrite !length_map. Qed.

Lemma attention_max_spec attention : forall mx,
  let M := fold_left (fun mx a => if Rlt_dec mx a then a else mx) attention mx in
  mx <= M /\ Forall (fun a => a <= M) attention /\ (M = mx \/ In M attention).
Proof.
  induction attention as [|a attention IH]; intros mx; cbn.
  - split; [lra|]. split; [constructor | now left].
  - destruct (IH (if Rlt_dec mx a then a else mx)) as (H1 & H2 & H3).
    destruct (Rlt_dec mx a) as [Hlt|Hge].
    + split; [lra|]. split; [constructor; [lra | exact H2]|].
      destruct H3 as [->|H3]; [right; now left | right; now right].
    + split; [lra|]. split; [constructor; [lra | exact H2]|].
      destruct H3 as [->|H3]; [now left | right; now right].
Qed.

Lemma clamped_exp_nonneg mx a : 0 <= clamped_exp mx a.
Proof.
  unfold clamped_exp. destruct (Rlt_dec (a - mx) (-50)); [lra|].
  left. apply exp_pos.
Qed.

Lemma sum_fold ws : fold_left Rplus ws 0 = fold_right Rplus 0 ws.
Proof.
  apply fold_symmetric; intros; ring.
Qed.

Lemma sum_nonneg ws :
  Forall (fun w => 0 <= w) ws ->
  0 <= fold_right Rplus 0 ws /\ Forall (fun w => w <= fold_right Rplus 0 ws) ws.
Proof.
  induction 1 as [|w ws Hw _ [IH1 IH2]]; cbn.
  - split; [lra | constructor].
  - split; [lra|]. constructor; [lra|].
    eapply Forall_impl; [exact IH2|]. cbn. intros; lra.
Qed.

Lemma sum_scaled s ws :
  fold_right Rplus 0 (map (fun w => w / s) ws) = fold_right Rplus 0 ws / s.
Proof.
  induction ws as [|w ws IH]; cbn; [unfold Rdiv; ring|].
  rewrite IH. unfold Rdiv. ring.
Qed.

(** When some logit is at least [-50], the stored weights are each in
    [[0, 1]] and sum to 1 (in the reals: exactly). *)
Lemma weights_normalised attention :
  Exists (fun a => -50 <= a) attention ->
  Forall (fun w => 0 <= w <= 1) (weights_of attention) /\
  fold_right Rplus 0 (weights_of attention) = 1.
Proof.
  intros Hex. unfold weights_of, attention_max_of.
  destruct (attention_max_spec attention 0) as (H0 & Hle & Hmax).
  set (M := fold_left _ attention 0) in *.
  set (ws := map (clamped_exp M) attention).
  assert (Hnn : Forall (fun w => 0 <= w) ws).
  { unfold ws. apply List.Forall_map, List.Forall_forall. intros a _.
    apply clamped_exp_nonneg. }
  destruct (sum_nonneg ws Hnn) as [Hs0 Hsle].
  assert (Hpos : 0 < fold_right Rplus 0 ws).
  { assert (Hw : exists a, In a attention /\ 0 < clamped_exp M a).
    { destruct Hmax as [HM|HM].
      - apply List.Exists_exists in Hex as (a & Ha & Ha50). exists a.
        split; [exact Ha|]. unfold clamped_exp.
        destruct (Rlt_dec (a - M) (-50)); [lra | apply exp_pos].
      - exists M. split; [exact HM|]. unfold clamped_exp.
        destruct (Rlt_dec (M - M) (-50)); [lra | apply exp_pos]. }
    destruct Hw as (a & Ha & Hwa).
    assert (In (clamped_exp M a) ws) by (unfold ws; now apply in_map).
    pose proof (proj1 (List.Forall_forall _ _) Hsle _ H). lra. }
  rewrite sum_fold. split.
  - apply List.Forall_map, List.Forall_forall. intros w Hw.
    pose proof (proj1 (List.Forall_forall _ _) Hnn _ Hw).
    pose proof (proj1 (List.Forall_forall _ _) Hsle _ Hw).
    apply Rdiv_unit; lra.
  - rewrite sum_scaled. field. lra.
Qed.

(** When every logit is below [-50], every weight is clamped and the
    stored weights sum to 0 (each is [0 / 0]). *)
Lemma weights_all_clamped attention :
  Forall (fun a => a < -50) attention ->
  Forall (fun w => w = 0 / 0) (weights_of attention).
Proof.
  intros Hall. unfold weights_of, attention_max_of.
  destruct (attention_max_spec attention 0) as (H0 & Hle & Hmax).
  set (M := fold_left _ attention 0) in *.
  assert (HM : M = 0).
  { destruct Hmax as [HM|HM]; [exact HM|].
    pose proof (proj1 (List.Forall_forall _ _) Hall _ HM). lra. }
  assert (Hws : map (clamped_exp M) attention = map (fun _ => 0) attention).
  { apply map_ext_in. intros a Ha.
    pose proof (proj1 (List.Forall_forall _ _) Hall _ Ha).
    unfold clamped_exp. destruct (Rlt_dec (a - M) (-50)); [reflexivity | lra]. }
  rewrite Hws.
  assert (Hsum : fold_left Rplus (map (fun _ : R => 0) attention) 0 = 0).
  { rewrite sum_fold. clear. induction attention; cbn; lra. }
  rewrite Hsum. apply Forall_map, List.Forall_map, List.Forall_forall. reflexivity.
Qed.

(** *** When the kernels and the drivers have a result *)

Lemma vget_vset v i x j :
  vget (vset v i x) j
  = if (i =? j)%Z && (0 <=? i)%Z && (i <? Z.of_nat (length v))%Z then x
    else vget v j.
Proof.
  unfold vget, vset, updZ.
  destruct (getZ v i) as [y|] eqn:Hi; unfold default, from_option, Datatypes.id.
  - pose proof (getZ_lt _ _ _ Hi) as Hr.
    rewrite getZ_insert by lia. rewrite (Z.eqb_sym i j).
    destruct (Z.eqb_spec j i) as [->|_]; cbn.
    + destruct (Z.leb_spec 0 i), (Z.ltb_spec i (Z.of_nat (length v)));
        try lia; reflexivity.
    + reflexivity.
  - destruct (Z.eqb_spec i j) as [->|_]; cbn; [|reflexivity].
    destruct (Z.leb_spec 0 j), (Z.ltb_spec j (Z.of_nat (length v)));
      cbn; try reflexivity.
    destruct (getZ_in_range v j ltac:(lia)) as [y Hy]. congruence.
Qed.

Lemma vset_length v i x : length (vset v i x) = length v.
Proof.
  unfold vset. destruct (updZ v i _) as [v'|] eqn:Hu; cbn; [|reflexivity].
  eapply updZ_length, Hu.
Qed.

Lemma fold_left_inv {St : Type} (f : St -> Z -> St) (P : Z -> St -> Prop)
    (n : nat) : forall lo s,
  P lo s ->
  (forall i s, (lo <= i < lo + Z.of_nat n)%Z -> P i s -> P (i + 1)%Z (f s i)) ->
  P (lo + Z.of_nat n)%Z (fold_left f (seqZ lo (Z.of_nat n)) s).
Proof.
  induction n as [|n IH]; intros lo s HP Hstep.
  - cbn. now replace (lo + Z.of_nat 0)%Z with lo by lia.
  - rewrite seqZ_cons by lia. cbn [fold_left].
    replace (Z.pred (Z.of_nat (S n))) with (Z.of_nat n) by lia.
    replace (lo + Z.of_nat (S n))%Z with (Z.succ lo + Z.of_nat n)%Z by lia.
    apply IH.
    + replace (Z.succ lo) with (lo + 1)%Z by lia. apply Hstep; [lia | exact HP].
    + intros i s' Hi. apply Hstep. lia.
Qed.

Lemma fold_left_seqZ_inv {St : Type} (f : St -> Z -> St)
    (P : Z -> St -> Prop) (lo cnt : Z) (s : St) :
  (0 <= cnt)%Z -> P lo s ->
  (forall i s, (lo <= i < lo + cnt)%Z -> P i s -> P (i + 1)%Z (f s i)) ->
  P (lo + cnt)%Z (fold_left f (seqZ lo cnt) s).
Proof.
  intros Hcnt HP Hstep. rewrite <- (Z2Nat.id cnt) by lia.
  apply fold_left_inv; [exact HP|].
  intros i s' Hi. apply Hstep. lia.
Qed.

(** Every entry of the normalised output that the loops reach is
    non-negative. *)
Lemma computeOutputSoftmax_nonneg wo osz hidden output i :
  (0 <= i < osz)%Z -> 0 <= vget (computeOutputSoftmax wo osz hidden output) i.
Proof.
  intros Hi. unfold computeOutputSoftmax.
  set (out0 := mulMat output wo hidden).
  set (mx := fold_left _ (seqZ 0 osz) (vget out0 0)).
  pose (P := fun (k : Z) (st : Vector * R) =>
    0 <= snd st /\ forall j, (0 <= j < k)%Z -> 0 <= vget (fst st) j).
  assert (H2 : P osz
    (fold_left (fun '(output, z) i =>
                  let output := vset output i (exp (vget output i - mx)) in
                  (output, z + vget output i))
       (seqZ 0 osz) (out0, 0))).
  { apply (fold_left_seqZ_inv _ P 0 osz); [lia| |].
    - split; [cbn; lra | intros j Hj; lia].
    - intros k [out z] Hk [Hz Hout]. cbn [fst snd] in *.
      assert (Hnew : forall j, (0 <= j < k + 1)%Z ->
                0 <= vget (vset out k (exp (vget out k - mx))) j).
      { intros j Hj. rewrite vget_vset.
        destruct ((k =? j)%Z && (0 <=? k)%Z && (k <? Z.of_nat (length out))%Z)
          eqn:Hc.
        - left. apply exp_pos.
        - destruct (Z.eq_dec j k) as [->|Hne]; [|apply Hout; lia].
          unfold vget. destruct (getZ out k) as [y|] eqn:Hy; [|cbn; lra].
          pose proof (getZ_lt _ _ _ Hy).
          rewrite Z.eqb_refl in Hc. cbn in Hc.
          destruct (Z.leb_spec 0 k), (Z.ltb_spec k (Z.of_nat (length out)));
            cbn in Hc; try discriminate; lia. }
      split; [|exact Hnew].
      pose proof (Hnew k ltac:(lia)). cbv zeta. cbn [fst snd]. lra. }
  destruct (fold_left _ (seqZ 0 osz) (out0, 0)) as [out z].
  destruct H2 as [Hz Hout]. cbn [fst snd] in *.
  pose (Q := fun (k : Z) (o : Vector) =>
    forall j, (0 <= j < osz)%Z -> 0 <= vget o j).
  assert (H3 : Q osz
    (fold_left (fun output i => vset output i (vget output i / z))
       (seqZ 0 osz) out)).
  { apply (fold_left_seqZ_inv _ Q 0 osz); [lia| |].
    - exact Hout.
    - intros k o Hk Ho j Hj. rewrite vget_vset.
      destruct ((k =? j)%Z && (0 <=? k)%Z && (k <? Z.of_nat (length o))%Z);
        [|apply Ho; exact Hj].
      pose proof (Ho k ltac:(lia)) as Hok.
      destruct (Req_dec z 0) as [->|Hnz].
      + unfold Rdiv. rewrite Rinv_0. lra.
      + apply Rle_mult_inv_pos; lra. }
  apply H3. exact Hi.
Qed.

(** The state the kernel of the configured loss needs: a path and a code
    for [target] under hierarchical softmax, a table to draw from under
    negative sampling with at least one negative. *)
Definition kernel_ready (m : Model) (target : Z) : Prop :=
  match loss (args_ m) with
  | loss_name.hs =>
      exists code path,
        getZ (codes m) target = Some code /\
        getZ (paths m) target = Some path /\
        (length path <= length code)%nat
  | loss_name.ns =>
      (neg (args_ m) <= 0)%Z \/
      ((negpos m < length (negatives m))%nat /\
       exists x, In x (negatives m) /\ x <> target)
  | loss_name.softmax => (0 <= target < osz_ m)%Z
  end.

Section Totality.
Hypothesis HS : (0 < SIGMOID_TABLE_SIZE)%Z.
Hypothesis HM : (0 < MAX_SIGMOID)%Z.
Hypothesis HL : (0 < LOG_TABLE_SIZE)%Z.

Lemma binaryLogistic_total m t y lr :
  exists l m', binaryLogistic m t y lr = Some (l, m').
Proof.
  destruct (sigmoid_total (dotRow (wo_ m) (hidden_ m) t) HS HM) as (s & Hs & Hs01).
  destruct (log_total (if y then s else 1 - s) HL) as (l & Hl).
  { destruct y; lra. }
  unfold binaryLogistic. rewrite Hs. cbn [mbind option_bind].
  destruct y; rewrite Hl; cbn; eauto.
Qed.

Lemma negativeSampling_loop_total k target lr : forall loss m,
  (k = 0%nat \/
   ((negpos m < length (negatives m))%nat /\
    exists x, In x (negatives m) /\ x <> target)) ->
  exists l m', negativeSampling_loop k target lr loss m = Some (l, m').
Proof.
  induction k as [|k IH]; intros loss m Hready; cbn; [eauto|].
  destruct Hready as [|[Hpos Hex]]; [discriminate|].
  destruct (getNegative_loop_ok (negatives m) target (negpos m) Hpos Hex)
    as (negative & pos' & Hrun & _ & _ & Hpos').
  unfold getNegative. rewrite Hrun. cbn [mbind option_bind].
  destruct (binaryLogistic_total (set_negpos pos' m) negative false lr)
    as (l & m' & Hb).
  rewrite Hb. cbn [mbind option_bind].
  apply binaryLogistic_frame in Hb as Hf.
  destruct Hf as (_ & _ & _ & _ & _ & _ & _ & _ & _ & _ & Hneg & _).
  apply IH. right. rewrite Hneg. cbn [negatives set_negpos].
  split; [|exact Hex].
  unfold binaryLogistic in Hb.
  apply bind_Some in Hb as (s & _ & Hb).
  destruct (log _) in Hb; [|destruct false in Hb; discriminate].
  cbn in Hb. injection Hb as _ <-. cbn. exact Hpos'.
Qed.

Lemma hierarchicalSoftmax_loop_total path : forall code lr loss m,
  (length path <= length code)%nat ->
  exists l m', hierarchicalSoftmax_loop path code lr loss m = Some (l, m').
Proof.
  induction path as [|p path IH]; intros code lr loss m Hlen; cbn; [eauto|].
  destruct code as [|b code]; [cbn in Hlen; lia|].
  destruct (binaryLogistic_total m p b lr) as (l & m' & ->).
  cbn [mbind option_bind]. apply IH. cbn in Hlen. lia.
Qed.

Lemma lossKernel_total m target lr :
  kernel_ready m target -> exists l m', lossKernel m target lr = Some (l, m').
Proof.
  unfold kernel_ready, lossKernel. destruct (loss (args_ m)).
  - intros (code & path & Hc & Hp & Hlen). unfold hierarchicalSoftmax.
    cbn [codes paths set_grad]. rewrite Hc, Hp. cbn [mbind option_bind].
    now apply hierarchicalSoftmax_loop_total.
  - intros Hready. unfold negativeSampling. cbn [args_ set_grad].
    destruct (Z.ltb_spec (neg (args_ m)) 0); [eauto|].
    destruct (binaryLogistic_total (set_grad (zero (grad_ m)) m) target true lr)
      as (l & m' & Hb).
    rewrite Hb. cbn [mbind option_bind].
    apply negativeSampling_loop_total.
    apply binaryLogistic_frame in Hb as Hf.
    destruct Hf as (_ & _ & _ & Hargs & _ & _ & _ & _ & _ & _ & Hneg & _).
    cbn [args_ set_grad] in Hargs. rewrite Hargs.
    destruct Hready as [Hle|[Hpos Hex]]; [left; lia | right].
    rewrite Hneg. cbn [negatives set_grad]. split; [|exact Hex].
    unfold binaryLogistic in Hb.
    apply bind_Some in Hb as (s & _ & Hb).
    destruct (log _) in Hb; [|discriminate].
    cbn in Hb. injection Hb as _ <-. cbn. exact Hpos.
  - intros Ht. unfold softmax.
    match goal with
    | |- context [log ?x] => destruct (log_total x HL) as (l & ->)
    end; [|cbn; eauto].
    cbn [output_ set_output set_grad wo_ osz_ hidden_].
    assert (Hout : forall idx m0,
              output_ (fold_left (softmax_step target lr) idx m0) = output_ m0).
    { induction idx as [|i idx IHi]; intros m0; cbn; [reflexivity|].
      now rewrite IHi. }
    rewrite Hout. cbn [output_ set_output].
    apply computeOutputSoftmax_nonneg. exact Ht.
Qed.

Lemma computeAttnGradient_loop_total n gradient input :
  forall softmaxattn m,
  (length input <= length softmaxattn)%nat ->
  exists m', computeAttnGradient_loop n gradient input softmaxattn m = Some m'.
Proof using Type.
  induction input as [|p input IH]; intros softmaxattn m Hlen; cbn; [eauto|].
  destruct softmaxattn as [|a softmaxattn]; [cbn in Hlen; lia|].
  apply IH. cbn in Hlen. lia.
Qed.

Lemma computeAttnGradient2_loop_total n target gradient input :
  forall softmaxattn m,
  (length input <= length softmaxattn)%nat ->
  exists m',
    computeAttnGradient2_loop n target gradient input softmaxattn m = Some m'.
Proof using Type.
  induction input as [|p input IH]; intros softmaxattn m Hlen; cbn; [eauto|].
  destruct softmaxattn as [|a softmaxattn]; [cbn in Hlen; lia|].
  apply IH. cbn in Hlen. lia.
Qed.

(** [update] has a result whenever its assertions hold, [hidden_] has the
    size the constructor gave it and the kernel is ready. *)
Lemma update_total m input target lr :
  (0 <= target < osz_ m)%Z ->
  Z.of_nat (length (hidden_ m)) = hsz_ m ->
  kernel_ready m target ->
  exists m', update m input target lr = Some m'.
Proof.
  intros [H0 H1] Hh Hready. unfold update.
  destruct (Z.leb_spec 0 target); [|lia].
  destruct (Z.ltb_spec target (osz_ m)); [|lia]. cbn [negb].
  destruct (length input =? 0)%nat; [eauto|].
  unfold computeHidden. rewrite Hh, Z.eqb_refl. cbn [mbind option_bind].
  match goal with
  | |- context [lossKernel ?m1 target lr] =>
      destruct (lossKernel_total m1 target lr Hready) as (l & m2 & ->)
  end.
  cbn [mbind option_bind]. eauto.
Qed.

(** [updateAttn] has a result, with the erased vector, whenever its
    assertions hold, [hidden_] and [grad_] have the size the constructor
    gave them and the kernel is ready. *)
Lemma updateAttn_total m input target lr :
  (0 <= target < osz_ m)%Z ->
  Z.of_nat (length (hidden_ m)) = hsz_ m ->
  Z.of_nat (length (grad_ m)) = hsz_ m ->
  kernel_ready m target ->
  exists m',
    updateAttn m input target lr = Some (m', eraseTarget target input).
Proof.
  intros [H0 H1] Hh Hg Hready. unfold updateAttn.
  destruct (Z.leb_spec 0 target); [|lia].
  destruct (Z.ltb_spec target (osz_ m)); [|lia]. cbn [negb].
  destruct input as [|p input]; [cbn; eauto|]. cbn [length Nat.eqb].
  destruct (eraseTarget target (p :: input)) as [|q erased] eqn:He;
    [cbn; eauto|].
  cbn [length Nat.eqb].
  destruct (computeAttnHidden (set_softmaxattn [] m) (q :: erased)
              (hidden_ (set_softmaxattn [] m)))
    as [[hidden softmaxattn]|] eqn:Hfwd.
  2:{ unfold computeAttnHidden in Hfwd. cbn [hidden_ hsz_ set_softmaxattn] in Hfwd.
      rewrite Hh, Z.eqb_refl in Hfwd. cbn [negb] in Hfwd.
      rewrite (logits_loop (logit (set_softmaxattn [] m))), weights_loop in Hfwd.
      discriminate. }
  cbn [mbind option_bind].
  apply computeAttnHidden_weights in Hfwd as Hsm.
  match goal with
  | |- context [lossKernel ?m1 target lr] =>
      destruct (lossKernel_total m1 target lr Hready) as (l & m2 & Hk)
  end.
  rewrite Hk. cbn [mbind option_bind].
  apply lossKernel_frame in Hk
    as (_ & _ & _ & _ & _ & Hs & _ & _ & _ & Hhsz & _ & _ & _ & Hgl).
  cbn in Hs, Hhsz, Hgl.
  unfold computeAttnGradient. cbn [grad_ hsz_ set_nexamples set_loss softmaxattn_].
  rewrite Hgl, Hhsz, Hg, Z.eqb_refl. cbn [negb].
  match goal with
  | |- context [computeAttnGradient_loop ?n ?g ?i ?sm ?m0] =>
      destruct (computeAttnGradient_loop_total n g i sm m0) as (m3 & Hm3)
  end.
  { cbn [softmaxattn_ set_nexamples set_loss].
    rewrite Hs, Hsm, weights_of_length, length_map. lia. }
  rewrite Hm3. cbn. eauto.
Qed.

Lemma updateAttn2_total m input target lr :
  (0 <= target < osz_ m)%Z ->
  Z.of_nat (length (hidden_ m)) = hsz_ m ->
  Z.of_nat (length (grad_ m)) = hsz_ m ->
  kernel_ready m target ->
  exists m',
    updateAttn2 m input target lr = Some (m', eraseTarget target input).
Proof.
  intros [H0 H1] Hh Hg Hready. unfold updateAttn2.
  destruct (Z.leb_spec 0 target); [|lia].
  destruct (Z.ltb_spec target (osz_ m)); [|lia]. cbn [negb].
  destruct input as [|p input]; [cbn; eauto|]. cbn [length Nat.eqb].
  destruct (eraseTarget target (p :: input)) as [|q erased] eqn:He;
    [cbn; eauto|].
  cbn [length Nat.eqb].
  destruct (computeAttnHidden2 (set_softmaxattn [] m) (q :: erased) target
              (hidden_ (set_softmaxattn [] m)))
    as [[hidden softmaxattn]|] eqn:Hfwd.
  2:{ unfold computeAttnHidden2 in Hfwd.
      cbn [hidden_ hsz_ set_softmaxattn] in Hfwd.
      rewrite Hh, Z.eqb_refl in Hfwd. cbn [negb] in Hfwd.
      rewrite (logits_loop (logit2 (set_softmaxattn [] m) target)),
        weights_loop in Hfwd.
      discriminate. }
  cbn [mbind option_bind].
  apply computeAttnHidden2_weights in Hfwd as Hsm.
  match goal with
  | |- context [lossKernel ?m1 target lr] =>
      destruct (lossKernel_total m1 target lr Hready) as (l & m2 & Hk)
  end.
  rewrite Hk. cbn [mbind option_bind].
  apply lossKernel_frame in Hk
    as (_ & _ & _ & _ & _ & Hs & _ & _ & _ & Hhsz & _ & _ & _ & Hgl).
  cbn in Hs, Hhsz, Hgl.
  unfold computeAttnGradient2.
  cbn [grad_ hsz_ set_nexamples set_loss softmaxattn_].
  rewrite Hgl, Hhsz, Hg, Z.eqb_refl. cbn [negb].
  match goal with
  | |- context [computeAttnGradient2_loop ?n ?t ?g ?i ?sm ?m0] =>
      destruct (computeAttnGradient2_loop_total n t g i sm m0) as (m3 & Hm3)
  end.
  { cbn [softmaxattn_ set_nexamples set_loss].
    rewrite Hs, Hsm, weights_of_length, length_map. lia. }
  rewrite Hm3. cbn. eauto.
Qed.

End Totality.

(** *** The caller's vector *)

Lemma computeAttnGradient_loop_softmaxattn n gradient input :
  forall softmaxattn m m',
  computeAttnGradient_loop n gradient input softmaxattn m = Some m' ->
  softmaxattn_ m' = softmaxattn_ m.
Proof.
  induction input as [|p input IH]; intros softmaxattn m m'; cbn.
  - now intros [= <-].
  - destruct softmaxattn as [|a softmaxattn]; [discriminate|].
    intros H. apply IH in H. exact H.
Qed.

Lemma computeAttnGradient2_loop_softmaxattn n target gradient input :
  forall softmaxattn m m',
  computeAttnGradient2_loop n target gradient input softmaxattn m = Some m' ->
  softmaxattn_ m' = softmaxattn_ m.
Proof.
  induction input as [|p input IH]; intros softmaxattn m m'; cbn.
  - now intros [= <-].
  - destruct softmaxattn as [|a softmaxattn]; [discriminate|].
    intros H. apply IH in H. exact H.
Qed.

(** C10: [updateAttn] and [updateAttn2] write the caller's vector.
    Whenever a call returns, the caller's vector holds the pairs of
    [input] whose feature is not [target], in their order; and a call on a
    non-empty [input] leaves in [softmaxattn_] one weight per remaining
    pair: the forward pass ran on the vector after the erasure.
    ([updateAttn_total] and [updateAttn2_total] give the conditions under
    which a call returns.) *)
Theorem updateAttn_erases_target (m : Model) (input : list (Z * Z))
    (target : Z) (lr : R) :
  (forall m' input',
     updateAttn m input target lr = Some (m', input') ->
     input' = List.filter (fun p => negb (fst p =? target)%Z) input /\
     (input <> [] -> length (softmaxattn_ m') = length input')) /\
  (forall m' input',
     updateAttn2 m input target lr = Some (m', input') ->
     input' = List.filter (fun p => negb (fst p =? target)%Z) input /\
     (input <> [] -> length (softmaxattn_ m') = length input')).
Proof.
  split; intros m' input'; rewrite <- eraseTarget_filter;
    unfold updateAttn, updateAttn2;
    (destruct (negb (0 <=? target)%Z); [discriminate|]);
    (destruct (negb (target <? osz_ m)%Z); [discriminate|]);
    (destruct input as [|p input];
       [cbn; intros [= <- <-]; split; [reflexivity | congruence]|]);
    cbn [length Nat.eqb];
    (destruct (eraseTarget target (p :: input)) as [|q erased] eqn:He;
       [cbn; intros [= <- <-]; split; reflexivity|]);
    cbn [length Nat.eqb]; intros H;
    apply bind_Some in H as ([hidden softmaxattn] & Hfwd & H);
    apply bind_Some in H as ([l m2] & Hk & H);
    apply bind_Some in H as (m3 & Hg & [= <- <-]);
    (split; [reflexivity | intros _]);
    apply lossKernel_frame in Hk as (_ & _ & _ & _ & _ & Hsm & _);
    cbn in Hsm.
  - apply computeAttnHidden_weights in Hfwd as ->.
    unfold computeAttnGradient in Hg.
    destruct (negb _) in Hg; [discriminate|].
    apply computeAttnGradient_loop_softmaxattn in Hg. cbn in Hg.
    rewrite Hg, Hsm, weights_of_length, length_map. reflexivity.
  - apply computeAttnHidden2_weights in Hfwd as ->.
    unfold computeAttnGradient2 in Hg.
    destruct (negb _) in Hg; [discriminate|].
    apply computeAttnGradient2_loop_softmaxattn in Hg. cbn in Hg.
    rewrite Hg, Hsm, weights_of_length, length_map. reflexivity.
Qed.

End EngineProperties.

(** ** More on the sigmoid and log tables *)

Section Tables.
Local Open Scope R_scope.
Context {K : Constants}.

Lemma trunc_floor (y : R) : 0 <= y -> IZR (trunc y) <= y < IZR (trunc y) + 1.
Proof.
  intros Hy. unfold trunc. destruct (Rlt_dec y 0); [lra|]. apply Zfloor_bound.
Qed.



Lemma scaled_le (x n : R) : 0 < n -> (x <= - 1 / n <-> x * n <= - 1).
Proof.
  intros Hn. pose proof (Rinv_0_lt_compat n Hn) as Hi.
  assert (He : n * / n = 1) by (field; lra).
  unfold Rdiv. split; intros H; nra.
Qed.

(** [log] reads outside its table exactly on the arguments at or below
    [- 1 / LOG_TABLE_SIZE]. *)
Lemma log_defined (x : R) :
  (0 < LOG_TABLE_SIZE)%Z -> (log x = None <-> x <= - 1 / IZR LOG_TABLE_SIZE).
Proof.
  intros HL. pose proof (IZR_lt _ _ HL) as HN.
  rewrite scaled_le by exact HN. unfold log.
  destruct (Rlt_dec 1 x) as [H1|H1].
  { split; [discriminate | intros; nra]. }
  set (y := x * IZR LOG_TABLE_SIZE).
  destruct (Rlt_dec y 0) as [Hneg|Hpos].
  - unfold trunc. destruct (Rlt_dec y 0); [|lra].
    pose proof (Zceil_bound y) as [Hc1 Hc2].
    destruct (Rle_dec y (- 1)) as [Hle|Hgt].
    + assert (Zceil y < 0)%Z by (apply lt_IZR; lra).
      unfold getZ. destruct (Z.ltb_spec (Zceil y) 0); [tauto | lia].
    + rewrite (Zceil_eq 0 y) by lra.
      rewrite t_log_lookup by lia. split; [discriminate | lra].
  - assert (Hx1 : x <= 1) by lra. assert (Hy0 : 0 <= y) by lra.
    rewrite t_log_lookup by (apply trunc_range; unfold y in *; split; nra).
    split; [discriminate | lra].
Qed.

(** On [[0, 1]] the table gives the logarithm of the grid point
    [(i + 1e-5) / LOG_TABLE_SIZE] with [i = floor (x * LOG_TABLE_SIZE)]. *)
Lemma log_grid (x : R) :
  (0 < LOG_TABLE_SIZE)%Z -> 0 <= x <= 1 ->
  exists i,
    (0 <= i <= LOG_TABLE_SIZE)%Z /\
    IZR i <= x * IZR LOG_TABLE_SIZE < IZR i + 1 /\
    log x = Some (ln ((IZR i + 1e-5) / IZR LOG_TABLE_SIZE)).
Proof.
  intros HL [H0 H1]. pose proof (IZR_lt _ _ HL) as HN.
  assert (Hy : 0 <= x * IZR LOG_TABLE_SIZE <= IZR LOG_TABLE_SIZE) by nra.
  exists (trunc (x * IZR LOG_TABLE_SIZE)).
  split; [apply trunc_range; exact Hy|].
  split; [apply trunc_floor; lra|].
  unfold log. destruct (Rlt_dec 1 x); [lra|].
  apply t_log_lookup, trunc_range, Hy.
Qed.

Lemma ln_le_compat (a b : R) : 0 < a -> a <= b -> ln a <= ln b.
Proof.
  intros Ha [Hlt| ->]; [left; now apply ln_increasing | right; reflexivity].
Qed.

(** The values [log] takes on [[0, 1]]: never below the first entry of the
    table, negative below 1, and positive at 1, where the last entry of
    the table is the logarithm of a number above 1. *)
Lemma log_range (x : R) :
  (0 < LOG_TABLE_SIZE)%Z -> 0 <= x <= 1 ->
  exists l,
    log x = Some l /\
    ln (1e-5 / IZR LOG_TABLE_SIZE) <= l
      <= ln ((IZR LOG_TABLE_SIZE + 1e-5) / IZR LOG_TABLE_SIZE) /\
    (x < 1 -> l < 0) /\
    (x = 1 -> l = ln ((IZR LOG_TABLE_SIZE + 1e-5) / IZR LOG_TABLE_SIZE)
              /\ 0 < l).
Proof.
  intros HL Hx. pose proof (IZR_lt _ _ HL) as HN.
  destruct (log_grid x HL Hx) as (i & Hi & Hix & Hl).
  pose proof (Rinv_0_lt_compat _ HN) as Hinv.
  assert (Hi0 : 0 <= IZR i) by (apply IZR_le; lia).
  assert (HiN : IZR i <= IZR LOG_TABLE_SIZE) by (apply IZR_le; lia).
  assert (Hone : IZR LOG_TABLE_SIZE * / IZR LOG_TABLE_SIZE = 1) by (field; lra).
  eexists. split; [exact Hl|]. split; [split|split].
  - apply ln_le_compat; unfold Rdiv; nra.
  - apply ln_le_compat; unfold Rdiv; nra.
  - intros Hlt. rewrite <- ln_1.
    assert (i < LOG_TABLE_SIZE)%Z by (apply lt_IZR; nra).
    assert (IZR i <= IZR LOG_TABLE_SIZE - 1).
    { rewrite <- minus_IZR. apply IZR_le. lia. }
    apply ln_increasing; unfold Rdiv; nra.
  - intros ->.
    assert (IZR LOG_TABLE_SIZE - 1 < IZR i) by lra.
    assert (LOG_TABLE_SIZE - 1 < i)%Z.
    { apply lt_IZR. rewrite minus_IZR. lra. }
    assert (i = LOG_TABLE_SIZE) as -> by lia.
    split; [reflexivity|]. rewrite <- ln_1.
    apply ln_increasing; unfold Rdiv; nra.
Qed.

(** X2: [log] returns 0 above 1, reads [t_log] inside its bounds exactly
    when [x > - 1 / LOG_TABLE_SIZE], and on [[0, 1]] returns the logarithm
    of [(i + 1e-5) / LOG_TABLE_SIZE] for [i = floor (x * LOG_TABLE_SIZE)]:
    the argument rounded down to the grid and moved up by
    [1e-5 / LOG_TABLE_SIZE], so that [log 0] is finite. *)
Theorem log_table_value (x : R) :
  (0 < LOG_TABLE_SIZE)%Z ->
  (log x = None <-> x <= - 1 / IZR LOG_TABLE_SIZE) /\
  (1 < x -> log x = Some 0) /\
  (0 <= x <= 1 ->
   exists i,
     (0 <= i <= LOG_TABLE_SIZE)%Z /\
     IZR i <= x * IZR LOG_TABLE_SIZE < IZR i + 1 /\
     log x = Some (ln ((IZR i + 1e-5) / IZR LOG_TABLE_SIZE))).
Proof.
  intros HL. split; [apply log_defined, HL|]. split.
  - intros H1. unfold log. destruct (Rlt_dec 1 x); [reflexivity | lra].
  - apply log_grid, HL.
Qed.

(** X3: on a probability [log] has a result between the first and the
    last entry of its table, [ln (1e-5 / LOG_TABLE_SIZE)] and
    [ln (1 + 1e-5 / LOG_TABLE_SIZE)]; it is negative on a probability
    below 1, and on the probability 1 it is not: there the table holds the
    logarithm of a number that is not below 1, so that [- log 1] is never
    a positive loss. *)
Theorem log_sign (x : R) :
  (0 < LOG_TABLE_SIZE)%Z -> 0 <= x <= 1 ->
  exists l,
    log x = Some l /\
    ln (1e-5 / IZR LOG_TABLE_SIZE) <= l
      <= ln ((IZR LOG_TABLE_SIZE + 1e-5) / IZR LOG_TABLE_SIZE) /\
    (x < 1 -> l < 0) /\ (x = 1 -> 0 <= l).
Proof.
  intros HL Hx. destruct (log_range x HL Hx) as (l & Hl & Hb & Hneg & Hpos).
  exists l. split; [exact Hl|]. split; [exact Hb|]. split; [exact Hneg|].
  intros H1. destruct (Hpos H1) as [_ H0]. lra.
Qed.

(** *** The losses of [binaryLogistic] *)

(** X4: for every row [t] of [wo_], every label and every learning rate,
    [binaryLogistic] has a result, and the loss it returns lies between
    [- ln (1 + 1e-5 / LOG_TABLE_SIZE)] and [- ln (1e-5 / LOG_TABLE_SIZE)]:
    the two tables keep the loss finite, however wrong the score is. *)
Theorem binaryLogistic_loss_bounds (m : Model) (t : Z) (y : bool) (lr : R) :
  (0 < SIGMOID_TABLE_SIZE)%Z -> (0 < MAX_SIGMOID)%Z -> (0 < LOG_TABLE_SIZE)%Z ->
  (0 <= t < Z.of_nat (length (wo_ m)))%Z ->
  exists l m',
    binaryLogistic m t y lr = Some (l, m') /\
    - ln ((IZR LOG_TABLE_SIZE + 1e-5) / IZR LOG_TABLE_SIZE) <= l
      <= - ln (1e-5 / IZR LOG_TABLE_SIZE).
Proof.
  intros HS HM HL _.
  destruct (sigmoid_total (dotRow (wo_ m) (hidden_ m) t) HS HM) as (s & Hs & Hs01).
  destruct (log_range (if y then s else 1 - s) HL) as (l & Hl & Hb & _).
  { destruct y; lra. }
  unfold binaryLogistic. rewrite Hs. cbn [mbind option_bind].
  destruct y; rewrite Hl; cbn [mbind option_bind]; eexists _, _;
    (split; [reflexivity | lra]).
Qed.

(** X5: a saturated example moves nothing and adds no loss.  When the
    dot product of row [t] of [wo_] and [hidden_] is above [MAX_SIGMOID]
    and the label is 1, or below [- MAX_SIGMOID] and the label is 0,
    [binaryLogistic] leaves the whole state as it was, for every learning
    rate, and the loss it returns is not positive: it is the last entry
    of the log table with its sign changed, between
    [- ln (1 + 1e-5 / LOG_TABLE_SIZE)] and 0. *)
Theorem binaryLogistic_saturated (m : Model) (t : Z) (y : bool) (lr : R) :
  (0 < MAX_SIGMOID)%Z -> (0 < LOG_TABLE_SIZE)%Z ->
  (0 <= t < Z.of_nat (length (wo_ m)))%Z ->
  (if y then IZR MAX_SIGMOID < dotRow (wo_ m) (hidden_ m) t
   else dotRow (wo_ m) (hidden_ m) t < - IZR MAX_SIGMOID) ->
  exists l,
    binaryLogistic m t y lr = Some (l, m) /\
    - ln ((IZR LOG_TABLE_SIZE + 1e-5) / IZR LOG_TABLE_SIZE) <= l <= 0.
Proof.
  intros HM HL _ Hsat. pose proof (IZR_lt _ _ HM) as HM'.
  destruct (log_range 1 HL ltac:(lra)) as (l & Hl & _ & _ & Hone).
  destruct (Hone eq_refl) as [Hv Hpos].
  exists (- l). unfold binaryLogistic, sigmoid.
  destruct y.
  - destruct (Rlt_dec _ (- IZR MAX_SIGMOID)); [lra|].
    destruct (Rlt_dec (IZR MAX_SIGMOID) _); [|lra].
    cbn [mbind option_bind]. rewrite Hl. cbn [mbind option_bind].
    replace (lr * (1 - 1)) with 0 by ring.
    cbn [wo_ set_grad grad_ hidden_]. unfold addRow.
    rewrite axpy_0, mat_addRow_0, set_wo_grad_id.
    split; [reflexivity|]. rewrite <- Hv. lra.
  - destruct (Rlt_dec _ (- IZR MAX_SIGMOID)); [|lra].
    cbn [mbind option_bind]. replace (1 - 0) with 1 by ring.
    rewrite Hl. cbn [mbind option_bind].
    replace (lr * (0 - 0)) with 0 by ring.
    cbn [wo_ set_grad grad_ hidden_]. unfold addRow.
    rewrite axpy_0, mat_addRow_0, set_wo_grad_id.
    split; [reflexivity|]. rewrite <- Hv. lra.
Qed.

End Tables.

(** ** What the kernels and the drivers write *)

Section Writes.
Local Open Scope R_scope.
Context {K : Constants}.

(** X6: the loss kernel that runs ([negativeSampling],
    [hierarchicalSoftmax] or [softmax], with the [binaryLogistic] and
    [getNegative] calls inside) never writes the input matrix, the
    attention parameters, [hidden_], the attention weights, the loss
    accumulator, the example counter, the negatives table, the paths or
    the codes, and keeps the size of [grad_]. *)
Theorem lossKernel_writes (m : Model) (target : Z) (lr : R) (l : R)
    (m' : Model) :
  lossKernel m target lr = Some (l, m') ->
  wi_ m' = wi_ m /\ attn_ m' = attn_ m /\ bias_ m' = bias_ m /\
  hidden_ m' = hidden_ m /\ softmaxattn_ m' = softmaxattn_ m /\
  loss_ m' = loss_ m /\ nexamples_ m' = nexamples_ m /\
  negatives m' = negatives m /\ paths m' = paths m /\ codes m' = codes m /\
  length (grad_ m') = length (grad_ m).
Proof.
  intros H. apply lossKernel_frame in H. unfold kernel_frame in H. tauto.
Qed.

Lemma vget_neg v j : (j < 0)%Z -> vget v j = 0.
Proof.
  intros Hj. unfold vget, getZ. destruct (Z.ltb_spec j 0); [reflexivity | lia].
Qed.

Lemma vget_nth v j : (0 <= j)%Z -> vget v j = nth (Z.to_nat j) v 0.
Proof.
  intros Hj. unfold vget, getZ. destruct (Z.ltb_spec j 0); [lia|].
  now rewrite nth_lookup.
Qed.

Lemma nth_axpy a : forall v u (n : nat),
  (n < length v)%nat -> nth n (axpy a u v) 0 = nth n v 0 + a * nth n u 0.
Proof.
  induction v as [|x v IH]; intros u n Hn; cbn in Hn; [lia|].
  destruct n as [|n]; cbn.
  - destruct u; reflexivity.
  - rewrite IH by lia. destruct u as [|y u]; cbn; [|reflexivity].
    destruct n; reflexivity.
Qed.

Lemma vget_axpy a u v j :
  (0 <= j < Z.of_nat (length v))%Z ->
  vget (axpy a u v) j = vget v j + a * vget u j.
Proof.
  intros Hj. rewrite !vget_nth by lia. apply nth_axpy. lia.
Qed.

Lemma vget_zero v j : vget (zero v) j = 0.
Proof.
  destruct (Z.lt_ge_cases j 0) as [Hj|Hj]; [now apply vget_neg|].
  rewrite vget_nth by lia. unfold zero. generalize (Z.to_nat j). clear.
  induction v as [|x v IH]; intros [|n]; cbn; try reflexivity. apply IH.
Qed.

Lemma vget_scale v a j : vget (scale v a) j = vget v j * a.
Proof.
  destruct (Z.lt_ge_cases j 0) as [Hj|Hj].
  { rewrite !vget_neg by lia. ring. }
  rewrite !vget_nth by lia. unfold scale. generalize (Z.to_nat j). clear.
  induction v as [|x v IH]; intros [|n]; cbn; try ring. apply IH.
Qed.

Lemma zero_length v : length (zero v) = length v.
Proof. unfold zero. apply length_map. Qed.

Lemma scale_length v a : length (scale v a) = length v.
Proof. unfold scale. apply length_map. Qed.

Lemma sum_rows_loop (W : Matrix) (j : Z) input : forall h,
  (0 <= j < Z.of_nat (length h))%Z ->
  let h' := fold_left (fun h it => addRow1 h W it) input h in
  length h' = length h /\
  vget h' j = vget h j + fold_right Rplus 0 (map (fun it => mat_at W it j) input).
Proof.
  induction input as [|it input IH]; intros h Hj; cbn.
  - split; [reflexivity | ring].
  - destruct (IH (addRow1 h W it)) as [Hl Hv].
    { unfold addRow1. rewrite axpy_length. exact Hj. }
    cbn zeta in Hl, Hv. rewrite Hl, Hv. unfold addRow1.
    rewrite axpy_length, vget_axpy by exact Hj.
    split; [reflexivity|]. unfold mat_at. ring.
Qed.

Lemma computeHidden_length m input hidden h :
  computeHidden m input hidden = Some h -> length h = length hidden.
Proof.
  unfold computeHidden.
  destruct (Z.of_nat (length hidden) =? hsz_ m)%Z; [|discriminate].
  intros [= <-]. rewrite scale_length.
  assert (Hl : forall inp h0,
            length (fold_left (fun h it => addRow1 h (wi_ m) it) inp h0)
            = length h0).
  { induction inp as [|it inp IH]; intros h0; cbn; [reflexivity|].
    rewrite IH. unfold addRow1. apply axpy_length. }
  rewrite Hl. apply zero_length.
Qed.

(** X7: [computeHidden] stops on its assertion unless [hidden] has
    [hsz_] entries; when it has, the result keeps that size and its entry
    [j] is the sum over the input features of entry [j] of their rows of
    [wi_], times [1 / input.size()].  Nothing of what [hidden] held
    before the call enters the result.  (The input is taken non-empty:
    on an empty one the source divides by zero.) *)
Theorem computeHidden_mean (m : Model) (input : list Z) (hidden : Vector) :
  input <> [] ->
  (Z.of_nat (length hidden) <> hsz_ m -> computeHidden m input hidden = None) /\
  (Z.of_nat (length hidden) = hsz_ m ->
   exists h,
     computeHidden m input hidden = Some h /\ length h = length hidden /\
     forall j, (0 <= j < hsz_ m)%Z ->
       vget h j
       = fold_right Rplus 0 (map (fun it => mat_at (wi_ m) it j) input)
         * (1 / INR (length input))).
Proof.
  intros _. split; intros Hh; unfold computeHidden.
  - destruct (Z.eqb_spec (Z.of_nat (length hidden)) (hsz_ m)); [lia | reflexivity].
  - rewrite Hh, Z.eqb_refl. eexists. split; [reflexivity|].
    split.
    + apply (computeHidden_length m input hidden). unfold computeHidden.
      now rewrite Hh, Z.eqb_refl.
    + intros j Hj. rewrite vget_scale.
      destruct (sum_rows_loop (wi_ m) j input (zero hidden)) as [_ Hv].
      { rewrite zero_length. lia. }
      cbn zeta in Hv. rewrite Hv, vget_zero. ring.
Qed.

Lemma mrow_mat_addRow (M : Matrix) vec i a x :
  mrow (mat_addRow M vec i a) x
  = if (x =? i)%Z then axpy a vec (mrow M x) else mrow M x.
Proof.
  unfold mat_addRow, updZ, mrow.
  destruct (getZ M i) as [r|] eqn:Hr; cbn [default from_option Datatypes.id].
  - pose proof (getZ_lt _ _ _ Hr). rewrite getZ_insert by lia.
    destruct (Z.eqb_spec x i) as [->|_]; [|reflexivity].
    now rewrite Hr.
  - destruct (Z.eqb_spec x i) as [->|_]; [|reflexivity].
    now rewrite Hr.
Qed.

Lemma mat_addRow_length (M : Matrix) vec i a :
  length (mat_addRow M vec i a) = length M.
Proof.
  unfold mat_addRow. destruct (updZ M i _) as [M'|] eqn:Hu; cbn; [|reflexivity].
  eapply updZ_length, Hu.
Qed.

(** Lines 431-433: the scatter of [grad_] into the rows of [wi_]. *)
Lemma scatter_rows input : forall m,
  let m' := fold_left
              (fun m it => set_wi (mat_addRow (wi_ m) (grad_ m) it 1) m)
              input m in
  m' = set_wi (wi_ m') m /\
  length (wi_ m') = length (wi_ m) /\
  forall i, mrow (wi_ m') i
            = Nat.iter (count_occ Z.eq_dec input i) (axpy 1 (grad_ m))
                (mrow (wi_ m) i).
Proof.
  induction input as [|it input IH]; intros m; cbn zeta.
  - cbn. split; [now destruct m|]. split; reflexivity.
  - cbn [fold_left].
    destruct (IH (set_wi (mat_addRow (wi_ m) (grad_ m) it 1) m))
      as (Heq & Hlen & Hrow).
    cbn zeta in Heq, Hlen, Hrow.
    set (m1 := fold_left _ input _) in *. split; [|split].
    + rewrite Heq. reflexivity.
    + rewrite Hlen. cbn. apply mat_addRow_length.
    + intros i. rewrite Hrow. cbn [wi_ grad_ set_wi].
      rewrite mrow_mat_addRow.
      destruct (Z.eq_dec it i) as [->|Hne].
      * rewrite count_occ_cons_eq by reflexivity. rewrite Z.eqb_refl.
        now rewrite Nat.iter_succ_r.
      * rewrite count_occ_cons_neq by exact Hne.
        destruct (Z.eqb_spec i it); [congruence | reflexivity].
Qed.

(** X8: a call of [update] that returns has written [wi_] only in the
    rows its input names: row [i] has received the final [grad_] once for
    each occurrence of [i] in the input (so a row that is not in the input
    is unchanged), and the number of rows is the same.  The attention
    parameters, the attention weights, the negatives table, the paths and
    the codes are as before. *)
Theorem update_writes (m : Model) (input : list Z) (target : Z) (lr : R)
    (m' : Model) :
  update m input target lr = Some m' ->
  attn_ m' = attn_ m /\ bias_ m' = bias_ m /\
  softmaxattn_ m' = softmaxattn_ m /\ negatives m' = negatives m /\
  paths m' = paths m /\ codes m' = codes m /\
  length (wi_ m') = length (wi_ m) /\
  forall i, mrow (wi_ m') i
            = Nat.iter (count_occ Z.eq_dec input i) (axpy 1 (grad_ m'))
                (mrow (wi_ m) i).
Proof.
  unfold update.
  destruct (negb (0 <=? target)%Z); [discriminate|].
  destruct (negb (target <? osz_ m)%Z); [discriminate|].
  destruct input as [|it input].
  { cbn. intros [= <-]. repeat split; reflexivity. }
  cbn [length Nat.eqb]. remember (it :: input) as inp eqn:Hinp. intros H.
  apply bind_Some in H as (hidden & _ & H).
  apply bind_Some in H as ([l m1] & Hk & H).
  apply lossKernel_frame in Hk
    as (Hwi & Hattn & Hbias & _ & _ & Hsm & _ & _ & _ & _ & Hneg & Hp & Hc & _).
  cbn in Hwi, Hattn, Hbias, Hsm, Hneg, Hp, Hc.
  injection H as <-.
  match goal with
  | |- context [fold_left ?f inp ?m0] =>
      destruct (scatter_rows inp m0) as (Heq & Hlen & Hrow);
      cbn zeta in Heq, Hlen, Hrow;
      assert (Hg : grad_ (fold_left f inp m0) = grad_ m0)
        by (rewrite Heq; reflexivity);
      set (m2 := fold_left f inp m0) in *
  end.
  rewrite <- Hg in Hrow.
  rewrite Heq at 1 2 3 4 5 6.
  cbn [attn_ bias_ softmaxattn_ negatives paths codes set_wi].
  destruct (model (args_ m1));
    cbn [attn_ bias_ softmaxattn_ negatives paths codes wi_ set_grad
         set_nexamples set_loss] in *;
    rewrite Hattn, Hbias, Hsm, Hneg, Hp, Hc, Hlen, <- Hwi;
    repeat split; try reflexivity; exact Hrow.
Qed.

End Writes.

(** ** The attention forward pass *)

Section Attention.
Local Open Scope R_scope.
Context {K : Constants}.

Lemma weighted_rows_loop (W : Matrix) (j : Z) (pairs : list (Z * Z * R)) :
  forall h,
  (0 <= j < Z.of_nat (length h))%Z ->
  let h' := fold_left (fun h '(p, w) => addRow h W (fst p) w) pairs h in
  length h' = length h /\
  vget h' j
  = vget h j
    + fold_right Rplus 0
        (map (fun '(p, w) => w * mat_at W (fst p) j) pairs).
Proof.
  induction pairs as [|[p w] pairs IH]; intros h Hj; cbn.
  - split; [reflexivity | ring].
  - destruct (IH (addRow h W (fst p) w)) as [Hl Hv].
    { unfold addRow. rewrite axpy_length. exact Hj. }
    cbn zeta in Hl, Hv. rewrite Hl, Hv. unfold addRow.
    rewrite axpy_length, vget_axpy by exact Hj.
    split; [reflexivity|]. unfold mat_at. ring.
Qed.

Lemma computeAttnHidden_run m input hidden :
  Z.of_nat (length hidden) = hsz_ m ->
  computeAttnHidden m input hidden
  = Some (fold_left (fun h '(p, w) => addRow h (wi_ m) (fst p) w)
            (zip input (weights_of (map (logit m) input))) (zero hidden),
          weights_of (map (logit m) input)).
Proof.
  intros Hh. unfold computeAttnHidden. rewrite Hh, Z.eqb_refl. cbn [negb].
  rewrite (logits_loop (logit m)), weights_loop. reflexivity.
Qed.

Lemma computeAttnHidden2_run m input target hidden :
  Z.of_nat (length hidden) = hsz_ m ->
  computeAttnHidden2 m input target hidden
  = Some (fold_left (fun h '(p, w) => addRow h (wi_ m) (fst p) w)
            (zip input (weights_of (map (logit2 m target) input)))
            (zero hidden),
          weights_of (map (logit2 m target) input)).
Proof.
  intros Hh. unfold computeAttnHidden2. rewrite Hh, Z.eqb_refl. cbn [negb].
  rewrite (logits_loop (logit2 m target)), weights_loop. reflexivity.
Qed.

Lemma attention_forward (W : Matrix) (f : Z * Z -> R) input hidden :
  Exists (fun p => -50 <= f p) input ->
  let softmaxattn := weights_of (map f input) in
  let h := fold_left (fun h '(p, w) => addRow h W (fst p) w)
             (zip input softmaxattn) (zero hidden) in
  length softmaxattn = length input /\
  Forall (fun w => 0 <= w <= 1) softmaxattn /\
  fold_right Rplus 0 softmaxattn = 1 /\
  length h = length hidden /\
  forall j, (0 <= j < Z.of_nat (length hidden))%Z ->
    vget h j
    = fold_right Rplus 0
        (map (fun '(p, w) => w * mat_at W (fst p) j) (zip input softmaxattn)).
Proof.
  intros Hex. cbn zeta.
  destruct (weights_normalised (map f input)) as [H01 Hsum].
  { apply List.Exists_exists in Hex as (p & Hp & Hp50).
    apply List.Exists_exists. exists (f p). split; [now apply in_map | exact Hp50]. }
  split; [now rewrite weights_of_length, length_map|].
  split; [exact H01|]. split; [exact Hsum|].
  split.
  - assert (Hlen : forall (pairs : list (Z * Z * R)) h0,
              length (fold_left (fun h '(p, w) => addRow h W (fst p) w) pairs h0)
              = length h0).
    { induction pairs as [|[p w] pairs IH]; intros h0; cbn; [reflexivity|].
      rewrite IH. unfold addRow. apply axpy_length. }
    rewrite Hlen. apply zero_length.
  - intros j Hj.
    destruct (weighted_rows_loop W j (zip input (weights_of (map f input)))
                (zero hidden)) as [_ Hv].
    { rewrite zero_length. exact Hj. }
    cbn zeta in Hv. rewrite Hv, vget_zero. ring.
Qed.

(** X9: when [hidden] has [hsz_] entries and some pair of [input] has a
    logit [attn_(feature, position) + bias_[position]] of at least [-50],
    [computeAttnHidden] stores one weight per pair, each in [[0, 1]], that
    sum to 1, and entry [j] of the hidden vector is the sum over the
    pairs of the weight times entry [j] of the feature's row of [wi_]: a
    convex combination of the input rows. *)
Theorem computeAttnHidden_convex (m : Model) (input : list (Z * Z))
    (hidden : Vector) :
  Z.of_nat (length hidden) = hsz_ m ->
  Exists (fun p => -50 <= mat_at (attn_ m) (fst p) (snd p)
                          + vget (bias_ m) (snd p)) input ->
  exists h softmaxattn,
    computeAttnHidden m input hidden = Some (h, softmaxattn) /\
    length softmaxattn = length input /\
    Forall (fun w => 0 <= w <= 1) softmaxattn /\
    fold_right Rplus 0 softmaxattn = 1 /\
    length h = length hidden /\
    forall j, (0 <= j < hsz_ m)%Z ->
      vget h j
      = fold_right Rplus 0
          (map (fun '(p, w) => w * mat_at (wi_ m) (fst p) j)
             (zip input softmaxattn)).
Proof.
  intros Hh Hex. eexists _, _. split; [apply computeAttnHidden_run, Hh|].
  rewrite <- Hh. apply (attention_forward (wi_ m) (logit m)). exact Hex.
Qed.

(** X10: the same for [computeAttnHidden2], whose logits are read at row
    [target] of [attn_]: [attn_(target, position) + bias_[position]]. *)
Theorem computeAttnHidden2_convex (m : Model) (input : list (Z * Z))
    (target : Z) (hidden : Vector) :
  Z.of_nat (length hidden) = hsz_ m ->
  Exists (fun p => -50 <= mat_at (attn_ m) target (snd p)
                          + vget (bias_ m) (snd p)) input ->
  exists h softmaxattn,
    computeAttnHidden2 m input target hidden = Some (h, softmaxattn) /\
    length softmaxattn = length input /\
    Forall (fun w => 0 <= w <= 1) softmaxattn /\
    fold_right Rplus 0 softmaxattn = 1 /\
    length h = length hidden /\
    forall j, (0 <= j < hsz_ m)%Z ->
      vget h j
      = fold_right Rplus 0
          (map (fun '(p, w) => w * mat_at (wi_ m) (fst p) j)
             (zip input softmaxattn)).
Proof.
  intros Hh Hex. eexists _, _. split; [apply computeAttnHidden2_run, Hh|].
  rewrite <- Hh. apply (attention_forward (wi_ m) (logit2 m target)). exact Hex.
Qed.

End Attention.

(** ** A table with nothing to draw *)

(** X11: when the negatives table holds no class other than [target] (it
    is empty, or every entry is [target]), the loop of [getNegative] has no
    result for any number of draws: on an empty table its first read is
    outside the table, otherwise it walks the cycle for ever. *)
Theorem getNegative_only_target (m : Model) (target : Z) :
  Forall (fun x => x = target) (negatives m) ->
  (forall (fuel pos : nat),
     getNegative_loop fuel (negatives m) pos target = None) /\
  getNegative m target = None.
Proof.
  intros Hall.
  pose proof (getNegative_loop_diverges (negatives m) target Hall) as Hd.
  split; [exact Hd|]. unfold getNegative. now rewrite Hd.
Qed.

(** ** The state the drivers keep *)

Section Ready.
Local Open Scope R_scope.
Context {K : Constants}.

(** The state in which every call of a driver with a target in
    [[0, osz_)] has a result: the scratch vectors have the size the
    constructor gave them, and the kernel of the configured loss is ready
    for every target. *)
Definition engine_ready (m : Model) : Prop :=
  Z.of_nat (length (hidden_ m)) = hsz_ m /\
  Z.of_nat (length (grad_ m)) = hsz_ m /\
  forall target, (0 <= target < osz_ m)%Z -> kernel_ready m target.

(** What a driver keeps of the state [engine_ready] reads. *)
Definition driver_frame (m m' : Model) : Prop :=
  length (hidden_ m') = length (hidden_ m) /\
  length (grad_ m') = length (grad_ m) /\
  hsz_ m' = hsz_ m /\ osz_ m' = osz_ m /\ args_ m' = args_ m /\
  negatives m' = negatives m /\ paths m' = paths m /\ codes m' = codes m /\
  ((negpos m < length (negatives m))%nat ->
   (negpos m' < length (negatives m'))%nat).

Lemma driver_frame_refl m : driver_frame m m.
Proof. unfold driver_frame. tauto. Qed.

Lemma driver_frame_trans m1 m2 m3 :
  driver_frame m1 m2 -> driver_frame m2 m3 -> driver_frame m1 m3.
Proof. unfold driver_frame. intuition congruence. Qed.

Lemma engine_ready_frame m m' :
  driver_frame m m' -> engine_ready m -> engine_ready m'.
Proof.
  intros (Hh & Hg & Hhsz & Hosz & Hargs & Hneg & Hp & Hc & Hpos)
         (Rh & Rg & Rk).
  split; [congruence|]. split; [congruence|].
  intros target Ht. rewrite Hosz in Ht. specialize (Rk target Ht).
  unfold kernel_ready in *. rewrite Hargs, Hc, Hp, Hneg, Hosz.
  rewrite Hneg in Hpos.
  destruct (loss (args_ m)); [exact Rk | | exact Rk].
  destruct Rk as [Rk|[Rk1 Rk2]]; [now left | right].
  split; [apply Hpos, Rk1 | exact Rk2].
Qed.

Lemma getNegative_loop_pos table target (fuel : nat) : forall pos n pos',
  getNegative_loop fuel table pos target = Some (n, pos') ->
  (pos' < length table)%nat.
Proof.
  induction fuel as [|fuel IH]; intros pos n pos'; cbn; [discriminate|].
  destruct (table !! pos) as [x|] eqn:Hx; [|discriminate].
  apply lookup_lt_Some in Hx.
  destruct (target =? x)%Z; [apply IH|].
  intros [= _ <-]. apply Nat.mod_upper_bound. lia.
Qed.

Lemma binaryLogistic_driver m t y lr l m' :
  binaryLogistic m t y lr = Some (l, m') -> driver_frame m m'.
Proof.
  intros H. pose proof (binaryLogistic_frame _ _ _ _ _ _ H) as F.
  unfold kernel_frame in F. unfold binaryLogistic in H.
  apply bind_Some in H as (s & _ & H).
  assert (Hpos : negpos m' = negpos m).
  { destruct y; apply bind_Some in H as (l' & _ & [= _ <-]); reflexivity. }
  unfold driver_frame. rewrite Hpos.
  destruct F as (_ & _ & _ & -> & -> & _ & _ & _ & -> & -> & -> & -> & -> & ->).
  tauto.
Qed.

Lemma getNegative_driver m target n m' :
  getNegative m target = Some (n, m') -> driver_frame m m'.
Proof.
  unfold getNegative. intros H.
  apply bind_Some in H as ([n' pos] & Hrun & [= _ <-]).
  apply getNegative_loop_pos in Hrun.
  unfold driver_frame. cbn. tauto.
Qed.

Lemma zero_grad_driver m : driver_frame m (set_grad (zero (grad_ m)) m).
Proof. unfold driver_frame. cbn. rewrite zero_length. tauto. Qed.

Lemma hierarchicalSoftmax_loop_driver path : forall code lr loss m l m',
  hierarchicalSoftmax_loop path code lr loss m = Some (l, m') ->
  driver_frame m m'.
Proof.
  induction path as [|p path IH]; intros code lr loss0 m l m'; cbn.
  - intros [= _ <-]. apply driver_frame_refl.
  - destruct code as [|b code]; [discriminate|]. intros H.
    apply bind_Some in H as ([l1 m1] & Hb & H).
    eapply driver_frame_trans; [eapply binaryLogistic_driver, Hb|].
    eapply IH, H.
Qed.

Lemma negativeSampling_loop_driver k target lr : forall loss m l m',
  negativeSampling_loop k target lr loss m = Some (l, m') ->
  driver_frame m m'.
Proof.
  induction k as [|k IH]; intros loss0 m l m'; cbn.
  - intros [= _ <-]. apply driver_frame_refl.
  - intros H. apply bind_Some in H as ([n1 m2] & Hn & H).
    apply bind_Some in H as ([l2 m3] & Hb & H).
    eapply driver_frame_trans; [eapply getNegative_driver, Hn|].
    eapply driver_frame_trans; [eapply binaryLogistic_driver, Hb|].
    eapply IH, H.
Qed.

Lemma softmax_steps_driver target lr idx : forall m,
  driver_frame m (fold_left (softmax_step target lr) idx m).
Proof.
  induction idx as [|i idx IH]; intros m; cbn; [apply driver_frame_refl|].
  eapply driver_frame_trans; [|apply IH].
  unfold driver_frame, softmax_step, addRow. cbn. rewrite axpy_length. tauto.
Qed.

Lemma lossKernel_driver m target lr l m' :
  lossKernel m target lr = Some (l, m') -> driver_frame m m'.
Proof.
  unfold lossKernel. destruct (loss (args_ m)).
  - unfold hierarchicalSoftmax. cbn [codes paths set_grad]. intros H.
    apply bind_Some in H as (code & _ & H).
    apply bind_Some in H as (path & _ & H).
    eapply driver_frame_trans; [apply zero_grad_driver|].
    eapply hierarchicalSoftmax_loop_driver, H.
  - unfold negativeSampling. cbn [args_ set_grad].
    destruct (neg (args_ m) <? 0)%Z.
    { intros [= _ <-]. apply zero_grad_driver. }
    intros H. apply bind_Some in H as ([l1 m1] & Hb & H).
    eapply driver_frame_trans; [apply zero_grad_driver|].
    eapply driver_frame_trans; [eapply binaryLogistic_driver, Hb|].
    eapply negativeSampling_loop_driver, H.
  - unfold softmax. intros H. apply bind_Some in H as (l' & _ & [= _ <-]).
    eapply driver_frame_trans; [apply zero_grad_driver|].
    eapply driver_frame_trans; [|apply softmax_steps_driver].
    unfold driver_frame. cbn. tauto.
Qed.

Lemma update_driver m input target lr m' :
  update m input target lr = Some m' -> driver_frame m m'.
Proof.
  unfold update.
  destruct (negb (0 <=? target)%Z); [discriminate|].
  destruct (negb (target <? osz_ m)%Z); [discriminate|].
  destruct (length input =? 0)%nat.
  { intros [= <-]. apply driver_frame_refl. }
  intros H. apply bind_Some in H as (hidden & Hh & H).
  apply bind_Some in H as ([l m1] & Hk & H).
  apply computeHidden_length in Hh. apply lossKernel_driver in Hk.
  injection H as <-.
  match goal with
  | |- context [fold_left ?f input ?m0] =>
      destruct (scatter_rows input m0) as (Heq & _ & _);
      cbn zeta in Heq; set (m2 := fold_left f input m0) in *
  end.
  rewrite Heq.
  eapply driver_frame_trans; [|eapply driver_frame_trans; [exact Hk|]].
  - unfold driver_frame. cbn. rewrite Hh. tauto.
  - unfold driver_frame. destruct (model (args_ m1)); cbn;
      rewrite ?scale_length; tauto.
Qed.

Lemma computeAttnGradient_loop_writes n gradient input :
  forall softmaxattn m m',
  computeAttnGradient_loop n gradient input softmaxattn m = Some m' ->
  m' = set_bias (bias_ m') (set_attn (attn_ m') (set_wi (wi_ m') m)).
Proof.
  induction input as [|p input IH]; intros softmaxattn m m'; cbn.
  - intros [= <-]. now destruct m.
  - destruct softmaxattn as [|a softmaxattn]; [discriminate|].
    intros H. apply IH in H. rewrite H at 1. now destruct m.
Qed.

Lemma computeAttnGradient2_loop_writes n target gradient input :
  forall softmaxattn m m',
  computeAttnGradient2_loop n target gradient input softmaxattn m = Some m' ->
  m' = set_bias (bias_ m') (set_attn (attn_ m') (set_wi (wi_ m') m)).
Proof.
  induction input as [|p input IH]; intros softmaxattn m m'; cbn.
  - intros [= <-]. now destruct m.
  - destruct softmaxattn as [|a softmaxattn]; [discriminate|].
    intros H. apply IH in H. rewrite H at 1. now destruct m.
Qed.

Lemma computeAttnHidden_length m input hidden h softmaxattn :
  computeAttnHidden m input hidden = Some (h, softmaxattn) ->
  length h = length hidden.
Proof.
  destruct (Z.eq_dec (Z.of_nat (length hidden)) (hsz_ m)) as [Hh|Hne].
  2:{ unfold computeAttnHidden.
      destruct (Z.eqb_spec (Z.of_nat (length hidden)) (hsz_ m));
        [lia | discriminate]. }
  rewrite computeAttnHidden_run by exact Hh. intros [= <- _].
  assert (Hlen : forall (pairs : list (Z * Z * R)) h0,
            length (fold_left (fun h '(p, w) => addRow h (wi_ m) (fst p) w)
                      pairs h0)
            = length h0).
  { induction pairs as [|[p w] pairs IH]; intros h0; cbn; [reflexivity|].
    rewrite IH. unfold addRow. apply axpy_length. }
  rewrite Hlen. apply zero_length.
Qed.

Lemma computeAttnHidden2_length m input target hidden h softmaxattn :
  computeAttnHidden2 m input target hidden = Some (h, softmaxattn) ->
  length h = length hidden.
Proof.
  destruct (Z.eq_dec (Z.of_nat (length hidden)) (hsz_ m)) as [Hh|Hne].
  2:{ unfold computeAttnHidden2.
      destruct (Z.eqb_spec (Z.of_nat (length hidden)) (hsz_ m));
        [lia | discriminate]. }
  rewrite computeAttnHidden2_run by exact Hh. intros [= <- _].
  assert (Hlen : forall (pairs : list (Z * Z * R)) h0,
            length (fold_left (fun h '(p, w) => addRow h (wi_ m) (fst p) w)
                      pairs h0)
            = length h0).
  { induction pairs as [|[p w] pairs IH]; intros h0; cbn; [reflexivity|].
    rewrite IH. unfold addRow. apply axpy_length. }
  rewrite Hlen. apply zero_length.
Qed.

Lemma updateAttn_driver m input target lr m' input' :
  updateAttn m input target lr = Some (m', input') -> driver_frame m m'.
Proof.
  unfold updateAttn.
  destruct (negb (0 <=? target)%Z); [discriminate|].
  destruct (negb (target <? osz_ m)%Z); [discriminate|].
  destruct (length input =? 0)%nat.
  { intros [= <- _]. apply driver_frame_refl. }
  destruct (length (eraseTarget target input) =? 0)%nat.
  { intros [= <- _]. unfold driver_frame. cbn. tauto. }
  intros H. apply bind_Some in H as ([hidden softmaxattn] & Hf & H).
  apply bind_Some in H as ([l m1] & Hk & H).
  apply bind_Some in H as (m2 & Hg & [= <- _]).
  apply computeAttnHidden_length in Hf. apply lossKernel_driver in Hk.
  unfold computeAttnGradient in Hg.
  destruct (negb _) in Hg; [discriminate|].
  apply computeAttnGradient_loop_writes in Hg. rewrite Hg.
  eapply driver_frame_trans; [|eapply driver_frame_trans; [exact Hk|]].
  - unfold driver_frame. cbn in *. rewrite Hf. tauto.
  - unfold driver_frame. cbn. tauto.
Qed.

Lemma updateAttn2_driver m input target lr m' input' :
  updateAttn2 m input target lr = Some (m', input') -> driver_frame m m'.
Proof.
  unfold updateAttn2.
  destruct (negb (0 <=? target)%Z); [discriminate|].
  destruct (negb (target <? osz_ m)%Z); [discriminate|].
  destruct (length input =? 0)%nat.
  { intros [= <- _]. apply driver_frame_refl. }
  destruct (length (eraseTarget target input) =? 0)%nat.
  { intros [= <- _]. unfold driver_frame. cbn. tauto. }
  intros H. apply bind_Some in H as ([hidden softmaxattn] & Hf & H).
  apply bind_Some in H as ([l m1] & Hk & H).
  apply bind_Some in H as (m2 & Hg & [= <- _]).
  apply computeAttnHidden2_length in Hf. apply lossKernel_driver in Hk.
  unfold computeAttnGradient2 in Hg.
  destruct (negb _) in Hg; [discriminate|].
  apply computeAttnGradient2_loop_writes in Hg. rewrite Hg.
  eapply driver_frame_trans; [|eapply driver_frame_trans; [exact Hk|]].
  - unfold driver_frame. cbn in *. rewrite Hf. tauto.
  - unfold driver_frame. cbn. tauto.
Qed.

(** *** Sizes and indices *)

(** [M'] has as many rows as [M], each of the size it had. *)
Definition same_shape (M M' : Matrix) : Prop := map length M' = map length M.

(** What the kernels and the drivers keep of the sizes of [wi_], [wo_]
    and [output_]. *)
Definition shape_frame (m m' : Model) : Prop :=
  same_shape (wi_ m) (wi_ m') /\ same_shape (wo_ m) (wo_ m') /\
  length (output_ m') = length (output_ m).

(** The sizes and the stored indices of an engine that the constructor
    and [setTargetCounts] have set up on matrices of [hsz_] columns:
    [wo_] has [osz_] rows and [output_] has [osz_] entries, the rows of
    [wi_] and [wo_] have [hsz_] entries, and the negatives table and the
    paths hold indices of rows of [wo_].  The vector and matrix
    operations leave an index outside the stored range to the caller; in
    such a state the kernels pass none. *)
Definition engine_in_range (m : Model) : Prop :=
  Z.of_nat (length (wo_ m)) = osz_ m /\
  Z.of_nat (length (output_ m)) = osz_ m /\
  Forall (fun r => Z.of_nat (length r) = hsz_ m) (wi_ m) /\
  Forall (fun r => Z.of_nat (length r) = hsz_ m) (wo_ m) /\
  Forall (fun x => (0 <= x < osz_ m)%Z) (negatives m) /\
  Forall (Forall (fun x => (0 <= x < osz_ m)%Z)) (paths m).

(** The pairs [updateAttn] can be given: the feature is a row of [wi_],
    and the position is an entry of row [row] of [attn_] and of
    [bias_]. *)
Definition pair_in_range (m : Model) (row : Z) (p : Z * Z) : Prop :=
  (0 <= fst p < Z.of_nat (length (wi_ m)))%Z /\
  (0 <= snd p < Z.of_nat (length (mrow (attn_ m) row)))%Z /\
  (0 <= snd p < Z.of_nat (length (bias_ m)))%Z.

Lemma same_shape_refl M : same_shape M M.
Proof. reflexivity. Qed.

Lemma same_shape_trans M1 M2 M3 :
  same_shape M1 M2 -> same_shape M2 M3 -> same_shape M1 M3.
Proof. unfold same_shape. congruence. Qed.

Lemma same_shape_rows (h : Z) M M' :
  same_shape M M' ->
  length M' = length M /\
  (Forall (fun r => Z.of_nat (length r) = h) M ->
   Forall (fun r => Z.of_nat (length r) = h) M').
Proof.
  unfold same_shape. revert M'.
  induction M as [|r M IH]; intros [|r' M']; cbn; try discriminate.
  - intros _. split; [reflexivity | constructor].
  - intros [= Hr HM]. destruct (IH M' HM) as [Hl HF].
    split; [now rewrite Hl|]. intros HrM.
    apply Forall_cons in HrM as [H1 H2].
    constructor; [now rewrite Hr | now apply HF].
Qed.

Lemma insert_same_shape (M : Matrix) (r r' : Vector) : forall i : nat,
  M !! i = Some r -> length r' = length r -> same_shape M (<[i:=r']> M).
Proof.
  unfold same_shape. induction M as [|x M IH]; intros [|i]; cbn;
    try discriminate.
  - intros [= ->] ->. reflexivity.
  - intros Hi Hl. f_equal. now apply IH.
Qed.

Lemma mat_addRow_shape M vec i a : same_shape M (mat_addRow M vec i a).
Proof.
  unfold mat_addRow, updZ.
  destruct (getZ M i) as [r|] eqn:Hr; cbn [default from_option Datatypes.id].
  - apply getZ_Some in Hr as [_ Hr].
    eapply insert_same_shape; [exact Hr | apply axpy_length].
  - apply same_shape_refl.
Qed.

Lemma shape_frame_refl m : shape_frame m m.
Proof. unfold shape_frame, same_shape. tauto. Qed.

(** A step that writes none of [wi_], [wo_] and [output_]. *)
Ltac shape_kept :=
  split; [apply same_shape_refl | split; [apply same_shape_refl | reflexivity]].

Lemma shape_frame_trans m1 m2 m3 :
  shape_frame m1 m2 -> shape_frame m2 m3 -> shape_frame m1 m3.
Proof. unfold shape_frame, same_shape. intuition congruence. Qed.

Lemma engine_in_range_frame m m' :
  driver_frame m m' -> shape_frame m m' ->
  engine_in_range m -> engine_in_range m'.
Proof.
  intros (_ & _ & Hhsz & Hosz & _ & Hneg & Hp & _) (Swi & Swo & So)
         (Rwo & Ro & Rwi & Rwo' & Rn & Rp).
  destruct (same_shape_rows (hsz_ m) _ _ Swi) as [_ Fwi].
  destruct (same_shape_rows (hsz_ m) _ _ Swo) as [Lwo Fwo].
  unfold engine_in_range. rewrite Hhsz, Hosz, Hneg, Hp, Lwo, So.
  repeat split; auto.
Qed.

Lemma binaryLogistic_shape m t y lr l m' :
  binaryLogistic m t y lr = Some (l, m') -> shape_frame m m'.
Proof.
  unfold binaryLogistic. intros H. apply bind_Some in H as (s & _ & H).
  destruct y; apply bind_Some in H as (l' & _ & [= _ <-]);
    (split; [apply same_shape_refl|];
     split; [apply mat_addRow_shape | reflexivity]).
Qed.

Lemma getNegative_shape m target n m' :
  getNegative m target = Some (n, m') -> shape_frame m m'.
Proof.
  unfold getNegative. intros H.
  apply bind_Some in H as ([n' pos] & _ & [= _ <-]). shape_kept.
Qed.

Lemma zero_grad_shape m : shape_frame m (set_grad (zero (grad_ m)) m).
Proof. shape_kept. Qed.

Lemma hierarchicalSoftmax_loop_shape path : forall code lr loss m l m',
  hierarchicalSoftmax_loop path code lr loss m = Some (l, m') ->
  shape_frame m m'.
Proof.
  induction path as [|p path IH]; intros code lr loss0 m l m'; cbn.
  - intros [= _ <-]. apply shape_frame_refl.
  - destruct code as [|b code]; [discriminate|]. intros H.
    apply bind_Some in H as ([l1 m1] & Hb & H).
    eapply shape_frame_trans; [eapply binaryLogistic_shape, Hb|].
    eapply IH, H.
Qed.

Lemma negativeSampling_loop_shape k target lr : forall loss m l m',
  negativeSampling_loop k target lr loss m = Some (l, m') ->
  shape_frame m m'.
Proof.
  induction k as [|k IH]; intros loss0 m l m'; cbn.
  - intros [= _ <-]. apply shape_frame_refl.
  - intros H. apply bind_Some in H as ([n1 m2] & Hn & H).
    apply bind_Some in H as ([l2 m3] & Hb & H).
    eapply shape_frame_trans; [eapply getNegative_shape, Hn|].
    eapply shape_frame_trans; [eapply binaryLogistic_shape, Hb|].
    eapply IH, H.
Qed.

Lemma softmax_steps_shape target lr idx : forall m,
  shape_frame m (fold_left (softmax_step target lr) idx m).
Proof.
  induction idx as [|i idx IH]; intros m; cbn; [apply shape_frame_refl|].
  eapply shape_frame_trans; [|apply IH].
  split; [apply same_shape_refl|].
  split; [apply mat_addRow_shape | reflexivity].
Qed.

Lemma fold_left_preserves {St B : Type} (f : St -> B -> St) (P : St -> Prop)
    (l : list B) : forall s,
  P s -> (forall s b, P s -> P (f s b)) -> P (fold_left f l s).
Proof.
  induction l as [|b l IH]; intros s Hs Hf; cbn; [exact Hs|].
  apply IH; [apply Hf, Hs | exact Hf].
Qed.

Lemma computeOutputSoftmax_length wo osz hidden output :
  length (computeOutputSoftmax wo osz hidden output) = length output.
Proof.
  unfold computeOutputSoftmax.
  set (out0 := mulMat output wo hidden).
  assert (Hl0 : length out0 = length output) by apply length_imap.
  set (mx := fold_left _ (seqZ 0 osz) (vget out0 0)).
  match goal with
  | |- context [fold_left ?F (seqZ 0 osz) (out0, 0)] =>
      assert (H1 : length (fst (fold_left F (seqZ 0 osz) (out0, 0)))
                   = length output)
  end.
  { apply fold_left_preserves; [exact Hl0|].
    intros [o z] i Ho. cbn in *. now rewrite vset_length. }
  destruct (fold_left _ (seqZ 0 osz) (out0, 0)) as [out1 z]. cbn [fst] in H1.
  apply fold_left_preserves; [exact H1|].
  intros o i Ho. now rewrite vset_length.
Qed.

Lemma lossKernel_shape m target lr l m' :
  lossKernel m target lr = Some (l, m') -> shape_frame m m'.
Proof.
  unfold lossKernel. destruct (loss (args_ m)).
  - unfold hierarchicalSoftmax. cbn [codes paths set_grad]. intros H.
    apply bind_Some in H as (code & _ & H).
    apply bind_Some in H as (path & _ & H).
    eapply shape_frame_trans; [apply zero_grad_shape|].
    eapply hierarchicalSoftmax_loop_shape, H.
  - unfold negativeSampling. cbn [args_ set_grad].
    destruct (neg (args_ m) <? 0)%Z.
    { intros [= _ <-]. apply zero_grad_shape. }
    intros H. apply bind_Some in H as ([l1 m1] & Hb & H).
    eapply shape_frame_trans; [apply zero_grad_shape|].
    eapply shape_frame_trans; [eapply binaryLogistic_shape, Hb|].
    eapply negativeSampling_loop_shape, H.
  - unfold softmax. intros H. apply bind_Some in H as (l' & _ & [= _ <-]).
    eapply shape_frame_trans; [apply zero_grad_shape|].
    eapply shape_frame_trans; [|apply softmax_steps_shape].
    split; [apply same_shape_refl|]. split; [apply same_shape_refl|].
    cbn. apply computeOutputSoftmax_length.
Qed.

Lemma scatter_shape input : forall m,
  shape_frame m
    (fold_left (fun m it => set_wi (mat_addRow (wi_ m) (grad_ m) it 1) m)
       input m).
Proof.
  induction input as [|it input IH]; intros m; cbn; [apply shape_frame_refl|].
  eapply shape_frame_trans; [|apply IH].
  split; [apply mat_addRow_shape|].
  split; [apply same_shape_refl | reflexivity].
Qed.

Lemma update_shape m input target lr m' :
  update m input target lr = Some m' -> shape_frame m m'.
Proof.
  unfold update.
  destruct (negb (0 <=? target)%Z); [discriminate|].
  destruct (negb (target <? osz_ m)%Z); [discriminate|].
  destruct (length input =? 0)%nat.
  { intros [= <-]. apply shape_frame_refl. }
  intros H. apply bind_Some in H as (hidden & _ & H).
  apply bind_Some in H as ([l m1] & Hk & H).
  apply lossKernel_shape in Hk. injection H as <-.
  eapply shape_frame_trans; [|apply scatter_shape].
  eapply shape_frame_trans; [|eapply shape_frame_trans; [exact Hk|]].
  - shape_kept.
  - destruct (model (args_ m1)); shape_kept.
Qed.

Lemma computeAttnGradient_loop_shape n gradient input :
  forall softmaxattn m m',
  computeAttnGradient_loop n gradient input softmaxattn m = Some m' ->
  shape_frame m m'.
Proof.
  induction input as [|p input IH]; intros softmaxattn m m'; cbn.
  - intros [= <-]. apply shape_frame_refl.
  - destruct softmaxattn as [|a softmaxattn]; [discriminate|].
    intros H. apply IH in H.
    eapply shape_frame_trans; [|exact H].
    split; [apply mat_addRow_shape|].
    split; [apply same_shape_refl | reflexivity].
Qed.

Lemma computeAttnGradient2_loop_shape n target gradient input :
  forall softmaxattn m m',
  computeAttnGradient2_loop n target gradient input softmaxattn m = Some m' ->
  shape_frame m m'.
Proof.
  induction input as [|p input IH]; intros softmaxattn m m'; cbn.
  - intros [= <-]. apply shape_frame_refl.
  - destruct softmaxattn as [|a softmaxattn]; [discriminate|].
    intros H. apply IH in H.
    eapply shape_frame_trans; [|exact H].
    split; [apply mat_addRow_shape|].
    split; [apply same_shape_refl | reflexivity].
Qed.

Lemma updateAttn_shape m input target lr m' input' :
  updateAttn m input target lr = Some (m', input') -> shape_frame m m'.
Proof.
  unfold updateAttn.
  destruct (negb (0 <=? target)%Z); [discriminate|].
  destruct (negb (target <? osz_ m)%Z); [discriminate|].
  destruct (length input =? 0)%nat.
  { intros [= <- _]. apply shape_frame_refl. }
  destruct (length (eraseTarget target input) =? 0)%nat.
  { intros [= <- _]. shape_kept. }
  intros H. apply bind_Some in H as ([hidden softmaxattn] & _ & H).
  apply bind_Some in H as ([l m1] & Hk & H).
  apply bind_Some in H as (m2 & Hg & [= <- _]).
  apply lossKernel_shape in Hk.
  unfold computeAttnGradient in Hg.
  destruct (negb _) in Hg; [discriminate|].
  apply computeAttnGradient_loop_shape in Hg.
  eapply shape_frame_trans; [|exact Hg].
  eapply shape_frame_trans; [|eapply shape_frame_trans; [exact Hk|]];
    shape_kept.
Qed.

Lemma updateAttn2_shape m input target lr m' input' :
  updateAttn2 m input target lr = Some (m', input') -> shape_frame m m'.
Proof.
  unfold updateAttn2.
  destruct (negb (0 <=? target)%Z); [discriminate|].
  destruct (negb (target <? osz_ m)%Z); [discriminate|].
  destruct (length input =? 0)%nat.
  { intros [= <- _]. apply shape_frame_refl. }
  destruct (length (eraseTarget target input) =? 0)%nat.
  { intros [= <- _]. shape_kept. }
  intros H. apply bind_Some in H as ([hidden softmaxattn] & _ & H).
  apply bind_Some in H as ([l m1] & Hk & H).
  apply bind_Some in H as (m2 & Hg & [= <- _]).
  apply lossKernel_shape in Hk.
  unfold computeAttnGradient2 in Hg.
  destruct (negb _) in Hg; [discriminate|].
  apply computeAttnGradient2_loop_shape in Hg.
  eapply shape_frame_trans; [|exact Hg].
  eapply shape_frame_trans; [|eapply shape_frame_trans; [exact Hk|]];
    shape_kept.
Qed.

(** X12: in a ready state whose sizes and stored indices are in range,
    on an input of rows of [wi_], [update] returns exactly when its two
    assertions on [target] hold: the tables are read inside their bounds
    and the walk of the negatives table ends.  The state it returns is
    ready again, with the same sizes, so that a run of such calls never
    leaves these states. *)
Theorem update_keeps_ready (m : Model) (input : list Z) (target : Z) (lr : R) :
  (0 < SIGMOID_TABLE_SIZE)%Z -> (0 < MAX_SIGMOID)%Z -> (0 < LOG_TABLE_SIZE)%Z ->
  engine_ready m -> engine_in_range m ->
  Forall (fun it => (0 <= it < Z.of_nat (length (wi_ m)))%Z) input ->
  (~ (0 <= target < osz_ m)%Z -> update m input target lr = None) /\
  ((0 <= target < osz_ m)%Z ->
   exists m',
     update m input target lr = Some m' /\
     engine_ready m' /\ engine_in_range m' /\
     length (wi_ m') = length (wi_ m)).
Proof.
  intros HS HM HL Hr Hs _. split.
  - intros Hout. unfold update.
    destruct (Z.leb_spec 0 target); [|reflexivity].
    destruct (Z.ltb_spec target (osz_ m)); [lia | reflexivity].
  - intros Hin. destruct Hr as (Rh & Rg & Rk).
    destruct (update_total HS HM HL m input target lr Hin Rh (Rk _ Hin))
      as [m' Hm'].
    exists m'. split; [exact Hm'|].
    pose proof (update_driver _ _ _ _ _ Hm') as Hd.
    pose proof (update_shape _ _ _ _ _ Hm') as Hf.
    split; [|split].
    + eapply engine_ready_frame; [exact Hd|].
      split; [exact Rh|]. split; [exact Rg | exact Rk].
    + eapply engine_in_range_frame; eassumption.
    + destruct Hf as (Swi & _). apply (same_shape_rows 0) in Swi. tauto.
Qed.

(** X13: in a ready state whose sizes and stored indices are in range,
    [updateAttn] returns exactly when its two assertions on [target]
    hold; it leaves in the caller's vector the pairs whose feature is not
    [target], and the state it returns is ready again, with the same
    sizes.  This is for pairs that, once those of [target] are erased,
    name a row of [wi_] and an entry of that row of [attn_] and of
    [bias_], and of which one has a logit of at least [-50] (so that the
    attention weights are not [0 / 0]). *)
Theorem updateAttn_keeps_ready (m : Model) (input : list (Z * Z)) (target : Z)
    (lr : R) :
  (0 < SIGMOID_TABLE_SIZE)%Z -> (0 < MAX_SIGMOID)%Z -> (0 < LOG_TABLE_SIZE)%Z ->
  engine_ready m -> engine_in_range m ->
  Forall (fun p => pair_in_range m (fst p) p) (eraseTarget target input) ->
  (eraseTarget target input <> [] ->
   Exists (fun p => -50 <= mat_at (attn_ m) (fst p) (snd p)
                           + vget (bias_ m) (snd p))
     (eraseTarget target input)) ->
  (~ (0 <= target < osz_ m)%Z -> updateAttn m input target lr = None) /\
  ((0 <= target < osz_ m)%Z ->
   exists m',
     updateAttn m input target lr = Some (m', eraseTarget target input) /\
     engine_ready m' /\ engine_in_range m').
Proof.
  intros HS HM HL Hr Hs _ _. split.
  - intros Hout. unfold updateAttn.
    destruct (Z.leb_spec 0 target); [|reflexivity].
    destruct (Z.ltb_spec target (osz_ m)); [lia | reflexivity].
  - intros Hin. destruct Hr as (Rh & Rg & Rk).
    destruct (updateAttn_total HS HM HL m input target lr Hin Rh Rg (Rk _ Hin))
      as [m' Hm'].
    exists m'. split; [exact Hm'|].
    pose proof (updateAttn_driver _ _ _ _ _ _ Hm') as Hd.
    pose proof (updateAttn_shape _ _ _ _ _ _ Hm') as Hf.
    split.
    + eapply engine_ready_frame; [exact Hd|].
      split; [exact Rh|]. split; [exact Rg | exact Rk].
    + eapply engine_in_range_frame; eassumption.
Qed.

(** X14: the same for [updateAttn2], whose logits and attention updates
    are at row [target] of [attn_]: the positions of the remaining pairs
    are entries of that row. *)
Theorem updateAttn2_keeps_ready (m : Model) (input : list (Z * Z))
    (target : Z) (lr : R) :
  (0 < SIGMOID_TABLE_SIZE)%Z -> (0 < MAX_SIGMOID)%Z -> (0 < LOG_TABLE_SIZE)%Z ->
  engine_ready m -> engine_in_range m ->
  Forall (pair_in_range m target) (eraseTarget target input) ->
  (eraseTarget target input <> [] ->
   Exists (fun p => -50 <= mat_at (attn_ m) target (snd p)
                           + vget (bias_ m) (snd p))
     (eraseTarget target input)) ->
  (~ (0 <= target < osz_ m)%Z -> updateAttn2 m input target lr = None) /\
  ((0 <= target < osz_ m)%Z ->
   exists m',
     updateAttn2 m input target lr = Some (m', eraseTarget target input) /\
     engine_ready m' /\ engine_in_range m').
Proof.
  intros HS HM HL Hr Hs _ _. split.
  - intros Hout. unfold updateAttn2.
    destruct (Z.leb_spec 0 target); [|reflexivity].
    destruct (Z.ltb_spec target (osz_ m)); [lia | reflexivity].
  - intros Hin. destruct Hr as (Rh & Rg & Rk).
    destruct (updateAttn2_total HS HM HL m input target lr Hin Rh Rg (Rk _ Hin))
      as [m' Hm'].
    exists m'. split; [exact Hm'|].
    pose proof (updateAttn2_driver _ _ _ _ _ _ Hm') as Hd.
    pose proof (updateAttn2_shape _ _ _ _ _ _ Hm') as Hf.
    split.
    + eapply engine_ready_frame; [exact Hd|].
      split; [exact Rh|]. split; [exact Rg | exact Rk].
    + eapply engine_in_range_frame; eassumption.
Qed.

End Ready.

(** ** More on the Huffman tree *)

Module HuffmanShape.
Import Huffman HuffmanFacts.

(** The descent that follows the code bits alone, as [Model::dfs] walks
    the tree: right on [true], left on [false]. *)
Fixpoint walk (tree : list Node) (n : Z) (bits : list bool) : option Z :=
  match bits with
  | [] => Some n
  | b :: bits' =>
      match getZ tree n with
      | Some nd => walk tree (if b then right nd else left nd) bits'
      | None => None
      end
  end.

Lemma walk_app tree n b1 b2 :
  walk tree n (b1 ++ b2) =
  match walk tree n b1 with
  | Some m => walk tree m b2
  | None => None
  end.
Proof.
  revert n. induction b1 as [|b b1 IH]; intros n; cbn; [reflexivity|].
  destruct (getZ tree n); [apply IH | reflexivity].
Qed.

Lemma descend_walk tree osz steps : forall n c,
  descend tree osz n steps = Some c -> walk tree n (map snd steps) = Some c.
Proof.
  induction steps as [|[p b] steps IH]; intros n c; cbn; [tauto|].
  destruct (n =? p + osz); [|discriminate].
  destruct (getZ tree n); [apply IH | discriminate].
Qed.

Lemma map_snd_zip {A B : Type} (l : list A) : forall k : list B,
  length l = length k -> map snd (zip l k) = k.
Proof.
  induction l as [|x l IH]; intros [|y k] Hlen; cbn in *; try lia;
    [reflexivity|].
  f_equal. apply IH. lia.
Qed.

Lemma allPaths_lookup fuel tree osz cs : forall ps ks,
  allPaths fuel tree osz cs = Some (ps, ks) ->
  forall k c, cs !! k = Some c ->
    exists path code,
      ps !! k = Some path /\ ks !! k = Some code /\
      pathToRoot fuel tree osz c = Some (path, code).
Proof.
  induction cs as [|c0 cs IH]; intros ps ks; cbn.
  - intros _ k c Hk. discriminate.
  - destruct (pathToRoot fuel tree osz c0) as [[path code]|] eqn:Hp;
      [|discriminate].
    destruct (allPaths fuel tree osz cs) as [[ps' ks']|]; [|discriminate].
    intros [= <- <-] [|k] c Hk.
    + injection Hk as <-. exists path, code. tauto.
    + apply (IH ps' ks' eq_refl). exact Hk.
Qed.

Lemma buildTree_unfold fuel osz counts tree paths codes :
  buildTree fuel osz counts = Some (tree, paths, codes) ->
  exists leaf node,
    (tree0 ← setCounts osz counts (replicate (Z.to_nat (2 * osz - 1)) blank);
     forM merge (seqZ osz (osz - 1)) (tree0, osz - 1, osz))
    = Some (tree, leaf, node) /\
    allPaths fuel tree osz (seqZ 0 osz) = Some (paths, codes).
Proof.
  unfold buildTree. destruct (2 * osz - 1 <? 0); [discriminate|]. intros H.
  apply bind_Some in H as (tree0 & H0 & H).
  apply bind_Some in H as ([[tree1 leaf] node] & H1 & H).
  apply bind_Some in H as ([ps ks] & H2 & [= <- <- <-]).
  exists leaf, node. rewrite H0. cbn. tauto.
Qed.

Section Shape.
Variable osz : Z.
Hypothesis Hosz : 1 <= osz.

(** Every entry of a walk to the root is the offset of an internal node
    above the one before. *)
Lemma pathToRoot_entries tree (fuel : nat) :
  well_linked osz tree -> forall j path code,
  0 <= j <= 2 * osz - 2 ->
  pathToRoot fuel tree osz j = Some (path, code) ->
  Forall (fun p => 0 <= p <= osz - 2 /\ j - osz < p) path.
Proof.
  intros (Hl & Hleaf & Hlinked & (root & Hroot & Hrp)).
  induction fuel as [|fuel IH]; intros j path code Hj; cbn.
  - destruct (getZ tree j) as [nd|]; [|discriminate].
    destruct (parent nd =? -1); [|discriminate].
    intros [= <- _]. constructor.
  - destruct (getZ tree j) as [nd|] eqn:Hnd; [|discriminate].
    destruct (Z.eqb_spec (parent nd) (-1)) as [_|Hne].
    { intros [= <- _]. constructor. }
    assert (Hlt : j < 2 * osz - 2).
    { destruct (Z.eq_dec j (2 * osz - 2)) as [->|]; [|lia]. congruence. }
    destruct (Hlinked j ltac:(lia)) as (nd' & pn & Hnd' & Hp & Hpj & _).
    assert (nd' = nd) as -> by congruence.
    destruct (pathToRoot fuel tree osz (parent nd)) as [[path' code']|] eqn:Hrec;
      [|discriminate].
    intros [= <- _]. constructor; [lia|].
    eapply Forall_impl; [apply (IH (parent nd) path' code' ltac:(lia) Hrec)|].
    cbn. intros; lia.
Qed.

Variable counts : list Z.
Hypothesis Hlen : Z.of_nat (length counts) = osz.
Hypothesis Hsmall : Forall (fun c => c < UNBUILT) counts.

(** Every built parent has two distinct children below it, both consumed
    and pointing back at it, the right one flagged, and holds the sum of
    their counts. *)
Definition tree_children (i leaf node : Z) (tree : list Node) : Prop :=
  forall x, osz <= x < i ->
    exists nd l r,
      getZ tree x = Some nd /\
      getZ tree (left nd) = Some l /\ getZ tree (right nd) = Some r /\
      0 <= left nd < x /\ 0 <= right nd < x /\ left nd <> right nd /\
      parent l = x /\ binary l = false /\ parent r = x /\ binary r = true /\
      count nd = count l + count r /\
      consumed osz leaf node (left nd) /\ consumed osz leaf node (right nd).

(** Leaf [x] holds [counts[x]]. *)
Definition leaf_counts (tree : list Node) : Prop :=
  forall x, 0 <= x < osz ->
    exists nd, getZ tree x = Some nd /\ getZ counts x = Some (count nd).

Lemma merge_children i leaf node tree tree' leaf' node' :
  osz <= i <= 2 * osz - 2 ->
  tree_shape osz i tree -> tree_links osz i leaf node tree ->
  cursors osz i (2 * (i - osz)) leaf node ->
  tree_children i leaf node tree -> leaf_counts tree ->
  merge i (tree, leaf, node) = Some (tree', leaf', node') ->
  tree_children (i + 1) leaf' node' tree' /\ leaf_counts tree'.
Proof.
  intros Hi Hshape (Hlinked & Hfree) Hcur Hch Hlc Hm.
  destruct (pick_ok osz i (2 * (i - osz)) leaf node tree Hi ltac:(lia)
              Hshape Hcur)
    as (m0 & leaf1 & node1 & Hp0 & Hcur1 & Hm0 & Hf0 & Hc1).
  destruct (pick_ok osz i (2 * (i - osz) + 1) leaf1 node1 tree Hi
              ltac:(lia) Hshape Hcur1)
    as (m1 & leaf2 & node2 & Hp1 & Hcur2 & Hm1 & Hf1 & Hc2).
  assert (Hne : m0 <> m1).
  { intros ->. apply Hf1. apply Hc1. now right. }
  destruct Hshape as (Hlen' & Hleaf & Hblank).
  destruct (Hfree m0 ltac:(lia) Hf0) as (n0 & Hg0 & Hpar0 & Hbin0).
  assert (Hf1' : ~ consumed osz leaf node m1).
  { intros Hc. apply Hf1. apply Hc1. now left. }
  destruct (Hfree m1 ltac:(lia) Hf1') as (n1 & Hg1 & Hpar1 & Hbin1).
  destruct (link_spec i m0 m1 tree n0 n1 (Hblank i ltac:(lia)) Hg0 Hg1
              ltac:(lia) ltac:(lia) Hne)
    as (tree2 & Hlink & Hlen2 & Gi & G0 & G1 & Gx).
  unfold merge in Hm. rewrite Hp0 in Hm. cbn in Hm. rewrite Hp1 in Hm.
  cbn in Hm. rewrite Hlink in Hm. cbn in Hm. injection Hm as <- <- <-.
  assert (Hcons : forall x, consumed osz leaf2 node2 x <->
                            consumed osz leaf node x \/ x = m0 \/ x = m1).
  { intros x. rewrite Hc2, Hc1. tauto. }
  assert (Hsame : forall x nd, x <> i -> getZ tree x = Some nd ->
            exists nd', getZ tree2 x = Some nd' /\ left nd' = left nd /\
                        right nd' = right nd /\ count nd' = count nd).
  { intros x nd Xi Hx.
    destruct (Z.eq_dec x m0) as [->|X0].
    { eexists. split; [exact G0|]. rewrite Hg0 in Hx. injection Hx as ->.
      cbn. tauto. }
    destruct (Z.eq_dec x m1) as [->|X1].
    { eexists. split; [exact G1|]. rewrite Hg1 in Hx. injection Hx as ->.
      cbn. tauto. }
    exists nd. rewrite Gx by assumption. tauto. }
  assert (Hold : forall x, consumed osz leaf node x ->
                   getZ tree2 x = getZ tree x).
  { intros x Hx. apply Gx.
    - destruct Hcur as (? & ? & ?). unfold consumed in Hx. lia.
    - intros ->. contradiction.
    - intros ->. contradiction. }
  split.
  - intros x Hx. destruct (Z.eq_dec x i) as [->|Xi].
    + eexists _, _, _. split; [exact Gi|]. cbn [left right count].
      split; [exact G0|]. split; [exact G1|]. cbn.
      rewrite Hbin0. repeat split; try lia; apply Hcons; tauto.
    + destruct (Hch x ltac:(lia))
        as (nd & l & r & Hnd & Hl & Hr & Rl & Rr & Hlr & Pl & Bl & Pr & Br
            & Hcnt & Cl & Cr).
      destruct (Hsame x nd Xi Hnd) as (nd' & Hnd' & El & Er & Ec).
      exists nd', l, r. rewrite El, Er, Ec.
      rewrite (Hold _ Cl), (Hold _ Cr).
      repeat split; try assumption; try lia; apply Hcons; tauto.
  - intros x Hx. destruct (Hlc x Hx) as (nd & Hnd & Hc).
    destruct (Hsame x nd ltac:(lia) Hnd) as (nd' & Hnd' & _ & _ & Ec).
    exists nd'. rewrite Ec. tauto.
Qed.

Lemma setCounts_counts tree :
  setCounts osz counts (replicate (Z.to_nat (2 * osz - 1)) blank) = Some tree ->
  leaf_counts tree.
Proof.
  pose (P := fun (i : Z) (t : list Node) =>
    Z.of_nat (length t) = 2 * osz - 1 /\
    (forall x, 0 <= x < i ->
       exists c, getZ counts x = Some c /\ getZ t x = Some (set_count c blank)) /\
    (forall x, i <= x < 2 * osz - 1 -> getZ t x = Some blank)).
  destruct (forM_inv
    (fun i t => match getZ counts i with
                | Some c => updZ t i (set_count c)
                | None => None
                end) P (Z.to_nat osz) 0
    (replicate (Z.to_nat (2 * osz - 1)) blank)) as (tree' & Htree & HP).
  - repeat split.
    + rewrite length_replicate. lia.
    + intros x Hx. lia.
    + intros x Hx. apply getZ_Some. split; [lia|].
      apply lookup_replicate_2. lia.
  - intros i t Hi (Hl & Hlo & Hhi).
    destruct (getZ_in_range counts i ltac:(lia)) as (c & Hc). rewrite Hc.
    pose proof (Hhi i ltac:(lia)) as Hgi.
    unfold updZ. rewrite Hgi. eexists. split; [reflexivity|].
    repeat split.
    + rewrite length_insert. exact Hl.
    + intros x Hx. rewrite getZ_insert by lia.
      destruct (Z.eqb_spec x i) as [->|Hne]; [eauto|]. apply Hlo. lia.
    + intros x Hx. rewrite getZ_insert by lia.
      destruct (Z.eqb_spec x i) as [->|Hne]; [lia|]. apply Hhi. lia.
  - rewrite Z2Nat.id in Htree, HP by lia. cbn in HP.
    unfold setCounts. rewrite Htree. intros [= <-].
    destruct HP as (_ & Hlo & _). intros x Hx.
    destruct (Hlo x Hx) as (c & Hc & Hg).
    eexists. split; [exact Hg | exact Hc].
Qed.

Lemma merge_loop_children tree leaf node :
  (tree0 ← setCounts osz counts (replicate (Z.to_nat (2 * osz - 1)) blank);
   forM merge (seqZ osz (osz - 1)) (tree0, osz - 1, osz))
  = Some (tree, leaf, node) ->
  well_linked osz tree /\
  tree_children (2 * osz - 1) leaf node tree /\ leaf_counts tree.
Proof.
  intros Hrun.
  destruct (merge_loop_ok osz Hosz counts Hlen Hsmall)
    as (tree' & leaf' & node' & Hrun' & Hwl).
  rewrite Hrun in Hrun'. injection Hrun' as <- <- <-.
  split; [exact Hwl|].
  destruct (setCounts_ok osz Hosz counts Hlen Hsmall)
    as (tree0 & H0 & Hshape0 & Hlinks0).
  pose proof (setCounts_counts tree0 H0) as Hlc0.
  rewrite H0 in Hrun. cbn in Hrun.
  pose (P := fun (i : Z) (st : list Node * Z * Z) =>
    let '(t, leaf, node) := st in
    tree_shape osz i t /\ tree_links osz i leaf node t /\
    cursors osz i (2 * (i - osz)) leaf node /\
    tree_children i leaf node t /\ leaf_counts t).
  destruct (forM_inv merge P (Z.to_nat (osz - 1)) osz (tree0, osz - 1, osz))
    as ([[tree1 leaf1] node1] & Hrun1 & HP).
  - cbn. repeat split; try assumption; try lia; try apply Hshape0;
      try apply Hlinks0.
    intros x Hx. lia.
  - intros i [[t lf] nd] Hi (Hs & Hl & Hc & Hch & Hlc).
    destruct (merge_ok osz i lf nd t ltac:(lia) Hs Hl Hc)
      as (t' & lf' & nd' & Hm & Hs' & Hl' & Hc' & _).
    destruct (merge_children i lf nd t t' lf' nd' ltac:(lia) Hs Hl Hc Hch Hlc Hm)
      as [Hch' Hlc'].
    exists (t', lf', nd'). split; [exact Hm|]. cbn. tauto.
  - rewrite Z2Nat.id in Hrun1, HP by lia.
    replace (osz + (osz - 1)) with (2 * osz - 1) in HP by lia.
    rewrite Hrun in Hrun1. injection Hrun1 as <- <- <-.
    cbn in HP. tauto.
Qed.

End Shape.

(** What [buildTree] returns, in full: the tree is well linked, parents
    and leaves are as the merge loop left them, and [paths] and [codes]
    hold the walks to the root. *)
Lemma buildTree_shape (fuel : nat) (osz : Z) (counts : list Z) :
  1 <= osz -> Z.of_nat (length counts) = osz ->
  Forall (fun c => c < UNBUILT) counts ->
  osz - 1 <= Z.of_nat fuel ->
  exists tree paths codes leaf node,
    buildTree fuel osz counts = Some (tree, paths, codes) /\
    well_linked osz tree /\
    tree_children osz (2 * osz - 1) leaf node tree /\
    leaf_counts osz counts tree /\
    forall c, 0 <= c < osz ->
      exists path code,
        getZ paths c = Some path /\ getZ codes c = Some code /\
        length path = length code /\
        pathToRoot fuel tree osz c = Some (path, code) /\
        descend tree osz (2 * osz - 2) (rev (zip path code)) = Some c.
Proof.
  intros Hosz Hlen Hsmall Hfuel.
  destruct (buildTree_ok fuel osz counts Hosz Hlen Hsmall Hfuel)
    as (tree & paths & codes & Hb & Hwl & Hall).
  destruct (buildTree_unfold _ _ _ _ _ _ Hb) as (leaf & node & Hrun & Hpaths).
  destruct (merge_loop_children osz Hosz counts Hlen Hsmall tree leaf node Hrun)
    as (_ & Hch & Hlc).
  exists tree, paths, codes, leaf, node.
  split; [exact Hb|]. split; [exact Hwl|]. split; [exact Hch|].
  split; [exact Hlc|]. intros c Hc.
  destruct (Hall c Hc) as (path & code & Hp & Hk & Hl & _ & Hd).
  exists path, code. repeat split; try assumption.
  destruct (allPaths_lookup _ _ _ _ _ _ Hpaths (Z.to_nat c) c)
    as (path' & code' & Hp' & Hk' & Hrun').
  { rewrite lookup_seqZ. lia. }
  apply getZ_Some in Hp as [_ Hp]. apply getZ_Some in Hk as [_ Hk].
  congruence.
Qed.

(** X15: after [buildTree], every entry of every path is the index of a
    row of [wo_] other than the last: it lies in [[0, osz - 2]].  The
    entries of a path increase, the last one is the root's. *)
Theorem paths_entries_range (fuel : nat) (osz : Z) (counts : list Z) :
  1 <= osz -> Z.of_nat (length counts) = osz ->
  Forall (fun c => c < UNBUILT) counts ->
  osz - 1 <= Z.of_nat fuel ->
  exists tree paths codes,
    buildTree fuel osz counts = Some (tree, paths, codes) /\
    forall c, 0 <= c < osz ->
      exists path,
        getZ paths c = Some path /\
        Forall (fun p => 0 <= p <= osz - 2) path /\
        (forall i j p q, (i < j)%nat -> path !! i = Some p ->
           path !! j = Some q -> p < q) /\
        (path <> [] -> last path = Some (osz - 2)).
Proof.
  intros Hosz Hlen Hsmall Hfuel.
  destruct (buildTree_shape fuel osz counts Hosz Hlen Hsmall Hfuel)
    as (tree & paths & codes & leaf & node & Hb & Hwl & _ & _ & Hall).
  exists tree, paths, codes. split; [exact Hb|]. intros c Hc.
  destruct (Hall c Hc) as (path & code & Hp & _ & _ & Hrun & _).
  exists path. split; [exact Hp|].
  assert (Hgen : forall (f : nat) j pth cd,
            0 <= j <= 2 * osz - 2 ->
            pathToRoot f tree osz j = Some (pth, cd) ->
            Forall (fun p => 0 <= p <= osz - 2 /\ j - osz < p) pth /\
            (forall i k p q, (i < k)%nat -> pth !! i = Some p ->
               pth !! k = Some q -> p < q) /\
            (pth <> [] -> last pth = Some (osz - 2))).
  { destruct Hwl as (Hl & Hleaf & Hlinked & (root & Hroot & Hrp)).
    assert (Hwl : well_linked osz tree).
    { split; [exact Hl|]. split; [exact Hleaf|]. split; [exact Hlinked|]. eauto. }
    induction f as [|f IH]; intros j pth cd Hj Hr.
    - cbn in Hr. destruct (getZ tree j) as [nd|]; [|discriminate].
      destruct (parent nd =? -1); [|discriminate]. injection Hr as <- _.
      split; [constructor|]. split; [intros i k p q _ Hi; discriminate | tauto].
    - pose proof (pathToRoot_entries osz tree (S f) Hwl j pth cd Hj Hr) as Hent.
      split; [exact Hent|].
      cbn in Hr. destruct (getZ tree j) as [nd|] eqn:Hnd; [|discriminate].
      destruct (Z.eqb_spec (parent nd) (-1)) as [_|Hne].
      { injection Hr as <- _. split; [intros i k p q _ Hi; discriminate | tauto]. }
      assert (Hlt : j < 2 * osz - 2).
      { destruct (Z.eq_dec j (2 * osz - 2)) as [->|]; [|lia]. congruence. }
      destruct (Hlinked j ltac:(lia)) as (nd' & pn & Hnd' & Hpr & Hpj & _).
      assert (nd' = nd) as -> by congruence.
      destruct (pathToRoot f tree osz (parent nd)) as [[pth' cd']|] eqn:Hrec;
        [|discriminate].
      injection Hr as <- _.
      destruct (IH (parent nd) pth' cd' ltac:(lia) Hrec) as (He & Hinc & Hlast).
      split.
      + intros [|i] [|k] p q Hik Hi Hk; try lia.
        * cbn in Hi, Hk. injection Hi as <-.
          apply (proj1 (Forall_lookup _ _) He) in Hk. lia.
        * cbn in Hi, Hk. apply (Hinc i k); [lia | assumption..].
      + intros _. destruct pth' as [|p0 pth'].
        * cbn. f_equal.
          cbn in Hrec. destruct f; cbn in Hrec;
            destruct (getZ tree (parent nd)) as [pn'|] eqn:Hpn; try discriminate;
            destruct (Z.eqb_spec (parent pn') (-1)) as [Hroot'|]; try discriminate;
            try (destruct (pathToRoot f tree osz (parent pn')) as [[? ?]|];
                 discriminate);
            destruct (Z.eq_dec (parent nd) (2 * osz - 2)) as [Heq|Hneq]; try lia;
            destruct (Hlinked (parent nd) ltac:(lia))
              as (x & y & Hx & Hy & _); assert (x = pn') as -> by congruence; lia.
        * rewrite last_cons. rewrite Hlast by discriminate. reflexivity. }
  destruct (Hgen fuel c path code ltac:(lia) Hrun) as (He & Hinc & Hlast).
  split; [|split; [exact Hinc | exact Hlast]].
  eapply Forall_impl; [exact He|]. cbn. tauto.
Qed.

(** X16: the codes of [buildTree] are a prefix code.  Read from the root
    (the vectors hold them from the leaf), the code of a class leads from
    the root to its leaf along the [left]/[right] links, and no code is
    the beginning of the code of another class; in particular two classes
    never share a code. *)
Theorem codes_prefix_free (fuel : nat) (osz : Z) (counts : list Z) :
  1 <= osz -> Z.of_nat (length counts) = osz ->
  Forall (fun c => c < UNBUILT) counts ->
  osz - 1 <= Z.of_nat fuel ->
  exists tree paths codes,
    buildTree fuel osz counts = Some (tree, paths, codes) /\
    (forall c, 0 <= c < osz ->
       exists code, getZ codes c = Some code /\
                    walk tree (2 * osz - 2) (rev code) = Some c) /\
    (forall c d code_c code_d rest,
       0 <= c < osz -> 0 <= d < osz ->
       getZ codes c = Some code_c -> getZ codes d = Some code_d ->
       rev code_d = rev code_c ++ rest -> c = d /\ rest = []).
Proof.
  intros Hosz Hlen Hsmall Hfuel.
  destruct (buildTree_ok fuel osz counts Hosz Hlen Hsmall Hfuel)
    as (tree & paths & codes & Hb & (_ & Hleaf & _ & _) & Hall).
  exists tree, paths, codes. split; [exact Hb|].
  assert (Hwalk : forall c, 0 <= c < osz ->
            exists code, getZ codes c = Some code /\
                         walk tree (2 * osz - 2) (rev code) = Some c).
  { intros c Hc. destruct (Hall c Hc) as (path & code & _ & Hk & Hl & _ & Hd).
    exists code. split; [exact Hk|].
    apply descend_walk in Hd. rewrite map_rev, map_snd_zip in Hd by exact Hl.
    exact Hd. }
  split; [exact Hwalk|].
  intros c d code_c code_d rest Hc Hd Hkc Hkd Hrest.
  destruct (Hwalk c Hc) as (code_c' & Hkc' & Hwc).
  destruct (Hwalk d Hd) as (code_d' & Hkd' & Hwd).
  assert (code_c' = code_c) as -> by congruence.
  assert (code_d' = code_d) as -> by congruence.
  rewrite Hrest, walk_app, Hwc in Hwd.
  destruct rest as [|b rest].
  - cbn in Hwd. injection Hwd as <-. tauto.
  - exfalso. cbn in Hwd.
    destruct (Hleaf c Hc) as (nd & Hnd & Hl & Hr). rewrite Hnd in Hwd.
    assert (Hnext : (if b then right nd else left nd) = -1)
      by (destruct b; assumption).
    rewrite Hnext in Hwd. destruct rest as [|b' rest]; cbn in Hwd.
    + injection Hwd as <-. lia.
    + discriminate.
Qed.

(** X17: the tree [buildTree] leaves.  Leaf [c] has no children and holds
    [counts[c]]; every internal node [x] (from [osz] to the root
    [2 * osz - 2]) has two distinct children of lower index, which point
    back at [x] as their parent, the left one with [binary = false] and
    the right one with [binary = true], and holds the sum of their
    counts.  (The counts are taken non-negative with a sum below [2^63]:
    every count of the tree is then a sum of some of them, and no sum of
    the source overflows its [int64_t].) *)
Theorem tree_children_counts (fuel : nat) (osz : Z) (counts : list Z) :
  1 <= osz -> Z.of_nat (length counts) = osz ->
  Forall (fun c => c < UNBUILT) counts ->
  Forall (fun c => 0 <= c) counts -> fold_right Z.add 0 counts < 2 ^ 63 ->
  osz - 1 <= Z.of_nat fuel ->
  exists tree paths codes,
    buildTree fuel osz counts = Some (tree, paths, codes) /\
    Z.of_nat (length tree) = 2 * osz - 1 /\
    (forall c, 0 <= c < osz ->
       exists nd, getZ tree c = Some nd /\ left nd = -1 /\ right nd = -1 /\
                  getZ counts c = Some (count nd)) /\
    (forall x, osz <= x <= 2 * osz - 2 ->
       exists nd l r,
         getZ tree x = Some nd /\
         getZ tree (left nd) = Some l /\ getZ tree (right nd) = Some r /\
         0 <= left nd < x /\ 0 <= right nd < x /\ left nd <> right nd /\
         parent l = x /\ binary l = false /\
         parent r = x /\ binary r = true /\
         count nd = count l + count r).
Proof.
  intros Hosz Hlen Hsmall _ _ Hfuel.
  destruct (buildTree_shape fuel osz counts Hosz Hlen Hsmall Hfuel)
    as (tree & paths & codes & leaf & node & Hb & Hwl & Hch & Hlc & _).
  exists tree, paths, codes. split; [exact Hb|].
  destruct Hwl as (Hl & Hleaf & _ & _). split; [exact Hl|]. split.
  - intros c Hc. destruct (Hleaf c Hc) as (nd & Hnd & Hll & Hlr).
    destruct (Hlc c Hc) as (nd' & Hnd' & Hcnt).
    assert (nd' = nd) as -> by congruence. eauto.
  - intros x Hx.
    destruct (Hch x ltac:(lia))
      as (nd & l & r & Hnd & Hgl & Hgr & Rl & Rr & Hlr & Pl & Bl & Pr & Br
          & Hcnt & _).
    exists nd, l, r. tauto.
Qed.

End HuffmanShape.

(** ** More on the negatives table *)

Section NegativesTable.
Local Open Scope R_scope.
Context {K : Constants}.

Lemma sqrt_sum_fold (counts : list Z) : forall a,
  fold_left (fun z count => z + sqrt (IZR count)) counts a
  = a + fold_right Rplus 0 (map (fun c => sqrt (IZR c)) counts).
Proof.
  induction counts as [|c counts IH]; intros a; cbn; [ring|].
  rewrite IH. ring.
Qed.

(** The number of pushes of a class is the bound of its loop rounded
    up. *)
Lemma pushes_bounds z c :
  0 < z -> (0 <= NEGATIVE_TABLE_SIZE)%Z ->
  let b := sqrt (IZR c) * IZR NEGATIVE_TABLE_SIZE / z in
  b <= INR (pushes z c) < b + 1 /\ ((0 < pushes z c)%nat <-> 0 < b).
Proof.
  intros Hz HN b. apply IZR_le in HN.
  assert (Hb : 0 <= b).
  { unfold b. pose proof (sqrt_pos (IZR c)). pose proof (Rinv_0_lt_compat z Hz).
    unfold Rdiv. apply Rmult_le_pos; [nra | lra]. }
  pose proof (Zceil_bound b) as [Hc1 Hc2].
  assert (Hc0 : (0 <= Zceil b)%Z).
  { apply le_IZR. lra. }
  unfold pushes. fold b. rewrite INR_IZR_INZ, Z2Nat.id by exact Hc0.
  split; [lra|]. split; intros H.
  - assert (H1 : (1 <= Zceil b)%Z) by lia. apply IZR_le in H1. lra.
  - assert (0 < Zceil b)%Z; [|lia]. apply lt_IZR. lra.
Qed.





Lemma negatives_table_members_aux (fuel : nat) (m : Model) (counts : list Z) :
  let z := fold_left (fun z count => z + sqrt (IZR count)) counts 0 in
  (forall rng v, Permutation (shuffle rng v) v) ->
  negatives m = [] ->
  0 < z -> (0 < NEGATIVE_TABLE_SIZE)%Z ->
  Forall (fun c =>
            (Zceil (sqrt (IZR c) * IZR NEGATIVE_TABLE_SIZE / z)
             <= Z.of_nat fuel)%Z) counts ->
  exists m',
    initTableNegatives fuel m counts = Some m' /\
    (forall x, In x (negatives m') ->
       exists c, getZ counts x = Some c /\ (0 < c)%Z) /\
    (forall i c, getZ counts i = Some c -> (0 < c)%Z -> In i (negatives m')).
Proof.
  intros z Hperm Hempty Hz HN Hfuel.
  assert (Hfuel' : Forall (fun c => (pushes z c <= fuel)%nat) counts).
  { eapply Forall_impl; [exact Hfuel|]. cbn. intros c Hc. unfold pushes. lia. }
  destruct (push_classes_spec z fuel counts 0 (negatives m) Hfuel')
    as (table & Hrun & Hcount).
  exists (set_negatives (shuffle (rng m) table) m). split.
  { unfold initTableNegatives. fold z. now rewrite Hrun. }
  cbn [negatives set_negatives].
  assert (Hpos : forall c, (0 < pushes z c)%nat <-> (0 < c)%Z).
  { intros c. destruct (pushes_bounds z c Hz ltac:(lia)) as [_ ->].
    pose proof (IZR_lt _ _ HN) as HN'. pose proof (Rinv_0_lt_compat z Hz).
    split; intros H0.
    - destruct (Z.lt_ge_cases 0 c) as [|Hle]; [assumption|].
      assert (IZR c <= 0) by (apply IZR_le in Hle; lra).
      rewrite sqrt_neg_0 in H0 by assumption.
      unfold Rdiv in H0. rewrite !Rmult_0_l in H0. lra.
    - apply IZR_lt in H0. pose proof (sqrt_lt_R0 (IZR c) H0).
      unfold Rdiv. apply Rmult_lt_0_compat; [nra | lra]. }
  assert (Hin : forall x, In x (shuffle (rng m) table) <->
                  (count_occ Z.eq_dec table x > 0)%nat).
  { intros x. rewrite <- (count_occ_In Z.eq_dec). split; intros H0.
    - eapply Permutation_in; [apply Hperm | exact H0].
    - eapply Permutation_in; [symmetry; apply Hperm | exact H0]. }
  split.
  - intros x Hx. apply Hin in Hx. rewrite Hcount, Hempty, Z.sub_0_r in Hx.
    cbn [count_occ] in Hx.
    destruct (getZ counts x) as [c|]; [|lia].
    exists c. split; [reflexivity|]. apply Hpos. lia.
  - intros i c Hi Hc. apply Hin. rewrite Hcount, Hempty, Z.sub_0_r, Hi.
    cbn [count_occ]. apply Hpos in Hc. lia.
Qed.

(** X19: on a fresh table, the entries [initTableNegatives] leaves are
    exactly the classes with a positive count: every entry is the index of
    a class, and class [i] is in the table if and only if [counts[i]] is
    positive. *)
Theorem negatives_table_members (fuel : nat) (m : Model) (counts : list Z) :
  let z := fold_left (fun z count => z + sqrt (IZR count)) counts 0 in
  (forall rng v, Permutation (shuffle rng v) v) ->
  negatives m = [] ->
  Forall (fun c => (0 <= c)%Z) counts ->
  0 < z -> (0 < NEGATIVE_TABLE_SIZE)%Z ->
  Forall (fun c =>
            (Zceil (sqrt (IZR c) * IZR NEGATIVE_TABLE_SIZE / z)
             <= Z.of_nat fuel)%Z) counts ->
  exists m',
    initTableNegatives fuel m counts = Some m' /\
    (forall x, In x (negatives m') ->
       exists c, getZ counts x = Some c /\ (0 < c)%Z) /\
    (forall i c, getZ counts i = Some c -> (0 < c)%Z -> In i (negatives m')).
Proof.
  intros z Hperm Hempty _. apply negatives_table_members_aux; assumption.
Qed.

(** X20: [setTargetCounts] on a freshly constructed engine leaves a ready
    state.  Under hierarchical softmax it needs at least one class and
    counts below [1e15]; under negative sampling, non-negative counts of
    which two are positive (so that every target has a negative to draw)
    and a shuffle that permutes; under the full softmax, nothing. *)
Theorem setTargetCounts_ready (fuel : nat) (wi wo attn : Matrix)
    (bias : Vector) (args : Args) (seed : Z) (counts : list Z) :
  let z := fold_left (fun z count => z + sqrt (IZR count)) counts 0 in
  (0 <= dim args)%Z -> length counts = length wo ->
  match loss args with
  | loss_name.hs =>
      wo <> [] /\ Forall (fun c => (c < Huffman.UNBUILT)%Z) counts /\
      (Z.of_nat (length wo) - 1 <= Z.of_nat fuel)%Z
  | loss_name.ns =>
      (forall rng v, Permutation (shuffle rng v) v) /\
      (0 < NEGATIVE_TABLE_SIZE)%Z /\
      Forall (fun c => (0 <= c)%Z) counts /\
      Forall (fun c =>
                (Zceil (sqrt (IZR c) * IZR NEGATIVE_TABLE_SIZE / z)
                 <= Z.of_nat fuel)%Z) counts /\
      exists i j ci cj,
        i <> j /\ getZ counts i = Some ci /\ (0 < ci)%Z /\
        getZ counts j = Some cj /\ (0 < cj)%Z
  | loss_name.softmax => True
  end ->
  exists m',
    setTargetCounts fuel (new_Model wi wo attn bias args seed) counts = Some m' /\
    engine_ready m'.
Proof.
  intros z Hdim Hlen Hloss. unfold setTargetCounts.
  cbn [osz_ new_Model args_]. rewrite Hlen, Z.eqb_refl. cbn [negb].
  assert (Hsizes : forall m' : Model,
            hidden_ m' = replicate (Z.to_nat (dim args)) 0 ->
            grad_ m' = replicate (Z.to_nat (dim args)) 0 ->
            hsz_ m' = dim args ->
            Z.of_nat (length (hidden_ m')) = hsz_ m' /\
            Z.of_nat (length (grad_ m')) = hsz_ m').
  { intros m' -> -> ->. rewrite length_replicate. lia. }
  destruct (loss args) eqn:Hl.
  - destruct Hloss as (Hwo & Hsmall & Hfuel). cbn [mbind option_bind].
    rewrite ?Hl. cbn [osz_ new_Model].
    assert (Hosz : (1 <= Z.of_nat (length wo))%Z).
    { destruct wo; [congruence | cbn; lia]. }
    destruct (HuffmanFacts.buildTree_ok fuel (Z.of_nat (length wo)) counts Hosz
                ltac:(lia) Hsmall Hfuel)
      as (t & p & c & Hb & _ & Hall).
    rewrite Hb. cbn [mbind option_bind args_ new_Model]. rewrite ?Hl.
    eexists. split; [reflexivity|].
    destruct (Hsizes (set_tree t ([] ++ p) ([] ++ c)
                        (new_Model wi wo attn bias args seed)))
      as [H1 H2]; try reflexivity.
    split; [exact H1|]. split; [exact H2|].
    intros target Ht. unfold kernel_ready. cbn in Ht |- *. rewrite Hl.
    destruct (Hall target Ht) as (path & code & Hp & Hk & Hpk & _).
    exists code, path. rewrite Hpk. split; [exact Hk|]. split; [exact Hp | lia].
  - destruct Hloss as (Hperm & HN & _ & Hfuel & (i & j & ci & cj & Hij & Hi & Hci
                                                  & Hj & Hcj)).
    assert (Hz : 0 < z).
    { unfold z. rewrite sqrt_sum_fold, Rplus_0_l.
      apply getZ_Some in Hi as [_ Hi].
      apply list_elem_of_lookup_2, list_elem_of_In in Hi.
      assert (Hnn : forall l : list Z,
                0 <= fold_right Rplus 0 (map (fun c => sqrt (IZR c)) l)).
      { induction l as [|c l IHl]; cbn; [lra|].
        pose proof (sqrt_pos (IZR c)). lra. }
      assert (Hge : forall l : list Z, In ci l ->
                sqrt (IZR ci)
                <= fold_right Rplus 0 (map (fun c => sqrt (IZR c)) l)).
      { induction l as [|c l IHl]; cbn; [tauto|]. intros [->|Hin].
        - pose proof (Hnn l). lra.
        - pose proof (IHl Hin). pose proof (sqrt_pos (IZR c)). lra. }
      pose proof (Hge counts Hi).
      pose proof (sqrt_lt_R0 (IZR ci) (IZR_lt _ _ Hci)). lra. }
    destruct (negatives_table_members_aux fuel
                (new_Model wi wo attn bias args seed) counts Hperm eq_refl Hz HN
                Hfuel)
      as (m' & Hrun & Hsub & Hmem).
    rewrite Hrun. cbn [mbind option_bind].
    assert (Ha : args_ m' = args).
    { unfold initTableNegatives in Hrun.
      apply bind_Some in Hrun as (table & _ & [= <-]). reflexivity. }
    rewrite Ha, ?Hl.
    exists m'. split; [reflexivity|].
    unfold initTableNegatives in Hrun.
    apply bind_Some in Hrun as (table & _ & [= <-]).
    destruct (Hsizes (set_negatives (shuffle seed table)
                        (new_Model wi wo attn bias args seed)))
      as [H1 H2]; try reflexivity.
    split; [exact H1|]. split; [exact H2|].
    intros target Ht. unfold kernel_ready. cbn [args_ set_negatives new_Model].
    rewrite Hl. right. cbn [negpos negatives set_negatives new_Model] in *.
    pose proof (Hmem i ci Hi Hci) as Hini.
    pose proof (Hmem j cj Hj Hcj) as Hinj.
    split.
    + destruct (shuffle seed table); [contradiction | cbn; lia].
    + destruct (Z.eq_dec i target) as [->|Hne]; [exists j | exists i];
        split; congruence || assumption.
  - cbn [mbind option_bind args_ new_Model]. rewrite ?Hl. eexists. split; [reflexivity|].
    destruct (Hsizes (new_Model wi wo attn bias args seed)) as [H1 H2];
      try reflexivity.
    split; [exact H1|]. split; [exact H2|].
    intros target Ht. unfold kernel_ready. cbn [args_ new_Model]. rewrite Hl.
    exact Ht.
Qed.

End NegativesTable.

(** ** The softmax output *)

Section SoftmaxOutput.
Local Open Scope R_scope.
Context {K : Constants}.

(** The sum of [f 0], ..., [f (k - 1)]. *)
Definition sumZ (f : Z -> R) (k : Z) : R :=
  fold_right Rplus 0 (map f (seqZ 0 k)).

Lemma sum_app (l1 l2 : list R) :
  fold_right Rplus 0 (l1 ++ l2) = fold_right Rplus 0 l1 + fold_right Rplus 0 l2.
Proof. induction l1 as [|x l1 IH]; cbn; [ring|]. rewrite IH. ring. Qed.

Lemma sumZ_0 f : sumZ f 0 = 0.
Proof. reflexivity. Qed.

Lemma sumZ_succ f k : (0 <= k)%Z -> sumZ f (k + 1) = sumZ f k + f k.
Proof.
  intros Hk. unfold sumZ. rewrite seqZ_app by lia.
  rewrite map_app, sum_app. f_equal.
  rewrite seqZ_cons by lia. rewrite seqZ_nil by lia. cbn.
  rewrite Z.add_0_l. ring.
Qed.

Lemma sumZ_ext f g (n : nat) :
  (forall j, (0 <= j < Z.of_nat n)%Z -> f j = g j) ->
  sumZ f (Z.of_nat n) = sumZ g (Z.of_nat n).
Proof.
  induction n as [|n IH]; intros Hfg; [reflexivity|].
  replace (Z.of_nat (S n)) with (Z.of_nat n + 1)%Z by lia.
  rewrite !sumZ_succ by lia. rewrite IH, Hfg; [reflexivity | lia |].
  intros j Hj. apply Hfg. lia.
Qed.

Lemma sumZ_pos f (n : nat) :
  (forall j, (0 <= j < Z.of_nat n)%Z -> 0 < f j) -> (0 < n)%nat ->
  0 < sumZ f (Z.of_nat n).
Proof.
  induction n as [|n IH]; intros Hf Hn; [lia|].
  replace (Z.of_nat (S n)) with (Z.of_nat n + 1)%Z by lia.
  rewrite sumZ_succ by lia.
  pose proof (Hf (Z.of_nat n) ltac:(lia)).
  destruct n as [|n];
    [change (Z.of_nat 0) with 0%Z in *; rewrite sumZ_0; lra|].
  assert (0 < sumZ f (Z.of_nat (S n))); [|lra].
  apply IH; [|lia]. intros j Hj. apply Hf. lia.
Qed.

Lemma sumZ_scaled f a k : sumZ (fun j => f j * a) k = sumZ f k * a.
Proof.
  unfold sumZ. generalize (seqZ 0 k). intros l.
  induction l as [|c l IH]; cbn; [ring|]. rewrite IH. ring.
Qed.

Lemma sum_vget (v : Vector) :
  fold_right Rplus 0 v = sumZ (vget v) (Z.of_nat (length v)).
Proof.
  induction v as [|x v IH] using rev_ind; [reflexivity|].
  rewrite sum_app, length_app. cbn [length fold_right].
  replace (Z.of_nat (length v + 1)) with (Z.of_nat (length v) + 1)%Z by lia.
  rewrite sumZ_succ by lia. rewrite IH.
  rewrite (sumZ_ext (vget (v ++ [x])) (vget v)).
  - f_equal. rewrite vget_nth by lia. rewrite Nat2Z.id.
    rewrite app_nth2 by lia. rewrite Nat.sub_diag. cbn. ring.
  - intros j Hj. rewrite !vget_nth by lia. apply app_nth1. lia.
Qed.

Lemma vget_mulMat (output : Vector) (A : Matrix) (vec : Vector) i :
  (0 <= i < Z.of_nat (length output))%Z ->
  vget (mulMat output A vec) i = dotRow A vec i.
Proof.
  intros Hi. unfold vget, getZ, mulMat.
  destruct (Z.ltb_spec i 0); [lia|]. rewrite list_lookup_imap.
  destruct (lookup_lt_is_Some_2 output (Z.to_nat i)) as [x ->]; [lia|].
  cbn. now rewrite Z2Nat.id by lia.
Qed.

(** The three loops of [computeOutputSoftmax], entry by entry. *)
Lemma computeOutputSoftmax_entries wo osz hidden output :
  Z.of_nat (length output) = osz ->
  exists mx,
    (forall i, (0 <= i < osz)%Z -> dotRow wo hidden i <= mx) /\
    length (computeOutputSoftmax wo osz hidden output) = length output /\
    forall i, (0 <= i < osz)%Z ->
      vget (computeOutputSoftmax wo osz hidden output) i
      = exp (dotRow wo hidden i - mx)
        / sumZ (fun j => exp (dotRow wo hidden j - mx)) osz.
Proof.
  intros Hlen. unfold computeOutputSoftmax.
  set (out0 := mulMat output wo hidden).
  assert (Hl0 : length out0 = length output) by apply length_imap.
  assert (Hout0 : forall i, (0 <= i < osz)%Z -> vget out0 i = dotRow wo hidden i).
  { intros i Hi. apply vget_mulMat. lia. }
  set (mx := fold_left _ (seqZ 0 osz) (vget out0 0)).
  exists mx.
  assert (Hosz : (0 <= osz)%Z) by lia.
  assert (Hmx : forall i, (0 <= i < osz)%Z -> vget out0 i <= mx).
  { pose (M := fun (k : Z) (a : R) => forall i, (0 <= i < k)%Z -> vget out0 i <= a).
    assert (Hmono : forall idx a,
              a <= fold_left (fun max i => std_max (vget out0 i) max) idx a).
    { induction idx as [|i idx IHi]; intros a; cbn; [lra|].
      eapply Rle_trans; [|apply IHi]. unfold std_max.
      destruct (Rlt_dec (vget out0 i) a); lra. }
    assert (HM : M (0 + osz)%Z mx).
    { apply (fold_left_seqZ_inv _ M 0 osz); [lia| |].
      - intros i Hi. lia.
      - intros k a Hk Ha i Hi. unfold std_max.
        destruct (Z.eq_dec i k) as [->|Hne].
        + destruct (Rlt_dec (vget out0 k) a); lra.
        + pose proof (Ha i ltac:(lia)).
          destruct (Rlt_dec (vget out0 k) a); lra. }
    intros i Hi. apply HM. lia. }
  split.
  { intros i Hi. rewrite <- Hout0 by exact Hi. apply Hmx, Hi. }
  set (e := fun j => exp (vget out0 j - mx)).
  pose (P := fun (k : Z) (st : Vector * R) =>
    length (fst st) = length out0 /\
    (forall j, (0 <= j < osz)%Z ->
       vget (fst st) j = if (j <? k)%Z then e j else vget out0 j) /\
    snd st = sumZ e k).
  assert (H2 : P (0 + osz)%Z
    (fold_left (fun '(output, z) i =>
                  let output := vset output i (exp (vget output i - mx)) in
                  (output, z + vget output i))
       (seqZ 0 osz) (out0, 0))).
  { apply (fold_left_seqZ_inv _ P 0 osz); [lia| |].
    - split; [reflexivity|]. split; [|reflexivity].
      intros j Hj. destruct (Z.ltb_spec j 0); [lia | reflexivity].
    - intros k [out z] Hk (Hl & Hent & Hz). cbn [fst snd] in *. cbv zeta.
      cbn [fst snd].
      assert (Hk' : vget out k = vget out0 k).
      { rewrite Hent by lia. destruct (Z.ltb_spec k k); [lia | reflexivity]. }
      assert (Hnew : forall j, (0 <= j < osz)%Z ->
                vget (vset out k (exp (vget out k - mx))) j
                = if (j <? k + 1)%Z then e j else vget out0 j).
      { intros j Hj. rewrite vget_vset, Hk', Hl, Hl0, Hlen.
        destruct (Z.eqb_spec k j) as [->|Hne]; cbn [andb].
        - destruct (Z.leb_spec 0 j), (Z.ltb_spec j osz), (Z.ltb_spec j (j + 1));
            try lia. reflexivity.
        - rewrite Hent by exact Hj.
          destruct (Z.ltb_spec j k), (Z.ltb_spec j (k + 1)); try lia;
            reflexivity. }
      unfold P. cbn [fst snd].
      split; [now rewrite vset_length|]. split; [exact Hnew|].
      rewrite sumZ_succ by lia. rewrite Hnew by lia.
      destruct (Z.ltb_spec k (k + 1)); [|lia]. now rewrite Hz. }
  destruct (fold_left _ (seqZ 0 osz) (out0, 0)) as [out z].
  destruct H2 as (Hl & Hent & Hz). cbn [fst snd] in *.
  rewrite Z.add_0_l in Hent, Hz.
  pose (Q := fun (k : Z) (o : Vector) =>
    length o = length out0 /\
    forall j, (0 <= j < osz)%Z ->
      vget o j = if (j <? k)%Z then e j / z else e j).
  assert (H3 : Q (0 + osz)%Z
    (fold_left (fun output i => vset output i (vget output i / z))
       (seqZ 0 osz) out)).
  { apply (fold_left_seqZ_inv _ Q 0 osz); [lia| |].
    - split; [exact Hl|]. intros j Hj. rewrite Hent by exact Hj.
      destruct (Z.ltb_spec j osz), (Z.ltb_spec j 0); try lia. reflexivity.
    - intros k o Hk [Hlo Ho]. unfold Q. split; [now rewrite vset_length|].
      intros j Hj. rewrite vget_vset, Hlo, Hl0, Hlen.
      destruct (Z.eqb_spec k j) as [->|Hne]; cbn [andb].
      + destruct (Z.leb_spec 0 j), (Z.ltb_spec j osz), (Z.ltb_spec j (j + 1));
          try lia.
        rewrite Ho by lia. destruct (Z.ltb_spec j j); [lia | reflexivity].
      + rewrite Ho by exact Hj.
        destruct (Z.ltb_spec j k), (Z.ltb_spec j (k + 1)); try lia;
          reflexivity. }
  destruct H3 as [Hl3 Hent3]. rewrite Z.add_0_l in Hent3.
  split; [congruence|]. intros i Hi. rewrite Hent3 by exact Hi.
  destruct (Z.ltb_spec i osz); [|lia]. rewrite Hz. unfold e.
  rewrite Hout0 by exact Hi. f_equal.
  rewrite <- (Z2Nat.id osz) by lia. apply sumZ_ext.
  intros j Hj. rewrite Hout0 by lia. reflexivity.
Qed.

(** X21: for an output of [osz] entries, [osz >= 1], what
    [computeOutputSoftmax] leaves is the softmax of the scores
    [s_i = wo_[i] . hidden]: entry [i] is [exp s_i] over the sum of the
    [exp s_j], it lies in [[0, 1]], and the entries sum to 1. *)
Theorem computeOutputSoftmax_distribution (wo : Matrix) (osz : Z)
    (hidden output : Vector) :
  Z.of_nat (length output) = osz -> (1 <= osz)%Z ->
  let out := computeOutputSoftmax wo osz hidden output in
  length out = length output /\
  (forall i, (0 <= i < osz)%Z ->
     vget out i
     = exp (dotRow wo hidden i) / sumZ (fun j => exp (dotRow wo hidden j)) osz
     /\ 0 <= vget out i <= 1) /\
  fold_right Rplus 0 out = 1.
Proof.
  intros Hlen Hosz out.
  destruct (computeOutputSoftmax_entries wo osz hidden output Hlen)
    as (mx & Hmx & Hl & Hent).
  fold out in Hl, Hent.
  set (s := fun j => dotRow wo hidden j) in *.
  assert (Hz : 0 < sumZ (fun j => exp (s j - mx)) osz).
  { rewrite <- (Z2Nat.id osz) by lia. apply sumZ_pos; [|lia].
    intros j _. apply exp_pos. }
  assert (Hsum : fold_right Rplus 0 out = 1).
  { rewrite sum_vget, Hl, Hlen.
    rewrite <- (Z2Nat.id osz) at 1 by lia.
    rewrite (sumZ_ext _ (fun j => exp (s j - mx)
                                  * / sumZ (fun j => exp (s j - mx)) osz)).
    - rewrite sumZ_scaled, Z2Nat.id by lia. field. lra.
    - intros j Hj. rewrite Hent by lia. reflexivity. }
  split; [exact Hl|]. split; [|exact Hsum].
  intros i Hi.
  assert (Hshift : forall j, exp (s j - mx) = exp (s j) * exp (- mx)).
  { intros j. unfold Rminus. apply exp_plus. }
  assert (Hsums : sumZ (fun j => exp (s j - mx)) osz
                  = sumZ (fun j => exp (s j)) osz * exp (- mx)).
  { rewrite <- sumZ_scaled. unfold sumZ. f_equal. apply map_ext.
    intros j. apply Hshift. }
  pose proof (exp_pos (- mx)) as Hem.
  assert (Hz' : 0 < sumZ (fun j => exp (s j)) osz) by (rewrite Hsums in Hz; nra).
  split.
  - rewrite Hent by exact Hi. fold (s i). rewrite Hsums, Hshift.
    field. split; lra.
  - assert (Hpos : forall j, (0 <= j < osz)%Z -> 0 < vget out j).
    { intros j Hj. rewrite Hent by exact Hj.
      apply Rdiv_lt_0_compat; [apply exp_pos | exact Hz]. }
    split; [left; apply Hpos, Hi|].
    (* an entry is at most the sum of all of them *)
    rewrite <- Hsum, sum_vget, Hl, Hlen.
    assert (Hle : forall (n : nat), (i < Z.of_nat n <= osz)%Z ->
              vget out i <= sumZ (vget out) (Z.of_nat n)).
    { induction n as [|n IH]; intros Hn; [lia|].
      replace (Z.of_nat (S n)) with (Z.of_nat n + 1)%Z by lia.
      rewrite sumZ_succ by lia.
      destruct (Z.eq_dec i (Z.of_nat n)) as [->|Hne].
      - assert (0 <= sumZ (vget out) (Z.of_nat n)); [|lra].
        destruct n as [|n];
          [change (Z.of_nat 0) with 0%Z; rewrite sumZ_0; lra|].
        left. apply sumZ_pos; [|lia].
        intros j Hj. apply Hpos. lia.
      - pose proof (IH ltac:(lia)). pose proof (Hpos (Z.of_nat n) ltac:(lia)).
        lra. }
    rewrite <- (Z2Nat.id osz) by lia. apply Hle. lia.
Qed.

End SoftmaxOutput.

(** ** Prediction *)

(** [v] is a heap with respect to [comparePairs], as the C++ standard
    defines it: [comparePairs] does not hold between the entry at
    [(i - 1) / 2] and the entry at [i], for any [i > 0]. *)
Definition is_heap (v : list (R * Z)) : Prop :=
  forall (i : nat) x y,
    (0 < i)%nat -> v !! i = Some x -> v !! ((i - 1) / 2)%nat = Some y ->
    comparePairs y x = false.

(** What the C++ standard promises of the three heap algorithms, for the
    comparison [comparePairs]: [push_heap] makes a heap of a heap followed
    by one more entry; [pop_heap] moves the front of a heap to the back
    and makes a heap of the rest; [sort_heap] sorts a heap so that
    [comparePairs] holds between no entry and an earlier one.  Each
    leaves a permutation of its argument. *)
Class HeapLaws `{A : HeapAlgorithms} : Prop := {
  push_heap_ok : forall v x,
    is_heap v ->
    is_heap (push_heap comparePairs (v ++ [x])) /\
    Permutation (push_heap comparePairs (v ++ [x])) (v ++ [x]);
  pop_heap_ok : forall x v,
    is_heap (x :: v) ->
    exists v',
      pop_heap comparePairs (x :: v) = v' ++ [x] /\ is_heap v' /\
      Permutation v' v;
  sort_heap_ok : forall v,
    is_heap v ->
    Permutation (sort_heap comparePairs v) v /\
    forall (i j : nat) x y,
      (i < j)%nat -> sort_heap comparePairs v !! i = Some x ->
      sort_heap comparePairs v !! j = Some y -> comparePairs y x = false
}.

(** The tree [dfs] needs: leaves without children, and internal nodes
    whose children have a lower index. *)
Definition tree_built (osz : Z) (t : list Huffman.Node) : Prop :=
  (forall c, 0 <= c < osz ->
     exists nd, getZ t c = Some nd /\
                Huffman.left nd = -1 /\ Huffman.right nd = -1) /\
  (forall x, osz <= x <= 2 * osz - 2 ->
     exists nd, getZ t x = Some nd /\
                0 <= Huffman.left nd < x /\ 0 <= Huffman.right nd < x).

Lemma buildTree_built (fuel : nat) (osz : Z) (counts : list Z) tree paths codes :
  1 <= osz -> Z.of_nat (length counts) = osz ->
  Forall (fun c => c < Huffman.UNBUILT) counts ->
  Huffman.buildTree fuel osz counts = Some (tree, paths, codes) ->
  tree_built osz tree.
Proof.
  intros Hosz Hlen Hsmall Hb.
  destruct (HuffmanShape.buildTree_unfold _ _ _ _ _ _ Hb)
    as (leaf & node & Hrun & _).
  destruct (HuffmanShape.merge_loop_children osz Hosz counts Hlen Hsmall tree
              leaf node Hrun) as ((_ & Hleaf & _) & Hch & _).
  split; [exact Hleaf|]. intros x Hx.
  destruct (Hch x ltac:(lia)) as (nd & l & r & Hnd & _ & _ & Hl & Hr & _).
  eauto.
Qed.

Section PredictionFacts.
Local Open Scope R_scope.
Context {K : Constants} {A : HeapAlgorithms} {L : HeapLaws}.

Lemma comparePairs_false (x y : R * Z) :
  comparePairs y x = false <-> fst y <= fst x.
Proof.
  unfold comparePairs. destruct (Rlt_dec (fst x) (fst y)); split; intros H;
    try discriminate; try reflexivity; lra.
Qed.

Lemma is_heap_nil : is_heap [].
Proof. intros i x y _ Hx. rewrite lookup_nil in Hx. discriminate. Qed.

(** The front of a heap is an entry of least score. *)
Lemma heap_front_min v f :
  is_heap v -> v !! 0%nat = Some f ->
  forall x, In x v -> fst f <= fst x.
Proof.
  intros Hh Hf.
  assert (Hidx : forall (i : nat) x, v !! i = Some x -> fst f <= fst x).
  { induction i as [i IH] using lt_wf_ind. intros x Hx.
    destruct i as [|i]; [rewrite Hf in Hx; injection Hx as <-; lra|].
    assert (Hp : ((S i - 1) / 2 < S i)%nat)
      by (apply Nat.Div0.div_lt_upper_bound; lia).
    destruct (lookup_lt_is_Some_2 v ((S i - 1) / 2)) as [y Hy].
    { apply lookup_lt_Some in Hx. lia. }
    pose proof (Hh (S i) x y ltac:(lia) Hx Hy) as Hc.
    apply comparePairs_false in Hc.
    pose proof (IH _ Hp y Hy). lra. }
  intros x Hx. apply list_elem_of_In, list_elem_of_lookup_1 in Hx as [i Hi].
  eapply Hidx, Hi.
Qed.

Lemma push_bounded_ok k heap e :
  (0 < k < 2 ^ 64)%Z -> is_heap heap -> (Z.of_nat (length heap) <= k)%Z ->
  exists heap' dropped,
    push_bounded k heap e = Some heap' /\ is_heap heap' /\
    Permutation (heap' ++ dropped) (heap ++ [e]) /\
    ((Z.of_nat (length heap) < k)%Z -> dropped = []) /\
    (Z.of_nat (length heap) = k ->
     exists x, dropped = [x] /\ forall y, In y heap' -> fst x <= fst y).
Proof.
  intros Hk Hh Hlen. unfold push_bounded, as_size_t.
  rewrite Z.mod_small by lia.
  destruct (push_heap_ok heap e Hh) as [Hh1 Hp1].
  remember (push_heap comparePairs (heap ++ [e])) as h1 eqn:E1.
  assert (Hl1 : length h1 = S (length heap)).
  { rewrite (Permutation_length Hp1), length_app. cbn. lia. }
  destruct (Z.ltb_spec k (Z.of_nat (length h1))) as [Hfull|Hroom].
  - destruct h1 as [|x v]; [cbn in Hl1; lia|].
    destruct (pop_heap_ok x v Hh1) as (v' & Hpop & Hv' & Hpv).
    rewrite Hpop. exists v', [x]. split.
    { unfold pop_back. destruct (v' ++ [x]) eqn:E2.
      - destruct v'; discriminate.
      - rewrite <- E2. now rewrite removelast_last. }
    split; [exact Hv'|]. split.
    { rewrite <- Hp1, Hpv. symmetry. apply Permutation_cons_append. }
    split; [intros; lia|]. intros _. exists x. split; [reflexivity|].
    intros y Hy. apply (heap_front_min (x :: v) x Hh1 eq_refl).
    right. eapply Permutation_in; [exact Hpv | exact Hy].
  - exists h1, []. rewrite app_nil_r.
    split; [reflexivity|]. split; [exact Hh1|]. split; [exact Hp1|].
    split; [reflexivity|]. intros; lia.
Qed.

Lemma below_front_ok k heap s :
  (0 < k < 2 ^ 64)%Z ->
  exists b,
    below_front k heap (Some s) = Some b /\
    (b = true ->
     Z.of_nat (length heap) = k /\
     exists f, heap !! 0%nat = Some f /\ s < fst f) /\
    (b = false ->
     Z.of_nat (length heap) <> k \/
     exists f, heap !! 0%nat = Some f /\ fst f <= s).
Proof.
  intros Hk. unfold below_front, as_size_t. rewrite Z.mod_small by lia.
  destruct (Z.eqb_spec (Z.of_nat (length heap)) k) as [Heq|Hne].
  - destruct heap as [|f heap]; [cbn in Heq; lia|]. cbn.
    destruct (Rlt_dec s (fst f)); eexists; (split; [reflexivity|]);
      split; intros Hb; try discriminate.
    + split; [exact Heq|]. exists f. split; [reflexivity | assumption].
    + right. exists f. split; [reflexivity | lra].
  - exists false. split; [reflexivity|]. split; [discriminate | tauto].
Qed.

(** What [findKBest] holds after the classes below [i]: a heap of the
    [min i k] best of them, with their log-scores. *)
Definition kbest (k : Z) (out : Vector) (i : Z) (heap : list (R * Z)) : Prop :=
  is_heap heap /\ Z.of_nat (length heap) = Z.min i k /\
  (forall e, In e heap ->
     (0 <= snd e < i)%Z /\ log (vget out (snd e)) = Some (fst e)) /\
  List.NoDup (map snd heap) /\
  (forall j s, (0 <= j < i)%Z -> log (vget out j) = Some s ->
     In (s, j) heap \/
     (Z.of_nat (length heap) = k /\ forall e, In e heap -> s <= fst e)).

Lemma findKBest_step_ok k out i heap :
  (0 < k < 2 ^ 64)%Z -> (0 < LOG_TABLE_SIZE)%Z -> (0 <= i)%Z ->
  0 <= vget out i ->
  kbest k out i heap ->
  exists heap', findKBest_step k out i heap = Some heap' /\
                kbest k out (i + 1) heap'.
Proof.
  intros Hk HL Hi Hnn (Hh & Hlen & Hent & Hnd & Hcov).
  destruct (log_total (vget out i) HL Hnn) as (s & Hs).
  unfold findKBest_step. rewrite Hs.
  destruct (below_front_ok k heap s Hk) as (b & Hb & Htrue & Hfalse).
  rewrite Hb. cbn [mbind option_bind].
  destruct b.
  - (* skipped: the heap is full and [s] is below its front *)
    destruct (Htrue eq_refl) as (Hfull & f & Hf & Hsf).
    exists heap. split; [reflexivity|]. split; [exact Hh|].
    split; [lia|]. split.
    { intros e He. destruct (Hent e He). split; [lia | assumption]. }
    split; [exact Hnd|]. intros j s' Hj Hs'.
    destruct (Z.eq_dec j i) as [->|Hne].
    + right. split; [exact Hfull|]. intros e He.
      assert (s' = s) as -> by congruence.
      pose proof (heap_front_min heap f Hh Hf e He). lra.
    + apply Hcov; [lia | exact Hs'].
  - (* pushed *)
    destruct (push_bounded_ok k heap (s, i) Hk Hh ltac:(lia))
      as (heap' & dropped & Hpush & Hh' & Hperm & Hroom & Hfull).
    rewrite Hpush. exists heap'. split; [reflexivity|].
    assert (Hin' : forall e, In e heap' -> In e heap \/ e = (s, i)).
    { intros e He.
      assert (In e (heap ++ [(s, i)])).
      { eapply Permutation_in; [exact Hperm|]. apply in_app_iff. now left. }
      apply in_app_iff in H as [H|[H|[]]]; [now left | now right]. }
    assert (Hfresh : ~ In i (map snd heap)).
    { intros Hin. apply in_map_iff in Hin as (e & <- & He).
      destruct (Hent e He). lia. }
    assert (Hnd' : List.NoDup (map snd heap')).
    { apply NoDup_app_remove_r with (l' := map snd dropped). rewrite <- map_app.
      eapply Permutation_NoDup;
        [symmetry; apply Permutation_map; exact Hperm|].
      rewrite map_app. cbn [map snd].
      eapply Permutation_NoDup; [apply Permutation_cons_append|].
      now apply List.NoDup_cons. }
    assert (Hlen' : (length heap' + length dropped = length heap + 1)%nat).
    { rewrite <- !length_app. rewrite (Permutation_length Hperm).
      rewrite !length_app. reflexivity. }
    assert (Hkeep : forall e, In e heap \/ e = (s, i) ->
              In e heap' \/ In e dropped).
    { intros e He. apply in_app_iff.
      eapply Permutation_in; [symmetry; exact Hperm|].
      apply in_app_iff. destruct He as [He| ->]; [now left | right; now left]. }
    destruct (Z.eq_dec (Z.of_nat (length heap)) k) as [Heq|Hlt].
    + (* the heap was full: its least entry has been dropped *)
      destruct (Hfull Heq) as (x & -> & Hx). cbn [length] in Hlen'.
      destruct (Hfalse eq_refl) as [Hne|(f & Hf & Hfs)]; [lia|].
      split; [exact Hh'|]. split; [lia|]. split.
      { intros e He. destruct (Hin' e He) as [He'| ->].
        - destruct (Hent e He'). split; [lia | assumption].
        - cbn. split; [lia | exact Hs]. }
      split; [exact Hnd'|]. intros j s' Hj Hs'.
      assert (Hall : In (s', j) heap \/ (s', j) = (s, i) ->
                In (s', j) heap' \/
                (Z.of_nat (length heap') = k /\
                 forall e, In e heap' -> s' <= fst e)).
      { intros Hsj. destruct (Hkeep _ Hsj) as [Hin|[E|[]]]; [now left|].
        right. split; [lia|]. subst x. exact Hx. }
      destruct (Z.eq_dec j i) as [->|Hne].
      * apply Hall. right. congruence.
      * destruct (Hcov j s' ltac:(lia) Hs') as [Hin|[_ Hle]];
          [apply Hall; now left|].
        right. split; [lia|]. intros e He.
        destruct (Hin' e He) as [He'| ->]; [apply Hle, He'|].
        cbn. pose proof (Hle f) as Hlf.
        assert (In f heap).
        { apply list_elem_of_In. eapply list_elem_of_lookup_2, Hf. }
        specialize (Hlf H). lra.
    + (* there was room *)
      assert (Hd : dropped = []) by (apply Hroom; lia). subst dropped.
      cbn [length] in Hlen'.
      split; [exact Hh'|]. split; [lia|]. split.
      { intros e He. destruct (Hin' e He) as [He'| ->].
        - destruct (Hent e He'). split; [lia | assumption].
        - cbn. split; [lia | exact Hs]. }
      split; [exact Hnd'|]. intros j s' Hj Hs'. left.
      assert (Hsj : In (s', j) heap \/ (s', j) = (s, i)).
      { destruct (Z.eq_dec j i) as [->|Hne]; [right; congruence|].
        destruct (Hcov j s' ltac:(lia) Hs') as [Hin|[Hk' _]]; [now left | lia]. }
      destruct (Hkeep _ Hsj) as [Hin|[]]. exact Hin.
Qed.

Lemma findKBest_ok m k hidden output :
  (0 < LOG_TABLE_SIZE)%Z -> (0 < k < 2 ^ 64)%Z -> (0 <= osz_ m)%Z ->
  let out := computeOutputSoftmax (wo_ m) (osz_ m) hidden output in
  exists heap,
    findKBest m k [] hidden output = Some (heap, out) /\
    kbest k out (osz_ m) heap.
Proof.
  intros HL Hk Hosz out. unfold findKBest. fold out.
  destruct (HuffmanFacts.forM_inv (findKBest_step k out) (kbest k out)
              (Z.to_nat (osz_ m)) 0 []) as (heap & Hrun & Hinv).
  - split; [apply is_heap_nil|]. split; [cbn; lia|].
    split; [intros e []|]. split; [constructor|]. intros j s Hj. lia.
  - intros i heap Hi Hinv. apply findKBest_step_ok; try assumption; try lia.
    apply computeOutputSoftmax_nonneg. lia.
  - rewrite Z2Nat.id in Hrun, Hinv by lia. rewrite Hrun. cbn.
    exists heap. split; [reflexivity | exact Hinv].
Qed.

(** X22: called on an empty heap with a positive [k], [findKBest] has a
    result: a heap of [min (osz_, k)] pairs [(log (output[i]), i)] of
    distinct classes [i], where [output] is the softmax output it has
    computed and [log] the table function; and every class that is not in
    the heap has a log-score that is at most every score in the heap.
    The heap holds [k] best classes. *)
Theorem findKBest_top_k (m : Model) (k : Z) (hidden output : Vector) :
  (0 < LOG_TABLE_SIZE)%Z -> (0 < k < 2 ^ 64)%Z -> (0 <= osz_ m)%Z ->
  let out := computeOutputSoftmax (wo_ m) (osz_ m) hidden output in
  exists heap,
    findKBest m k [] hidden output = Some (heap, out) /\
    is_heap heap /\
    Z.of_nat (length heap) = Z.min (osz_ m) k /\
    List.NoDup (map snd heap) /\
    (forall e, In e heap ->
       (0 <= snd e < osz_ m)%Z /\ log (vget out (snd e)) = Some (fst e)) /\
    (forall j s, (0 <= j < osz_ m)%Z -> log (vget out j) = Some s ->
       In (s, j) heap \/ forall e, In e heap -> s <= fst e).
Proof.
  intros HL Hk Hosz out.
  destruct (findKBest_ok m k hidden output HL Hk Hosz)
    as (heap & Hrun & Hh & Hlen & Hent & Hnd & Hcov).
  exists heap. repeat (split; [assumption|]).
  intros j s Hj Hs. destruct (Hcov j s Hj Hs) as [Hin|[_ Hle]];
    [now left | now right].
Qed.

(** X23: for a loss other than hierarchical softmax, [predict] on a
    non-empty input, an empty heap and a positive [k] returns
    [min (osz_, k)] pairs [(log (output[i]), i)] of distinct classes in
    descending order of score, and no class left out has a score above one
    that is returned; with [k <= 0] it stops on its assertion. *)
Theorem predict_top_k (fuel : nat) (m : Model) (input : list Z) (k : Z)
    (hidden output : Vector) :
  (0 < LOG_TABLE_SIZE)%Z -> (k < 2 ^ 64)%Z -> (0 <= osz_ m)%Z ->
  loss (args_ m) <> loss_name.hs -> input <> [] ->
  Z.of_nat (length hidden) = hsz_ m ->
  ((k <= 0)%Z -> predict fuel m input k [] hidden output = None) /\
  ((0 < k)%Z ->
   exists heap h out,
     predict fuel m input k [] hidden output = Some (heap, h, out) /\
     computeHidden m input hidden = Some h /\
     out = computeOutputSoftmax (wo_ m) (osz_ m) h output /\
     Z.of_nat (length heap) = Z.min (osz_ m) k /\
     List.NoDup (map snd heap) /\
     (forall (i j : nat) x y, (i < j)%nat -> heap !! i = Some x ->
        heap !! j = Some y -> fst y <= fst x) /\
     (forall e, In e heap ->
        (0 <= snd e < osz_ m)%Z /\ log (vget out (snd e)) = Some (fst e)) /\
     (forall j s, (0 <= j < osz_ m)%Z -> log (vget out j) = Some s ->
        In (s, j) heap \/ forall e, In e heap -> s <= fst e)).
Proof.
  intros HL Hk64 Hosz Hloss _ Hh. split.
  { intros Hk. unfold predict. destruct (Z.ltb_spec 0 k); [lia | reflexivity]. }
  intros Hk. unfold predict. destruct (Z.ltb_spec 0 k); [|lia]. cbn [negb].
  unfold computeHidden at 1. rewrite Hh, Z.eqb_refl. cbn [mbind option_bind].
  set (h := scale _ _).
  assert (Hch : computeHidden m input hidden = Some h).
  { unfold computeHidden. now rewrite Hh, Z.eqb_refl. }
  destruct (findKBest_ok m k h output HL ltac:(lia) Hosz)
    as (heap & Hrun & Hhp & Hlen & Hent & Hnd & Hcov).
  assert (Hbranch :
    match loss (args_ m) with
    | loss_name.hs =>
        heap ← dfs fuel m k (2 * osz_ m - 2) 0 [] h; Some (heap, output)
    | _ => findKBest m k [] h output
    end = Some (heap, computeOutputSoftmax (wo_ m) (osz_ m) h output)).
  { destruct (loss (args_ m)); [congruence | exact Hrun | exact Hrun]. }
  rewrite Hbranch. cbn [mbind option_bind].
  destruct (sort_heap_ok heap Hhp) as [Hperm Hsorted].
  eexists _, _, _. split; [reflexivity|]. split; [exact Hch|].
  split; [reflexivity|].
  split; [rewrite (Permutation_length Hperm); exact Hlen|].
  split.
  { eapply Permutation_NoDup; [symmetry; apply Permutation_map, Hperm|].
    exact Hnd. }
  split.
  { intros i j x y Hij Hx Hy. apply comparePairs_false.
    eapply Hsorted; eassumption. }
  split.
  { intros e He. apply Hent. eapply Permutation_in; [exact Hperm | exact He]. }
  intros j s Hj Hs. destruct (Hcov j s Hj Hs) as [Hin|[_ Hle]].
  - left. eapply Permutation_in; [symmetry; exact Hperm | exact Hin].
  - right. intros e He. apply Hle.
    eapply Permutation_in; [exact Hperm | exact He].
Qed.

Lemma dfs_ok m k hidden :
  (0 < SIGMOID_TABLE_SIZE)%Z -> (0 < MAX_SIGMOID)%Z -> (0 < LOG_TABLE_SIZE)%Z ->
  (0 < k < 2 ^ 64)%Z -> tree_built (osz_ m) (tree m) ->
  forall (fuel : nat) node score heap,
    (0 <= node <= 2 * osz_ m - 2)%Z -> (node < Z.of_nat fuel)%Z ->
    is_heap heap -> (Z.of_nat (length heap) <= k)%Z ->
    exists heap',
      dfs fuel m k node score heap hidden = Some heap' /\
      is_heap heap' /\
      (length heap <= length heap')%nat /\ (Z.of_nat (length heap') <= k)%Z /\
      ((Z.of_nat (length heap) < k)%Z -> (length heap < length heap')%nat) /\
      forall e, In e heap' -> In e heap \/ (0 <= snd e < osz_ m)%Z.
Proof.
  intros HS HM HL Hk [Hleaf Hinner].
  induction fuel as [|fuel IH]; intros node score heap Hnode Hfuel Hh Hlen;
    [lia|].
  cbn [dfs].
  destruct (below_front_ok k heap score Hk) as (b & Hb & Htrue & _).
  rewrite Hb. cbn [mbind option_bind]. destruct b.
  { destruct (Htrue eq_refl) as (Hfull & _).
    exists heap. split; [reflexivity|]. split; [exact Hh|].
    split; [lia|]. split; [lia|]. split; [lia | tauto]. }
  destruct (Z.lt_ge_cases node (osz_ m)) as [Hlf|Hin].
  - destruct (Hleaf node ltac:(lia)) as (nd & -> & Hl & Hr).
    cbn [mbind option_bind]. rewrite Hl, Hr. cbn [Z.eqb andb Pos.eqb].
    destruct (push_bounded_ok k heap (score, node) Hk Hh Hlen)
      as (heap' & dropped & Hpush & Hh' & Hperm & Hroom & Hfull).
    exists heap'. split; [exact Hpush|]. split; [exact Hh'|].
    assert (Hlen' : (length heap' + length dropped = length heap + 1)%nat).
    { rewrite <- !length_app. rewrite (Permutation_length Hperm).
      rewrite !length_app. reflexivity. }
    assert (Hd : (Z.of_nat (length heap) < k)%Z /\ dropped = [] \/
                 Z.of_nat (length heap) = k /\ length dropped = 1%nat).
    { destruct (Z.eq_dec (Z.of_nat (length heap)) k) as [Heq|Hne].
      - right. split; [exact Heq|]. destruct (Hfull Heq) as (x & -> & _).
        reflexivity.
      - left. split; [lia|]. apply Hroom. lia. }
    assert (Hin' : forall e, In e heap' ->
              In e heap \/ (0 <= snd e < osz_ m)%Z).
    { intros e He.
      assert (In e (heap ++ [(score, node)])).
      { eapply Permutation_in; [exact Hperm|]. apply in_app_iff. now left. }
      apply in_app_iff in H as [H|[<-|[]]]; [now left | right; cbn; lia]. }
    destruct Hd as [[Hlt ->]|[Heq Hd1]]; cbn [length] in Hlen';
      repeat split; try lia; exact Hin'.
  - destruct (Hinner node ltac:(lia)) as (nd & -> & Hl & Hr).
    cbn [mbind option_bind].
    destruct (Z.eqb_spec (Huffman.left nd) (-1)) as [|_]; [lia|].
    cbn [andb].
    destruct (sigmoid_total (dotRow (wo_ m) hidden (node - osz_ m)) HS HM)
      as (f & -> & Hf01).
    cbn [mbind option_bind].
    destruct (log_total (1 - f) HL ltac:(lra)) as (l0 & ->).
    cbn [mbind option_bind].
    destruct (IH (Huffman.left nd) (score + l0) heap ltac:(lia) ltac:(lia)
                Hh Hlen)
      as (heap1 & -> & Hh1 & Hge1 & Hle1 & Hgrow1 & Hin1).
    cbn [mbind option_bind].
    destruct (log_total f HL ltac:(lra)) as (l1 & ->).
    cbn [mbind option_bind].
    destruct (IH (Huffman.right nd) (score + l1) heap1 ltac:(lia) ltac:(lia)
                Hh1 Hle1)
      as (heap2 & -> & Hh2 & Hge2 & Hle2 & Hgrow2 & Hin2).
    exists heap2. split; [reflexivity|]. split; [exact Hh2|].
    split; [lia|]. split; [exact Hle2|]. split.
    + intros Hlt. specialize (Hgrow1 Hlt). lia.
    + intros e He. destruct (Hin2 e He) as [He1|Hc]; [|now right].
      apply Hin1, He1.
Qed.

(** X24: on a tree as [buildTree] leaves it, with a positive [k] and a
    heap of at most [k] entries, [dfs] from any node, given fuel above the
    node's index, has a result: it reads [tree], the sigmoid table and the
    log table inside their bounds and ends.  What it returns is a heap
    again, with at most [k] entries and at least as many as before (more,
    if there was room); every entry that was not there before is the pair
    of a score and a class in [[0, osz_)]. *)
Theorem dfs_keeps_heap (m : Model) (k : Z) (hidden : Vector) (fuel : nat)
    (node : Z) (score : R) (heap : list (R * Z)) :
  (0 < SIGMOID_TABLE_SIZE)%Z -> (0 < MAX_SIGMOID)%Z -> (0 < LOG_TABLE_SIZE)%Z ->
  (0 < k < 2 ^ 64)%Z -> tree_built (osz_ m) (tree m) ->
  (0 <= node <= 2 * osz_ m - 2)%Z -> (node < Z.of_nat fuel)%Z ->
  is_heap heap -> (Z.of_nat (length heap) <= k)%Z ->
  exists heap',
    dfs fuel m k node score heap hidden = Some heap' /\
    is_heap heap' /\
    (length heap <= length heap')%nat /\ (Z.of_nat (length heap') <= k)%Z /\
    ((Z.of_nat (length heap) < k)%Z -> (length heap < length heap')%nat) /\
    forall e, In e heap' -> In e heap \/ (0 <= snd e < osz_ m)%Z.
Proof.
  intros HS HM HL Hk Ht. apply dfs_ok; assumption.
Qed.

(** X25: under hierarchical softmax, on a tree as [buildTree] leaves it,
    [predict] on a non-empty input, an empty heap and a positive [k], with
    fuel for the depth of the tree, returns between 1 and [k] pairs in
    descending order of score, each of a class in [[0, osz_)]. *)
Theorem predict_hs (fuel : nat) (m : Model) (input : list Z) (k : Z)
    (hidden output : Vector) :
  (0 < SIGMOID_TABLE_SIZE)%Z -> (0 < MAX_SIGMOID)%Z -> (0 < LOG_TABLE_SIZE)%Z ->
  (0 < k < 2 ^ 64)%Z -> (1 <= osz_ m)%Z ->
  loss (args_ m) = loss_name.hs -> tree_built (osz_ m) (tree m) ->
  (2 * osz_ m - 2 < Z.of_nat fuel)%Z ->
  input <> [] -> Z.of_nat (length hidden) = hsz_ m ->
  exists heap h,
    predict fuel m input k [] hidden output = Some (heap, h, output) /\
    computeHidden m input hidden = Some h /\
    (1 <= Z.of_nat (length heap) <= k)%Z /\
    (forall (i j : nat) x y, (i < j)%nat -> heap !! i = Some x ->
       heap !! j = Some y -> fst y <= fst x) /\
    (forall e, In e heap -> (0 <= snd e < osz_ m)%Z).
Proof.
  intros HS HM HL Hk Hosz Hloss Ht Hfuel _ Hh.
  unfold predict. destruct (Z.ltb_spec 0 k); [|lia]. cbn [negb].
  unfold computeHidden at 1. rewrite Hh, Z.eqb_refl. cbn [mbind option_bind].
  set (h := scale _ _).
  assert (Hch : computeHidden m input hidden = Some h).
  { unfold computeHidden. now rewrite Hh, Z.eqb_refl. }
  rewrite Hloss.
  destruct (dfs_ok m k h HS HM HL Hk Ht fuel (2 * osz_ m - 2) 0 []
              ltac:(lia) Hfuel is_heap_nil ltac:(cbn; lia))
    as (heap & -> & Hhp & _ & Hle & Hgrow & Hin).
  cbn [mbind option_bind].
  destruct (sort_heap_ok heap Hhp) as [Hperm Hsorted].
  eexists _, _. split; [reflexivity|]. split; [exact Hch|].
  rewrite (Permutation_length Hperm). split.
  { specialize (Hgrow ltac:(cbn; lia)). cbn in Hgrow. lia. }
  split.
  { intros i j x y Hij Hx Hy. apply comparePairs_false.
    eapply Hsorted; eassumption. }
  intros e He.
  destruct (Hin e) as [[]|Hc]; [|exact Hc].
  eapply Permutation_in; [exact Hperm | exact He].
Qed.

End PredictionFacts.

(** ** The rows the kernels and the attention drivers write *)

Section Rows.
Local Open Scope R_scope.
Context {K : Constants}.

Lemma binaryLogistic_rows m t y lr l m' :
  binaryLogistic m t y lr = Some (l, m') ->
  length (wo_ m') = length (wo_ m) /\
  forall i, i <> t -> mrow (wo_ m') i = mrow (wo_ m) i.
Proof.
  unfold binaryLogistic. intros H. apply bind_Some in H as (s & _ & H).
  assert (Hwo : wo_ m' = mat_addRow (wo_ m) (hidden_ m) t
                           (lr * ((if y then 1 else 0) - s))).
  { destruct y; apply bind_Some in H as (l' & _ & [= _ <-]); reflexivity. }
  rewrite Hwo. split; [apply mat_addRow_length|].
  intros i Hi. rewrite mrow_mat_addRow.
  destruct (Z.eqb_spec i t); [congruence | reflexivity].
Qed.

Lemma hierarchicalSoftmax_loop_rows path : forall code lr loss m l m',
  hierarchicalSoftmax_loop path code lr loss m = Some (l, m') ->
  length (wo_ m') = length (wo_ m) /\
  forall i, ~ In i path -> mrow (wo_ m') i = mrow (wo_ m) i.
Proof.
  induction path as [|p path IH]; intros code lr loss0 m l m'; cbn.
  - intros [= _ <-]. tauto.
  - destruct code as [|b code]; [discriminate|]. intros H.
    apply bind_Some in H as ([l1 m1] & Hb & H).
    apply binaryLogistic_rows in Hb as [Hl1 Hr1].
    apply IH in H as [Hl2 Hr2]. split; [congruence|].
    intros i Hi. rewrite Hr2 by tauto. apply Hr1. intros ->. tauto.
Qed.

Lemma getNegative_in m target n m' :
  getNegative m target = Some (n, m') ->
  In n (negatives m) /\ wo_ m' = wo_ m /\ negatives m' = negatives m.
Proof.
  unfold getNegative. intros H.
  apply bind_Some in H as ([n' pos] & Hrun & [= <- <-]).
  split; [|split; reflexivity].
  revert Hrun. generalize (negpos m). generalize (length (negatives m)).
  intros fuel. induction fuel as [|fuel IH]; intros p; cbn; [discriminate|].
  destruct (negatives m !! p) as [x|] eqn:Hx; [|discriminate].
  destruct (target =? x)%Z; [apply IH|]. intros [= <- _].
  apply list_elem_of_In. eapply list_elem_of_lookup_2, Hx.
Qed.

Lemma negativeSampling_loop_rows k target lr : forall loss m l m',
  negativeSampling_loop k target lr loss m = Some (l, m') ->
  length (wo_ m') = length (wo_ m) /\
  forall i, ~ In i (negatives m) -> mrow (wo_ m') i = mrow (wo_ m) i.
Proof.
  induction k as [|k IH]; intros loss0 m l m'; cbn.
  - intros [= _ <-]. tauto.
  - intros H. apply bind_Some in H as ([n m1] & Hn & H).
    apply bind_Some in H as ([l1 m2] & Hb & H).
    apply getNegative_in in Hn as (Hin & Hwo1 & Hneg1).
    pose proof (binaryLogistic_frame _ _ _ _ _ _ Hb) as F.
    destruct F as (_ & _ & _ & _ & _ & _ & _ & _ & _ & _ & Hneg2 & _).
    apply binaryLogistic_rows in Hb as [Hl2 Hr2].
    apply IH in H as [Hl3 Hr3]. split; [congruence|].
    intros i Hi. rewrite Hr3 by (rewrite Hneg2, Hneg1; exact Hi).
    rewrite Hr2, Hwo1; [reflexivity|]. intros ->. tauto.
Qed.

Lemma softmax_steps_rows target lr idx : forall m,
  let m' := fold_left (softmax_step target lr) idx m in
  length (wo_ m') = length (wo_ m) /\
  forall i, ~ In i idx -> mrow (wo_ m') i = mrow (wo_ m) i.
Proof.
  induction idx as [|j idx IH]; intros m; cbn zeta; cbn [fold_left].
  - tauto.
  - destruct (IH (softmax_step target lr m j)) as [Hl Hr]. cbn zeta in Hl, Hr.
    rewrite Hl. unfold softmax_step at 2. cbn [wo_ set_wo set_grad].
    split; [apply mat_addRow_length|].
    intros i Hi. rewrite Hr by (cbn in Hi; tauto).
    unfold softmax_step. cbn [wo_ set_wo set_grad hidden_ output_].
    rewrite mrow_mat_addRow.
    destruct (Z.eqb_spec i j) as [->|_]; [cbn in Hi; tauto | reflexivity].
Qed.

(** X26: the rows of [wo_] a loss kernel can write.  Whatever kernel
    runs, the number of rows stays.  [hierarchicalSoftmax] writes only the
    rows that [paths[target]] names; [negativeSampling] writes only row
    [target] and rows that occur in the negatives table; [softmax] writes
    only the rows [0] to [osz_ - 1]. *)
Theorem lossKernel_rows (m : Model) (target : Z) (lr : R) (l : R)
    (m' : Model) :
  lossKernel m target lr = Some (l, m') ->
  length (wo_ m') = length (wo_ m) /\
  forall i,
    match loss (args_ m) with
    | loss_name.hs =>
        exists path, getZ (paths m) target = Some path /\ ~ In i path
    | loss_name.ns => i <> target /\ ~ In i (negatives m)
    | loss_name.softmax => ~ (0 <= i < osz_ m)%Z
    end ->
    mrow (wo_ m') i = mrow (wo_ m) i.
Proof.
  unfold lossKernel. destruct (loss (args_ m)).
  - unfold hierarchicalSoftmax. cbn [codes paths set_grad]. intros H.
    apply bind_Some in H as (code & _ & H).
    apply bind_Some in H as (path & Hp & H).
    apply hierarchicalSoftmax_loop_rows in H as [Hl Hr].
    split; [exact Hl|]. intros i (path' & Hp' & Hi).
    apply Hr. congruence.
  - unfold negativeSampling. cbn [args_ set_grad].
    destruct (neg (args_ m) <? 0)%Z.
    { intros [= _ <-]. cbn. tauto. }
    intros H. apply bind_Some in H as ([l1 m1] & Hb & H).
    pose proof (binaryLogistic_frame _ _ _ _ _ _ Hb) as F.
    destruct F as (_ & _ & _ & _ & _ & _ & _ & _ & _ & _ & Hneg & _).
    apply binaryLogistic_rows in Hb as [Hl1 Hr1].
    apply negativeSampling_loop_rows in H as [Hl2 Hr2].
    cbn in Hl1, Hr1, Hneg. split; [congruence|].
    intros i [Hi1 Hi2]. rewrite Hr2 by (rewrite Hneg; exact Hi2).
    apply Hr1, Hi1.
  - unfold softmax. intros H. apply bind_Some in H as (l' & _ & [= _ <-]).
    match goal with
    | |- context [fold_left (softmax_step target lr) ?idx ?m0] =>
        destruct (softmax_steps_rows target lr idx m0) as [Hl Hr]
    end.
    cbn zeta in Hl, Hr. cbn [wo_ osz_ set_output set_grad] in *.
    split; [exact Hl|]. intros i Hi. apply Hr.
    intros Hin. apply Hi. apply list_elem_of_In, elem_of_seqZ in Hin. lia.
Qed.

Lemma mrow_mat_set (M : Matrix) i j x r :
  mrow (mat_set M i j x) r
  = if (r =? i)%Z then vset (mrow M r) j x else mrow M r.
Proof.
  unfold mat_set, updZ, mrow.
  destruct (getZ M i) as [row|] eqn:Hr; cbn [default from_option Datatypes.id].
  - pose proof (getZ_lt _ _ _ Hr). rewrite getZ_insert by lia.
    destruct (Z.eqb_spec r i) as [->|_]; [|reflexivity].
    now rewrite Hr.
  - destruct (Z.eqb_spec r i) as [->|_]; [|reflexivity].
    rewrite Hr. cbn. unfold vset, updZ, getZ.
    destruct (j <? 0)%Z; [reflexivity|]. now rewrite lookup_nil.
Qed.

Lemma eraseTarget_fresh target input :
  ~ In target (map fst (eraseTarget target input)).
Proof.
  induction input as [|p input IH]; cbn; [tauto|].
  destruct (Z.eqb_spec (fst p) target); [exact IH|].
  cbn. intros [Hp|Hin]; [congruence | tauto].
Qed.

Lemma computeAttnGradient_loop_rows n gradient input :
  forall softmaxattn m m',
  computeAttnGradient_loop n gradient input softmaxattn m = Some m' ->
  (forall i, ~ In i (map fst input) ->
     mrow (wi_ m') i = mrow (wi_ m) i /\ mrow (attn_ m') i = mrow (attn_ m) i) /\
  (forall j, ~ In j (map snd input) -> vget (bias_ m') j = vget (bias_ m) j).
Proof.
  induction input as [|p input IH]; intros softmaxattn m m'; cbn.
  - intros [= <-]. tauto.
  - destruct softmaxattn as [|a softmaxattn]; [discriminate|].
    intros H. apply IH in H as [Hrow Hb]. cbn [wi_ attn_ bias_ set_wi set_attn
                                               set_bias] in Hrow, Hb.
    split.
    + intros i Hi. destruct (Hrow i ltac:(tauto)) as [-> ->].
      rewrite mrow_mat_addRow, mrow_mat_set.
      destruct (Z.eqb_spec i (fst p)); [exfalso; apply Hi; left; congruence|].
      tauto.
    + intros j Hj. rewrite Hb by tauto. rewrite vget_vset.
      destruct (Z.eqb_spec (snd p) j); [exfalso; apply Hj; now left|].
      reflexivity.
Qed.

Lemma computeAttnGradient2_loop_rows n target gradient input :
  forall softmaxattn m m',
  computeAttnGradient2_loop n target gradient input softmaxattn m = Some m' ->
  (forall i, ~ In i (map fst input) -> mrow (wi_ m') i = mrow (wi_ m) i) /\
  (forall i, i <> target -> mrow (attn_ m') i = mrow (attn_ m) i) /\
  (forall j, ~ In j (map snd input) -> vget (bias_ m') j = vget (bias_ m) j).
Proof.
  induction input as [|p input IH]; intros softmaxattn m m'; cbn.
  - intros [= <-]. tauto.
  - destruct softmaxattn as [|a softmaxattn]; [discriminate|].
    intros H. apply IH in H as (Hrow & Hattn & Hb).
    cbn [wi_ attn_ bias_ set_wi set_attn set_bias] in Hrow, Hattn, Hb.
    split; [|split].
    + intros i Hi. rewrite Hrow by tauto. rewrite mrow_mat_addRow.
      destruct (Z.eqb_spec i (fst p)); [exfalso; apply Hi; left; congruence|].
      reflexivity.
    + intros i Hi. rewrite Hattn by exact Hi. rewrite mrow_mat_set.
      destruct (Z.eqb_spec i target); [congruence | reflexivity].
    + intros j Hj. rewrite Hb by tauto. rewrite vget_vset.
      destruct (Z.eqb_spec (snd p) j); [exfalso; apply Hj; now left|].
      reflexivity.
Qed.

(** X27: a call of [updateAttn] that returns has written [wi_] and
    [attn_] only in the rows of the features left in the caller's vector,
    and [bias_] only at their positions.  Since the pairs of [target]
    have been erased, row [target] of [wi_] and of [attn_] is never
    written. *)
Theorem updateAttn_writes (m : Model) (input : list (Z * Z)) (target : Z)
    (lr : R) (m' : Model) (input' : list (Z * Z)) :
  updateAttn m input target lr = Some (m', input') ->
  (forall i, ~ In i (map fst input') ->
     mrow (wi_ m') i = mrow (wi_ m) i /\ mrow (attn_ m') i = mrow (attn_ m) i) /\
  (forall j, ~ In j (map snd input') -> vget (bias_ m') j = vget (bias_ m) j) /\
  mrow (wi_ m') target = mrow (wi_ m) target /\
  mrow (attn_ m') target = mrow (attn_ m) target.
Proof.
  intros H.
  assert (Hgen :
    (forall i, ~ In i (map fst input') ->
       mrow (wi_ m') i = mrow (wi_ m) i /\ mrow (attn_ m') i = mrow (attn_ m) i) /\
    (forall j, ~ In j (map snd input') -> vget (bias_ m') j = vget (bias_ m) j) /\
    ~ In target (map fst input')).
  { revert H. unfold updateAttn.
    destruct (negb (0 <=? target)%Z); [discriminate|].
    destruct (negb (target <? osz_ m)%Z); [discriminate|].
    destruct input as [|p input].
    { cbn. intros [= <- <-]. cbn. tauto. }
    cbn [length Nat.eqb].
    destruct (length (eraseTarget target (p :: input)) =? 0)%nat.
    { intros [= <- <-]. cbn [wi_ attn_ bias_ set_softmaxattn].
      repeat split; try reflexivity.
      exact (eraseTarget_fresh target (p :: input)). }
    intros H. apply bind_Some in H as ([hidden softmaxattn] & _ & H).
    apply bind_Some in H as ([l m1] & Hk & H).
    apply bind_Some in H as (m2 & Hg & [= <- <-]).
    apply lossKernel_frame in Hk as (Hwi & Hattn & Hbias & _).
    cbn in Hwi, Hattn, Hbias.
    unfold computeAttnGradient in Hg. destruct (negb _) in Hg; [discriminate|].
    apply computeAttnGradient_loop_rows in Hg as [Hrow Hb].
    cbn in Hrow, Hb. rewrite Hwi, Hattn in Hrow. rewrite Hbias in Hb.
    split; [exact Hrow|]. split; [exact Hb|].
    exact (eraseTarget_fresh target (p :: input)). }
  destruct Hgen as (Hrow & Hb & Ht).
  split; [exact Hrow|]. split; [exact Hb|]. apply Hrow, Ht.
Qed.

(** X28: a call of [updateAttn2] that returns has written [wi_] only in
    the rows of the features left in the caller's vector (so never in row
    [target]), [bias_] only at their positions, and [attn_] only in row
    [target]. *)
Theorem updateAttn2_writes (m : Model) (input : list (Z * Z)) (target : Z)
    (lr : R) (m' : Model) (input' : list (Z * Z)) :
  updateAttn2 m input target lr = Some (m', input') ->
  (forall i, ~ In i (map fst input') -> mrow (wi_ m') i = mrow (wi_ m) i) /\
  (forall i, i <> target -> mrow (attn_ m') i = mrow (attn_ m) i) /\
  (forall j, ~ In j (map snd input') -> vget (bias_ m') j = vget (bias_ m) j) /\
  mrow (wi_ m') target = mrow (wi_ m) target.
Proof.
  intros H.
  assert (Hgen :
    (forall i, ~ In i (map fst input') -> mrow (wi_ m') i = mrow (wi_ m) i) /\
    (forall i, i <> target -> mrow (attn_ m') i = mrow (attn_ m) i) /\
    (forall j, ~ In j (map snd input') -> vget (bias_ m') j = vget (bias_ m) j) /\
    ~ In target (map fst input')).
  { revert H. unfold updateAttn2.
    destruct (negb (0 <=? target)%Z); [discriminate|].
    destruct (negb (target <? osz_ m)%Z); [discriminate|].
    destruct input as [|p input].
    { cbn. intros [= <- <-]. cbn. tauto. }
    cbn [length Nat.eqb].
    destruct (length (eraseTarget target (p :: input)) =? 0)%nat.
    { intros [= <- <-]. cbn [wi_ attn_ bias_ set_softmaxattn].
      repeat split; try reflexivity.
      exact (eraseTarget_fresh target (p :: input)). }
    intros H. apply bind_Some in H as ([hidden softmaxattn] & _ & H).
    apply bind_Some in H as ([l m1] & Hk & H).
    apply bind_Some in H as (m2 & Hg & [= <- <-]).
    apply lossKernel_frame in Hk as (Hwi & Hattn & Hbias & _).
    cbn in Hwi, Hattn, Hbias.
    unfold computeAttnGradient2 in Hg. destruct (negb _) in Hg; [discriminate|].
    apply computeAttnGradient2_loop_rows in Hg as (Hrow & Ha & Hb).
    cbn in Hrow, Ha, Hb. rewrite Hwi in Hrow. rewrite Hattn in Ha.
    rewrite Hbias in Hb.
    split; [exact Hrow|]. split; [exact Ha|]. split; [exact Hb|].
    exact (eraseTarget_fresh target (p :: input)). }
  destruct Hgen as (Hrow & Ha & Hb & Ht).
  split; [exact Hrow|]. split; [exact Ha|]. split; [exact Hb|].
  apply Hrow, Ht.
Qed.

(** *** Learning rate 0 *)

Lemma axpy_zero_vec a u : forall v,
  Forall (fun x => x = 0) u -> axpy a u v = v.
Proof.
  intros v. revert u. induction v as [|y v IH]; intros u Hu; cbn; [reflexivity|].
  destruct Hu as [|x u -> Hu]; cbn.
  - rewrite IH by constructor. f_equal. ring.
  - rewrite IH by exact Hu. f_equal. ring.
Qed.

Lemma mat_addRow_zero_vec (M : Matrix) g i a :
  Forall (fun x => x = 0) g -> mat_addRow M g i a = M.
Proof.
  intros Hg. unfold mat_addRow, updZ.
  destruct (getZ M i) as [r|] eqn:Hr; [|reflexivity].
  cbn. rewrite axpy_zero_vec by exact Hg. apply getZ_Some in Hr as [_ Hr].
  now apply list_insert_id.
Qed.

Lemma zero_all_zero v : Forall (fun x => x = 0) (zero v).
Proof. unfold zero. induction v; cbn; constructor; auto. Qed.

Lemma scale_all_zero v a :
  Forall (fun x => x = 0) v -> Forall (fun x => x = 0) (scale v a).
Proof.
  unfold scale. induction 1 as [|x v -> _ IH]; cbn; constructor; [ring | exact IH].
Qed.

Lemma dot_zero_l u : forall v, Forall (fun x => x = 0) u -> dot u v = 0.
Proof.
  induction u as [|x u IH]; intros v Hu; cbn; [reflexivity|].
  apply Forall_cons in Hu as [-> Hu]. destruct v; [reflexivity|].
  rewrite IH by exact Hu. ring.
Qed.

Lemma dot_zero_r u : forall v, Forall (fun x => x = 0) v -> dot u v = 0.
Proof.
  induction u as [|x u IH]; intros v Hv; cbn; [reflexivity|].
  destruct Hv as [|y v -> Hv]; [reflexivity|].
  rewrite IH by exact Hv. ring.
Qed.

Lemma vset_same v j : vset v j (vget v j) = v.
Proof.
  unfold vset, vget, updZ. destruct (getZ v j) as [x|] eqn:Hx; cbn; [|reflexivity].
  apply getZ_Some in Hx as [_ Hx]. now apply list_insert_id.
Qed.

Lemma mat_set_same (M : Matrix) i j : mat_set M i j (mat_at M i j) = M.
Proof.
  unfold mat_set, mat_at, mrow, updZ.
  destruct (getZ M i) as [r|] eqn:Hr; cbn; [|reflexivity].
  rewrite vset_same. apply getZ_Some in Hr as [_ Hr]. now apply list_insert_id.
Qed.

Lemma binaryLogistic_0_state m t y l m' :
  binaryLogistic m t y 0 = Some (l, m') -> m' = m.
Proof.
  unfold binaryLogistic. intros H. apply bind_Some in H as (s & _ & H).
  assert (Hm : m' = set_wo (mat_addRow (wo_ m) (hidden_ m) t
                              (0 * ((if y then 1 else 0) - s)))
                      (set_grad (addRow (grad_ m) (wo_ m) t
                                   (0 * ((if y then 1 else 0) - s))) m)).
  { destruct y; apply bind_Some in H as (l' & _ & [= _ <-]); reflexivity. }
  rewrite Hm, Rmult_0_l. unfold addRow.
  now rewrite axpy_0, mat_addRow_0, set_wo_grad_id.
Qed.

Lemma lossKernel_lr_0 m target l m' :
  lossKernel m target 0 = Some (l, m') ->
  wo_ m' = wo_ m /\ grad_ m' = zero (grad_ m).
Proof.
  unfold lossKernel. destruct (loss (args_ m)).
  - unfold hierarchicalSoftmax. cbn [codes paths set_grad]. intros H.
    apply bind_Some in H as (code & _ & H).
    apply bind_Some in H as (path & _ & H).
    assert (Hloop : forall pth cd loss0 m0 l0 m1,
              hierarchicalSoftmax_loop pth cd 0 loss0 m0 = Some (l0, m1) ->
              m1 = m0).
    { induction pth as [|p pth IH]; intros cd loss0 m0 l0 m1; cbn.
      - now intros [= _ <-].
      - destruct cd as [|b cd]; [discriminate|]. intros H0.
        apply bind_Some in H0 as ([l1 m2] & Hb & H0).
        apply binaryLogistic_0_state in Hb as ->. eapply IH, H0. }
    apply Hloop in H as ->. split; reflexivity.
  - unfold negativeSampling. cbn [args_ set_grad].
    destruct (neg (args_ m) <? 0)%Z.
    { intros [= _ <-]. split; reflexivity. }
    intros H. apply bind_Some in H as ([l1 m1] & Hb & H).
    apply binaryLogistic_0_state in Hb as ->.
    assert (Hloop : forall k loss0 m0 l0 m1,
              negativeSampling_loop k target 0 loss0 m0 = Some (l0, m1) ->
              wo_ m1 = wo_ m0 /\ grad_ m1 = grad_ m0).
    { induction k as [|k IH]; intros loss0 m0 l0 m1; cbn.
      - intros [= _ <-]. tauto.
      - intros H0. apply bind_Some in H0 as ([n m2] & Hn & H0).
        apply bind_Some in H0 as ([l2 m3] & Hb & H0).
        apply binaryLogistic_0_state in Hb as ->.
        apply IH in H0 as [-> ->].
        unfold getNegative in Hn.
        apply bind_Some in Hn as ([n' pos] & _ & [= _ <-]). tauto. }
    apply Hloop in H as [-> ->]. split; reflexivity.
  - unfold softmax. intros H. apply bind_Some in H as (l' & _ & [= _ <-]).
    assert (Hloop : forall idx m0,
              fold_left (softmax_step target 0) idx m0 = m0).
    { induction idx as [|i idx IH]; intros m0; cbn; [reflexivity|].
      rewrite <- (IH m0) at 2. f_equal. unfold softmax_step, addRow.
      cbv zeta. rewrite Rmult_0_l, axpy_0. cbn [wo_ hidden_ set_grad].
      now rewrite mat_addRow_0, set_wo_grad_id. }
    rewrite Hloop. split; reflexivity.
Qed.

Lemma scatter_zero input : forall m,
  Forall (fun x => x = 0) (grad_ m) ->
  fold_left (fun m it => set_wi (mat_addRow (wi_ m) (grad_ m) it 1) m) input m
  = m.
Proof.
  induction input as [|it input IH]; intros m Hg; cbn; [reflexivity|].
  rewrite mat_addRow_zero_vec by exact Hg.
  replace (set_wi (wi_ m) m) with m by now destruct m. apply IH, Hg.
Qed.

(** X29: with learning rate 0, a call of [update] that returns has
    changed no parameter: [wi_], [wo_], [attn_] and [bias_] are as
    before, whatever the loss and the model, and on a non-empty input
    [grad_] is left at zero. *)
Theorem update_lr_0 (m : Model) (input : list Z) (target : Z) (m' : Model) :
  update m input target 0 = Some m' ->
  wi_ m' = wi_ m /\ wo_ m' = wo_ m /\ attn_ m' = attn_ m /\
  bias_ m' = bias_ m /\
  (input <> [] -> Forall (fun x => x = 0) (grad_ m')).
Proof.
  unfold update.
  destruct (negb (0 <=? target)%Z); [discriminate|].
  destruct (negb (target <? osz_ m)%Z); [discriminate|].
  destruct input as [|it input].
  { cbn. intros [= <-]. repeat split; try reflexivity. congruence. }
  cbn [length Nat.eqb]. remember (it :: input) as inp eqn:Hinp. intros H.
  apply bind_Some in H as (hidden & _ & H).
  apply bind_Some in H as ([l m1] & Hk & H).
  pose proof (lossKernel_frame _ _ _ _ _ Hk)
    as (Hwi & Hattn & Hbias & _).
  apply lossKernel_lr_0 in Hk as [Hwo Hg].
  cbn in Hwi, Hattn, Hbias, Hwo, Hg.
  injection H as <-. rewrite scatter_zero.
  - destruct (model (args_ m1)); cbn; rewrite ?Hwi, ?Hwo, ?Hattn, ?Hbias, ?Hg;
      repeat split; try reflexivity; intros _;
      try apply scale_all_zero; apply zero_all_zero.
  - destruct (model (args_ m1)); cbn; rewrite Hg;
      try apply scale_all_zero; apply zero_all_zero.
Qed.

Lemma computeAttnGradient_loop_zero n gradient input :
  Forall (fun x => x = 0) gradient ->
  forall softmaxattn m m',
  computeAttnGradient_loop n gradient input softmaxattn m = Some m' -> m' = m.
Proof.
  intros Hg. induction input as [|p input IH]; intros softmaxattn m m'; cbn.
  - now intros [= <-].
  - destruct softmaxattn as [|a softmaxattn]; [discriminate|].
    unfold dotRow. rewrite dot_zero_r, dot_zero_l by exact Hg.
    rewrite mat_addRow_zero_vec by exact Hg.
    replace (a * (0 - 0)) with 0 by ring. rewrite !Rplus_0_r.
    cbn [attn_ bias_ set_wi set_attn].
    rewrite mat_set_same, vset_same.
    replace (set_bias (bias_ m) (set_attn (attn_ m) (set_wi (wi_ m) m)))
      with m by now destruct m.
    apply IH.
Qed.

Lemma computeAttnGradient2_loop_zero n target gradient input :
  Forall (fun x => x = 0) gradient ->
  forall softmaxattn m m',
  computeAttnGradient2_loop n target gradient input softmaxattn m = Some m' ->
  m' = m.
Proof.
  intros Hg. induction input as [|p input IH]; intros softmaxattn m m'; cbn.
  - now intros [= <-].
  - destruct softmaxattn as [|a softmaxattn]; [discriminate|].
    unfold dotRow. rewrite dot_zero_r, dot_zero_l by exact Hg.
    rewrite mat_addRow_zero_vec by exact Hg.
    replace (a * (0 - 0)) with 0 by ring. rewrite !Rplus_0_r.
    cbn [attn_ bias_ set_wi set_attn].
    rewrite mat_set_same, vset_same.
    replace (set_bias (bias_ m) (set_attn (attn_ m) (set_wi (wi_ m) m)))
      with m by now destruct m.
    apply IH.
Qed.

(** X30: with learning rate 0, a call of [updateAttn] or of
    [updateAttn2] that returns has changed no parameter: [wi_], [wo_],
    [attn_] and [bias_] are as before.  This is for a call whose
    attention weights are defined: if pairs remain after the erasure, one
    of them has a logit of at least [-50].  (When every logit is below
    [-50] the weights of the source are [0 / 0], and what the gradient
    step writes with them is not the old value.) *)
Theorem updateAttn_lr_0 (m : Model) (input : list (Z * Z)) (target : Z) :
  (forall m' input',
     (eraseTarget target input <> [] ->
      Exists (fun p => -50 <= mat_at (attn_ m) (fst p) (snd p)
                              + vget (bias_ m) (snd p))
        (eraseTarget target input)) ->
     updateAttn m input target 0 = Some (m', input') ->
     wi_ m' = wi_ m /\ wo_ m' = wo_ m /\ attn_ m' = attn_ m /\
     bias_ m' = bias_ m) /\
  (forall m' input',
     (eraseTarget target input <> [] ->
      Exists (fun p => -50 <= mat_at (attn_ m) target (snd p)
                              + vget (bias_ m) (snd p))
        (eraseTarget target input)) ->
     updateAttn2 m input target 0 = Some (m', input') ->
     wi_ m' = wi_ m /\ wo_ m' = wo_ m /\ attn_ m' = attn_ m /\
     bias_ m' = bias_ m).
Proof.
  split; intros m' input' _; unfold updateAttn, updateAttn2;
    (destruct (negb (0 <=? target)%Z); [discriminate|]);
    (destruct (negb (target <? osz_ m)%Z); [discriminate|]);
    (destruct (length input =? 0)%nat; [intros [= <- _]; tauto|]);
    (destruct (length (eraseTarget target input) =? 0)%nat;
       [intros [= <- _]; cbn; tauto|]);
    intros H;
    apply bind_Some in H as ([hidden softmaxattn] & _ & H);
    apply bind_Some in H as ([l m1] & Hk & H);
    apply bind_Some in H as (m2 & Hg & [= <- _]);
    pose proof (lossKernel_frame _ _ _ _ _ Hk) as (Hwi & Hattn & Hbias & _);
    apply lossKernel_lr_0 in Hk as [Hwo Hgr];
    cbn in Hwi, Hattn, Hbias, Hwo, Hgr.
  - unfold computeAttnGradient in Hg. destruct (negb _) in Hg; [discriminate|].
    apply computeAttnGradient_loop_zero in Hg as ->.
    + cbn. tauto.
    + cbn. rewrite Hgr. apply zero_all_zero.
  - unfold computeAttnGradient2 in Hg. destruct (negb _) in Hg; [discriminate|].
    apply computeAttnGradient2_loop_zero in Hg as ->.
    + cbn. tauto.
    + cbn. rewrite Hgr. apply zero_all_zero.
Qed.

End Rows.

(** ** A concrete engine *)

(** The constants with the values of the fastText sources, and a shuffle
    that leaves the vector as it is.  The theorems above hold for every
    choice. *)
#[global] Instance upstream : Constants := {|
  SIGMOID_TABLE_SIZE := 512;
  MAX_SIGMOID := 8;
  LOG_TABLE_SIZE := 512;
  NEGATIVE_TABLE_SIZE := 10000000;
  shuffle := fun _ v => v
|}.

Section Concrete.
Local Open Scope R_scope.

(** Decides the comparisons of reals in the goal that [lra] can decide. *)
Ltac decide_Rlt :=
  repeat match goal with
         | |- context [Rlt_dec ?a ?b] =>
             destruct (Rlt_dec a b); [try lra | try lra]; []
         end.

Lemma sigmoid_at_0 (x : R) : x = 0 -> sigmoid x = Some (1 / 2).
Proof.
  intros ->. unfold sigmoid. cbn [MAX_SIGMOID SIGMOID_TABLE_SIZE upstream].
  decide_Rlt.
  replace ((0 + 8) * 512 / 8 / 2) with (IZR 256) by lra.
  rewrite trunc_IZR, t_sigmoid_lookup by (cbn; lia).
  cbn [MAX_SIGMOID SIGMOID_TABLE_SIZE upstream]. f_equal.
  replace (- (IZR (256 * 2 * 8) / 512 - 8)) with 0.
  - rewrite exp_0. lra.
  - change (256 * 2 * 8)%Z with 4096%Z. lra.
Qed.

(** The loss the log table gives for a probability of one half. *)
Definition loss_half : R := - ln ((256 + 1e-5) / 512).

Lemma log_at_half (x : R) : x = 1 / 2 -> log x = Some (- loss_half).
Proof.
  intros ->. unfold log. cbn [LOG_TABLE_SIZE upstream].
  decide_Rlt.
  replace (1 / 2 * 512) with (IZR 256) by lra.
  rewrite trunc_IZR, t_log_lookup by (cbn; lia).
  cbn [LOG_TABLE_SIZE upstream]. unfold loss_half. f_equal. lra.
Qed.

Lemma loss_half_pos : 0 < loss_half.
Proof.
  unfold loss_half.
  assert (ln ((256 + 1e-5) / 512) < ln 1) by (apply ln_increasing; lra).
  rewrite ln_1 in *. lra.
Qed.

Lemma binaryLogistic_at_0 (m : Model) (t : Z) (label : bool) (lr : R) :
  dotRow (wo_ m) (hidden_ m) t = 0 ->
  exists m', binaryLogistic m t label lr = Some (loss_half, m').
Proof.
  intros H0. unfold binaryLogistic. rewrite (sigmoid_at_0 _ H0).
  cbn [mbind option_bind].
  destruct label.
  - rewrite (log_at_half (1 / 2)) by reflexivity. cbn [mbind option_bind].
    rewrite Ropp_involutive. eauto.
  - rewrite (log_at_half (1 - 1 / 2)) by lra. cbn [mbind option_bind].
    rewrite Ropp_involutive. eauto.
Qed.

(** A fresh engine with one input row, one output row, dimension 1 and
    negative sampling without negatives. *)
Definition engine0 : Model :=
  new_Model [[0]] [[0]] [[0]] [0] (mkArgs 1 loss_name.ns model_name.sup 0) 0.

Lemma engine0_update (lr : R) :
  exists m',
    update engine0 [0%Z] 0 lr = Some m' /\
    update_loss engine0 [0%Z] 0 lr = Some (0 + loss_half).
Proof.
  pose (h0 := [(0 + 1 * 0) * (1 / INR 1)]).
  assert (Hh : computeHidden engine0 [0%Z] (hidden_ engine0) = Some h0)
    by reflexivity.
  assert (Hk : exists m2,
             lossKernel (set_hidden h0 engine0) 0 lr = Some (0 + loss_half, m2)).
  { unfold lossKernel, negativeSampling.
    change (loss (args_ (set_hidden h0 engine0))) with loss_name.ns.
    cbv iota. cbn [args_ set_grad set_hidden engine0 new_Model neg].
    change (0 <? 0)%Z with false. cbv iota.
    match goal with
    | |- context [binaryLogistic ?m 0 true lr] =>
        destruct (binaryLogistic_at_0 m 0 true lr) as [m2 H2]
    end.
    { unfold dotRow, mrow, h0. cbn. change (Z.to_nat 0) with 0%nat. cbn. lra. }
    rewrite H2. cbn [mbind option_bind].
    apply binaryLogistic_frame in H2 as Hf.
    destruct Hf as (_ & _ & _ & -> & _). cbn. eauto. }
  destruct Hk as [m2 Hk].
  unfold update, update_loss. rewrite Hh.
  change (negb (0 <=? 0)%Z) with false.
  change (negb (0 <? osz_ engine0)%Z) with false.
  cbn [mbind option_bind length Nat.eqb]. cbv iota.
  rewrite Hk. cbn [mbind option_bind]. eauto.
Qed.

Lemma engine0_updates (lr : R) :
  exists m', updates engine0 [([0%Z], 0%Z, lr)] = Some (m', [0 + loss_half]).
Proof.
  destruct (engine0_update lr) as (m' & Hu & Hl).
  exists m'. cbn [updates]. rewrite Hl. cbn [mbind option_bind].
  rewrite Hu. reflexivity.
Qed.

(** The engine with three classes that [setTargetCounts] leaves for the
    counts 10, 5 and 1 under hierarchical softmax. *)
Definition hs_engine : Model :=
  set_tree
    [Huffman.mkNode 4 (-1) (-1) 10 true; Huffman.mkNode 3 (-1) (-1) 5 true;
     Huffman.mkNode 3 (-1) (-1) 1 false; Huffman.mkNode 4 2 1 6 false;
     Huffman.mkNode (-1) 3 0 16 false]
    [[1]; [0; 1]; [0; 1]]%Z [[true]; [true; false]; [false; false]]
    (new_Model [[0]] [[0]; [0]; [0]] [[0]] [0]
       (mkArgs 1 loss_name.hs model_name.sup 5) 0).

Example hs_engine_setTargetCounts :
  setTargetCounts 2
    (new_Model [[0]] [[0]; [0]; [0]] [[0]] [0]
       (mkArgs 1 loss_name.hs model_name.sup 5) 0) [10; 5; 1]%Z
  = Some hs_engine.
Proof. reflexivity. Qed.

Lemma hs_engine_ready : engine_ready hs_engine.
Proof.
  split; [reflexivity|]. split; [reflexivity|].
  intros target Ht. change (osz_ hs_engine) with 3%Z in Ht.
  unfold kernel_ready.
  change (loss (args_ hs_engine)) with loss_name.hs. cbv iota.
  assert (target = 0 \/ target = 1 \/ target = 2)%Z as [->|[->| ->]] by lia;
    eexists _, _; (split; [reflexivity|]); (split; [reflexivity|]); cbn; lia.
Qed.

Lemma hs_engine_in_range : engine_in_range hs_engine.
Proof.
  unfold engine_in_range. cbn.
  repeat split; repeat constructor; cbn; lia.
Qed.

(** One call of [update] on [hs_engine], for class 0: its path has the
    one entry 1, and the kernel returns the loss of a probability of one
    half. *)
Lemma hs_engine_update (lr : R) :
  exists m',
    update hs_engine [0%Z] 0 lr = Some m' /\
    update_loss hs_engine [0%Z] 0 lr = Some (0 + loss_half).
Proof.
  pose (h0 := [(0 + 1 * 0) * (1 / INR 1)]).
  assert (Hh : computeHidden hs_engine [0%Z] (hidden_ hs_engine) = Some h0)
    by reflexivity.
  assert (Hk : exists m2,
             lossKernel (set_hidden h0 hs_engine) 0 lr = Some (0 + loss_half, m2)).
  { unfold lossKernel, hierarchicalSoftmax.
    change (loss (args_ (set_hidden h0 hs_engine))) with loss_name.hs.
    cbv iota.
    match goal with
    | |- context [getZ (codes ?m) 0] =>
        change (getZ (codes m) 0) with (Some [true]);
        change (getZ (paths m) 0) with (Some [1%Z])
    end.
    cbn [mbind option_bind hierarchicalSoftmax_loop].
    match goal with
    | |- context [binaryLogistic ?m 1 true lr] =>
        destruct (binaryLogistic_at_0 m 1 true lr) as [m2 H2]
    end.
    { unfold dotRow, mrow, h0. cbn. change (Z.to_nat 1) with 1%nat. cbn. lra. }
    rewrite H2. cbn [mbind option_bind]. eauto. }
  destruct Hk as [m2 Hk].
  unfold update, update_loss. rewrite Hh.
  change (negb (0 <=? 0)%Z) with false.
  change (negb (0 <? osz_ hs_engine)%Z) with false.
  cbn [mbind option_bind length Nat.eqb]. cbv iota.
  rewrite Hk. cbn [mbind option_bind]. eauto.
Qed.

Lemma hs_engine_updates (lr : R) :
  exists m', updates hs_engine [([0%Z], 0%Z, lr)] = Some (m', [0 + loss_half]).
Proof.
  destruct (hs_engine_update lr) as (m' & Hu & Hl).
  exists m'. cbn [updates]. rewrite Hl. cbn [mbind option_bind].
  rewrite Hu. reflexivity.
Qed.

(** C1 (as stated) fails: on the engine that the constructor and
    [setTargetCounts] leave, after one call of [update] whose kernel
    returned [l], [getLoss] is not [l / 1]. *)
Lemma getLoss_mean_counterexample :
  exists m' l,
    setTargetCounts 2
      (new_Model [[0]] [[0]; [0]; [0]] [[0]] [0]
         (mkArgs 1 loss_name.hs model_name.sup 5) 0) [10; 5; 1]%Z
    = Some hs_engine /\
    updates hs_engine [([0%Z], 0%Z, 1 / 10)] = Some (m', [l]) /\
    getLoss m' <> fold_left Rplus [l] 0 / IZR (Z.of_nat 1).
Proof.
  destruct (hs_engine_updates (1 / 10)) as (m' & Hrun).
  exists m', (0 + loss_half). split; [reflexivity|]. split; [exact Hrun|].
  assert (Hne : Forall (fun c : list Z * Z * R => fst (fst c) <> [])
                  [([0%Z], 0%Z, 1 / 10)])
    by (repeat constructor; discriminate).
  destruct (updates_counters _ _ _ _ Hne Hrun) as (H1 & H2 & _).
  unfold getLoss. rewrite H1, H2. cbn. pose proof loss_half_pos.
  change (IZR (1 + Z.of_nat 1)) with 2. change (IZR (Z.of_nat 1)) with 1. lra.
Qed.

Lemma getLoss_after_updates_witness :
  exists m' ls,
    updates hs_engine [([0%Z], 0%Z, 1 / 10)] = Some (m', ls) /\
    length ls = 1%nat /\
    getLoss m' = fold_left Rplus ls 0 / IZR (Z.of_nat 1 + 1).
Proof.
  destruct (hs_engine_updates (1 / 10)) as (m' & Hrun).
  exists m', [0 + loss_half]. split; [exact Hrun|].
  apply (getLoss_after_updates 2 [[0]] [[0]; [0]; [0]] [[0]] [0]
           (mkArgs 1 loss_name.hs model_name.sup 5) 0 [10; 5; 1]%Z hs_engine
           [([0%Z], 0%Z, 1 / 10)] m' [0 + loss_half]).
  - right. reflexivity.
  - repeat constructor. discriminate.
  - exact Hrun.
Defined.

Lemma update_empty_input_witness :
  update engine0 [] 0 (1 / 10) = Some engine0.
Proof.
  apply (update_empty_input engine0 0 (1 / 10)).
  split; [lia | reflexivity].
Defined.

Lemma binaryLogistic_lr_0_witness :
  exists s l,
    sigmoid (dotRow (wo_ engine0) (hidden_ engine0) 0) = Some s /\
    log (if true then s else 1 - s) = Some l /\
    binaryLogistic engine0 0 true 0 = Some (- l, engine0).
Proof.
  apply (binaryLogistic_lr_0 engine0 0 true);
    [reflexivity | reflexivity | reflexivity | split; [lia | reflexivity]].
Defined.

(** A one-class engine with hierarchical softmax after
    [setTargetCounts [5]], with two input rows and two attention rows. *)
Definition attn_engine : Model :=
  set_tree [Huffman.mkNode (-1) (-1) (-1) 5 false] [[]] [[]]
    (new_Model [[0]; [0]] [[0]] [[0]; [0]] [0]
       (mkArgs 1 loss_name.hs model_name.sup 5) 0).

Example attn_engine_setTargetCounts :
  setTargetCounts 0
    (new_Model [[0]; [0]] [[0]] [[0]; [0]] [0]
       (mkArgs 1 loss_name.hs model_name.sup 5) 0) [5%Z]
  = Some attn_engine.
Proof. reflexivity. Qed.

Lemma updateAttn_all_target_witness :
  exists m',
    updateAttn attn_engine [(0%Z, 0%Z); (0%Z, 1%Z)] 0 (1 / 10) = Some (m', []) /\
    (m' = attn_engine \/ m' = set_softmaxattn [] attn_engine) /\
    wi_ m' = wi_ attn_engine /\ wo_ m' = wo_ attn_engine /\
    attn_ m' = attn_ attn_engine /\ bias_ m' = bias_ attn_engine /\
    loss_ m' = loss_ attn_engine /\ nexamples_ m' = nexamples_ attn_engine.
Proof.
  apply (updateAttn_all_target attn_engine [(0%Z, 0%Z); (0%Z, 1%Z)] 0 (1 / 10)).
  - split; [lia | reflexivity].
  - repeat constructor.
Defined.

Lemma attn_engine_updateAttn :
  exists m',
    updateAttn attn_engine [(0%Z, 0%Z); (1%Z, 0%Z)] 0 (1 / 10)
    = Some (m', [(1%Z, 0%Z)]).
Proof.
  vm_compute. decide_Rlt. eexists. reflexivity.
Qed.

Lemma attn_engine_updateAttn2 :
  exists m',
    updateAttn2 attn_engine [(0%Z, 0%Z); (1%Z, 0%Z)] 0 (1 / 10)
    = Some (m', [(1%Z, 0%Z)]).
Proof.
  vm_compute. decide_Rlt. eexists. reflexivity.
Qed.

Lemma updateAttn_erases_target_witness :
  (exists m',
     updateAttn attn_engine [(0%Z, 0%Z); (1%Z, 0%Z)] 0 (1 / 10)
       = Some (m', [(1%Z, 0%Z)]) /\
     [(1%Z, 0%Z)]
       = List.filter (fun p => negb (fst p =? 0)%Z) [(0%Z, 0%Z); (1%Z, 0%Z)] /\
     length (softmaxattn_ m') = 1%nat) /\
  (exists m',
     updateAttn2 attn_engine [(0%Z, 0%Z); (1%Z, 0%Z)] 0 (1 / 10)
       = Some (m', [(1%Z, 0%Z)]) /\
     [(1%Z, 0%Z)]
       = List.filter (fun p => negb (fst p =? 0)%Z) [(0%Z, 0%Z); (1%Z, 0%Z)] /\
     length (softmaxattn_ m') = 1%nat).
Proof.
  destruct (updateAttn_erases_target attn_engine
              [(0%Z, 0%Z); (1%Z, 0%Z)] 0 (1 / 10)) as [H1 H2].
  split.
  - destruct attn_engine_updateAttn as [m' Hm]. exists m'.
    destruct (H1 _ _ Hm) as [E L].
    split; [exact Hm | split; [exact E | apply L; discriminate]].
  - destruct attn_engine_updateAttn2 as [m' Hm]. exists m'.
    destruct (H2 _ _ Hm) as [E L].
    split; [exact Hm | split; [exact E | apply L; discriminate]].
Defined.

(** A fresh engine with three classes and negative sampling. *)
Definition ns_engine : Model :=
  new_Model [[0]; [0]; [0]] [[0]; [0]; [0]] [] []
    (mkArgs 1 loss_name.ns model_name.sup 5) 0.

(** The bound of the push loop for three classes of count 1. *)
Definition third : R :=
  sqrt (IZR 1) * IZR NEGATIVE_TABLE_SIZE
  / fold_left (fun z count => z + sqrt (IZR count)) [1; 1; 1]%Z 0.

Lemma third_bounds : 3333333 < third < 3333334.
Proof.
  unfold third. cbn [fold_left NEGATIVE_TABLE_SIZE upstream].
  rewrite sqrt_1. lra.
Qed.

Lemma third_ceil : Zceil third = 3333334%Z.
Proof. apply Zceil_eq. pose proof third_bounds. lra. Qed.


Lemma third_fuel :
  Forall (fun c =>
            (Zceil (sqrt (IZR c) * IZR NEGATIVE_TABLE_SIZE
                    / fold_left (fun z count => z + sqrt (IZR count))
                        [1; 1; 1]%Z 0)%R
             <= Z.of_nat (Z.to_nat 3333334))%Z) [1; 1; 1]%Z.
Proof.
  repeat constructor; fold third; rewrite third_ceil, Z2Nat.id; lia.
Qed.





(** An engine whose only attention logit is [-100]. *)
Definition clamped_engine : Model :=
  new_Model [[0]] [[0]] [[-100]] [0]
    (mkArgs 1 loss_name.ns model_name.sup 5) 0.

(** C2 fails on the code: [attention_max] starts at [0.0], so a logit of
    [-100] is clamped to weight 0, the sum of the weights is 0, and the
    stored weight is [0 / (0 + 0)]: the weights do not sum to 1.  (In IEEE
    arithmetic the quotient is NaN; in the model it is 0.) *)
Lemma softmaxattn_all_clamped :
  exists hidden softmaxattn,
    computeAttnHidden clamped_engine [(0%Z, 0%Z)] (hidden_ clamped_engine)
    = Some (hidden, softmaxattn) /\
    softmaxattn = [0 / (0 + 0)] /\
    ~ Rabs (fold_right Rplus 0 softmaxattn - 1) <= 1e-5.
Proof.
  eexists _, _. split; [|split].
  - vm_compute. decide_Rlt. reflexivity.
  - reflexivity.
  - cbn [fold_right]. unfold Rdiv. rewrite Rmult_0_l.
    replace (0 + 0 - 1) with (- (1)) by lra.
    rewrite Rabs_Ropp, Rabs_R1. lra.
Qed.


(** *** The sigmoid and log tables, [binaryLogistic] *)


Lemma log_table_value_witness :
  (log (1 / 2) = None <-> 1 / 2 <= - 1 / IZR LOG_TABLE_SIZE) /\
  (1 < 1 / 2 -> log (1 / 2) = Some 0) /\
  (0 <= 1 / 2 <= 1 ->
   exists i,
     (0 <= i <= LOG_TABLE_SIZE)%Z /\
     IZR i <= 1 / 2 * IZR LOG_TABLE_SIZE < IZR i + 1 /\
     log (1 / 2) = Some (ln ((IZR i + 1e-5) / IZR LOG_TABLE_SIZE))).
Proof. apply (log_table_value (1 / 2)). reflexivity. Defined.

Lemma log_sign_witness :
  exists l,
    log (1 / 2) = Some l /\
    ln (1e-5 / IZR LOG_TABLE_SIZE) <= l
      <= ln ((IZR LOG_TABLE_SIZE + 1e-5) / IZR LOG_TABLE_SIZE) /\
    (1 / 2 < 1 -> l < 0) /\ (1 / 2 = 1 -> 0 <= l).
Proof. apply (log_sign (1 / 2)); [reflexivity | lra]. Defined.

Lemma binaryLogistic_loss_bounds_witness :
  exists l m',
    binaryLogistic engine0 0 true (1 / 10) = Some (l, m') /\
    - ln ((IZR LOG_TABLE_SIZE + 1e-5) / IZR LOG_TABLE_SIZE) <= l
      <= - ln (1e-5 / IZR LOG_TABLE_SIZE).
Proof.
  apply (binaryLogistic_loss_bounds engine0 0 true (1 / 10));
    [reflexivity | reflexivity | reflexivity | split; [lia | reflexivity]].
Defined.

(** An engine whose only output row has the dot product 9 with
    [hidden_], above [MAX_SIGMOID]. *)
Definition saturated_engine : Model :=
  set_hidden [1]
    (new_Model [[0]] [[9]] [[0]] [0] (mkArgs 1 loss_name.ns model_name.sup 0) 0).

Lemma binaryLogistic_saturated_witness :
  exists l,
    binaryLogistic saturated_engine 0 true (1 / 10) = Some (l, saturated_engine) /\
    - ln ((IZR LOG_TABLE_SIZE + 1e-5) / IZR LOG_TABLE_SIZE) <= l <= 0.
Proof.
  apply (binaryLogistic_saturated saturated_engine 0 true (1 / 10));
    [reflexivity | reflexivity | split; [lia | reflexivity] |].
  change (IZR 8 < 9 * 1 + 0). lra.
Defined.

(** *** Kernels and drivers *)

Lemma engine0_kernel_ready : kernel_ready engine0 0.
Proof. unfold kernel_ready. cbn. left. lia. Qed.

Lemma engine0_lossKernel :
  exists l m', lossKernel engine0 0 (1 / 10) = Some (l, m').
Proof.
  apply lossKernel_total; try reflexivity. apply engine0_kernel_ready.
Qed.

Lemma lossKernel_writes_witness :
  exists l m',
    lossKernel engine0 0 (1 / 10) = Some (l, m') /\
    wi_ m' = wi_ engine0 /\ attn_ m' = attn_ engine0 /\
    bias_ m' = bias_ engine0 /\ hidden_ m' = hidden_ engine0 /\
    softmaxattn_ m' = softmaxattn_ engine0 /\ loss_ m' = loss_ engine0 /\
    nexamples_ m' = nexamples_ engine0 /\ negatives m' = negatives engine0 /\
    paths m' = paths engine0 /\ codes m' = codes engine0 /\
    length (grad_ m') = length (grad_ engine0).
Proof.
  destruct engine0_lossKernel as (l & m' & Hk). exists l, m'.
  split; [exact Hk|]. apply (lossKernel_writes engine0 0 (1 / 10) l m' Hk).
Defined.

Lemma lossKernel_rows_witness :
  exists l m',
    lossKernel engine0 0 (1 / 10) = Some (l, m') /\
    length (wo_ m') = length (wo_ engine0) /\
    forall i,
      match loss (args_ engine0) with
      | loss_name.hs =>
          exists path, getZ (paths engine0) 0 = Some path /\ ~ In i path
      | loss_name.ns => i <> 0%Z /\ ~ In i (negatives engine0)
      | loss_name.softmax => ~ (0 <= i < osz_ engine0)%Z
      end ->
      mrow (wo_ m') i = mrow (wo_ engine0) i.
Proof.
  destruct engine0_lossKernel as (l & m' & Hk). exists l, m'.
  split; [exact Hk|]. apply (lossKernel_rows engine0 0 (1 / 10) l m' Hk).
Defined.

Lemma computeHidden_mean_witness :
  (Z.of_nat (length (hidden_ engine0)) <> hsz_ engine0 ->
   computeHidden engine0 [0%Z] (hidden_ engine0) = None) /\
  (Z.of_nat (length (hidden_ engine0)) = hsz_ engine0 ->
   exists h,
     computeHidden engine0 [0%Z] (hidden_ engine0) = Some h /\
     length h = length (hidden_ engine0) /\
     forall j, (0 <= j < hsz_ engine0)%Z ->
       vget h j
       = fold_right Rplus 0 (map (fun it => mat_at (wi_ engine0) it j) [0%Z])
         * (1 / INR (length [0%Z]))).
Proof.
  apply (computeHidden_mean engine0 [0%Z] (hidden_ engine0)). discriminate.
Defined.

Lemma update_writes_witness :
  exists m',
    update engine0 [0%Z] 0 (1 / 10) = Some m' /\
    attn_ m' = attn_ engine0 /\ bias_ m' = bias_ engine0 /\
    softmaxattn_ m' = softmaxattn_ engine0 /\
    negatives m' = negatives engine0 /\
    paths m' = paths engine0 /\ codes m' = codes engine0 /\
    length (wi_ m') = length (wi_ engine0) /\
    forall i, mrow (wi_ m') i
              = Nat.iter (count_occ Z.eq_dec [0%Z] i) (axpy 1 (grad_ m'))
                  (mrow (wi_ engine0) i).
Proof.
  destruct (engine0_update (1 / 10)) as (m' & Hu & _). exists m'.
  split; [exact Hu|]. apply (update_writes engine0 [0%Z] 0 (1 / 10) m' Hu).
Defined.

Lemma update_lr_0_witness :
  exists m',
    update engine0 [0%Z] 0 0 = Some m' /\
    wi_ m' = wi_ engine0 /\ wo_ m' = wo_ engine0 /\
    attn_ m' = attn_ engine0 /\ bias_ m' = bias_ engine0 /\
    ([0%Z] <> [] -> Forall (fun x => x = 0) (grad_ m')).
Proof.
  destruct (engine0_update 0) as (m' & Hu & _). exists m'.
  split; [exact Hu|]. apply (update_lr_0 engine0 [0%Z] 0 m' Hu).
Defined.

Lemma update_keeps_ready_witness :
  (~ (0 <= 1 < osz_ hs_engine)%Z -> update hs_engine [0%Z] 1 (1 / 10) = None) /\
  ((0 <= 1 < osz_ hs_engine)%Z ->
   exists m',
     update hs_engine [0%Z] 1 (1 / 10) = Some m' /\
     engine_ready m' /\ engine_in_range m' /\
     length (wi_ m') = length (wi_ hs_engine)).
Proof.
  apply (update_keeps_ready hs_engine [0%Z] 1 (1 / 10));
    [reflexivity | reflexivity | reflexivity | exact hs_engine_ready
    | exact hs_engine_in_range | repeat constructor; cbn; lia].
Defined.

Lemma attn_engine_ready : engine_ready attn_engine.
Proof.
  split; [reflexivity|]. split; [reflexivity|].
  intros target Ht. change (osz_ attn_engine) with 1%Z in Ht.
  assert (target = 0%Z) as -> by lia.
  unfold kernel_ready. cbn. exists [], []. repeat split. cbn. lia.
Qed.

Lemma attn_engine_in_range : engine_in_range attn_engine.
Proof.
  unfold engine_in_range. cbn.
  repeat split; repeat constructor; cbn; lia.
Qed.

Lemma updateAttn_keeps_ready_witness :
  (~ (0 <= 0 < osz_ attn_engine)%Z ->
   updateAttn attn_engine [(0%Z, 0%Z); (1%Z, 0%Z)] 0 (1 / 10) = None) /\
  ((0 <= 0 < osz_ attn_engine)%Z ->
   exists m',
     updateAttn attn_engine [(0%Z, 0%Z); (1%Z, 0%Z)] 0 (1 / 10)
     = Some (m', eraseTarget 0 [(0%Z, 0%Z); (1%Z, 0%Z)]) /\
     engine_ready m' /\ engine_in_range m').
Proof.
  apply (updateAttn_keeps_ready attn_engine [(0%Z, 0%Z); (1%Z, 0%Z)] 0 (1 / 10));
    [reflexivity | reflexivity | reflexivity | exact attn_engine_ready
    | exact attn_engine_in_range | |].
  - change (eraseTarget 0 [(0%Z, 0%Z); (1%Z, 0%Z)]) with [(1%Z, 0%Z)].
    repeat constructor; cbn; lia.
  - intros _.
    change (eraseTarget 0 [(0%Z, 0%Z); (1%Z, 0%Z)]) with [(1%Z, 0%Z)].
    apply Exists_cons_hd. change (-50 <= 0 + 0). lra.
Defined.

Lemma updateAttn2_keeps_ready_witness :
  (~ (0 <= 0 < osz_ attn_engine)%Z ->
   updateAttn2 attn_engine [(0%Z, 0%Z); (1%Z, 0%Z)] 0 (1 / 10) = None) /\
  ((0 <= 0 < osz_ attn_engine)%Z ->
   exists m',
     updateAttn2 attn_engine [(0%Z, 0%Z); (1%Z, 0%Z)] 0 (1 / 10)
     = Some (m', eraseTarget 0 [(0%Z, 0%Z); (1%Z, 0%Z)]) /\
     engine_ready m' /\ engine_in_range m').
Proof.
  apply (updateAttn2_keeps_ready attn_engine [(0%Z, 0%Z); (1%Z, 0%Z)] 0 (1 / 10));
    [reflexivity | reflexivity | reflexivity | exact attn_engine_ready
    | exact attn_engine_in_range | |].
  - change (eraseTarget 0 [(0%Z, 0%Z); (1%Z, 0%Z)]) with [(1%Z, 0%Z)].
    repeat constructor; cbn; lia.
  - intros _.
    change (eraseTarget 0 [(0%Z, 0%Z); (1%Z, 0%Z)]) with [(1%Z, 0%Z)].
    apply Exists_cons_hd. change (-50 <= 0 + 0). lra.
Defined.

Lemma updateAttn_writes_witness :
  exists m',
    updateAttn attn_engine [(0%Z, 0%Z); (1%Z, 0%Z)] 0 (1 / 10)
    = Some (m', [(1%Z, 0%Z)]) /\
    (forall i, ~ In i (map fst [(1%Z, 0%Z)]) ->
       mrow (wi_ m') i = mrow (wi_ attn_engine) i /\
       mrow (attn_ m') i = mrow (attn_ attn_engine) i) /\
    (forall j, ~ In j (map snd [(1%Z, 0%Z)]) ->
       vget (bias_ m') j = vget (bias_ attn_engine) j) /\
    mrow (wi_ m') 0 = mrow (wi_ attn_engine) 0 /\
    mrow (attn_ m') 0 = mrow (attn_ attn_engine) 0.
Proof.
  destruct attn_engine_updateAttn as (m' & Hu). exists m'.
  split; [exact Hu|].
  apply (updateAttn_writes attn_engine [(0%Z, 0%Z); (1%Z, 0%Z)] 0 (1 / 10) m'
           [(1%Z, 0%Z)] Hu).
Defined.

Lemma updateAttn2_writes_witness :
  exists m',
    updateAttn2 attn_engine [(0%Z, 0%Z); (1%Z, 0%Z)] 0 (1 / 10)
    = Some (m', [(1%Z, 0%Z)]) /\
    (forall i, ~ In i (map fst [(1%Z, 0%Z)]) ->
       mrow (wi_ m') i = mrow (wi_ attn_engine) i) /\
    (forall i, i <> 0%Z -> mrow (attn_ m') i = mrow (attn_ attn_engine) i) /\
    (forall j, ~ In j (map snd [(1%Z, 0%Z)]) ->
       vget (bias_ m') j = vget (bias_ attn_engine) j) /\
    mrow (wi_ m') 0 = mrow (wi_ attn_engine) 0.
Proof.
  destruct attn_engine_updateAttn2 as (m' & Hu). exists m'.
  split; [exact Hu|].
  apply (updateAttn2_writes attn_engine [(0%Z, 0%Z); (1%Z, 0%Z)] 0 (1 / 10) m'
           [(1%Z, 0%Z)] Hu).
Defined.

(** *** The attention forward pass *)

Lemma computeAttnHidden_convex_witness :
  exists h softmaxattn,
    computeAttnHidden attn_engine [(1%Z, 0%Z)] (hidden_ attn_engine)
    = Some (h, softmaxattn) /\
    length softmaxattn = length [(1%Z, 0%Z)] /\
    Forall (fun w => 0 <= w <= 1) softmaxattn /\
    fold_right Rplus 0 softmaxattn = 1 /\
    length h = length (hidden_ attn_engine) /\
    forall j, (0 <= j < hsz_ attn_engine)%Z ->
      vget h j
      = fold_right Rplus 0
          (map (fun '(p, w) => w * mat_at (wi_ attn_engine) (fst p) j)
             (zip [(1%Z, 0%Z)] softmaxattn)).
Proof.
  apply (computeAttnHidden_convex attn_engine [(1%Z, 0%Z)] (hidden_ attn_engine));
    [reflexivity|].
  apply Exists_cons_hd. change (-50 <= 0 + 0). lra.
Defined.

Lemma computeAttnHidden2_convex_witness :
  exists h softmaxattn,
    computeAttnHidden2 attn_engine [(1%Z, 0%Z)] 0 (hidden_ attn_engine)
    = Some (h, softmaxattn) /\
    length softmaxattn = length [(1%Z, 0%Z)] /\
    Forall (fun w => 0 <= w <= 1) softmaxattn /\
    fold_right Rplus 0 softmaxattn = 1 /\
    length h = length (hidden_ attn_engine) /\
    forall j, (0 <= j < hsz_ attn_engine)%Z ->
      vget h j
      = fold_right Rplus 0
          (map (fun '(p, w) => w * mat_at (wi_ attn_engine) (fst p) j)
             (zip [(1%Z, 0%Z)] softmaxattn)).
Proof.
  apply (computeAttnHidden2_convex attn_engine [(1%Z, 0%Z)] 0
           (hidden_ attn_engine)); [reflexivity|].
  apply Exists_cons_hd. change (-50 <= 0 + 0). lra.
Defined.

(** *** The negatives table *)

(** An engine whose negatives table holds class 2 only. *)
Definition only_target_engine : Model :=
  set_negatives [2; 2]%Z
    (new_Model [[0]] [[0]; [0]; [0]] [] []
       (mkArgs 1 loss_name.ns model_name.sup 5) 0).

Lemma getNegative_only_target_witness :
  (forall (fuel pos : nat),
     getNegative_loop fuel (negatives only_target_engine) pos 2 = None) /\
  getNegative only_target_engine 2 = None.
Proof.
  apply (getNegative_only_target only_target_engine 2). repeat constructor.
Defined.

Lemma three_sum_pos :
  0 < fold_left (fun z count => z + sqrt (IZR count)) [1; 1; 1]%Z 0.
Proof. cbn [fold_left]. rewrite sqrt_1. lra. Qed.

Lemma negatives_table_members_witness :
  exists m',
    initTableNegatives (Z.to_nat 3333334) ns_engine [1; 1; 1]%Z = Some m' /\
    (forall x, In x (negatives m') ->
       exists c, getZ [1; 1; 1]%Z x = Some c /\ (0 < c)%Z) /\
    (forall i c, getZ [1; 1; 1]%Z i = Some c -> (0 < c)%Z ->
       In i (negatives m')).
Proof.
  apply (negatives_table_members (Z.to_nat 3333334) ns_engine [1; 1; 1]%Z).
  - intros rng v. reflexivity.
  - reflexivity.
  - repeat constructor; lia.
  - exact three_sum_pos.
  - reflexivity.
  - exact third_fuel.
Defined.

Lemma setTargetCounts_ready_witness :
  exists m',
    setTargetCounts 0
      (new_Model [[0]; [0]] [[0]] [[0]; [0]] [0]
         (mkArgs 1 loss_name.hs model_name.sup 5) 0) [5%Z]
    = Some m' /\
    engine_ready m'.
Proof.
  apply (setTargetCounts_ready 0 [[0]; [0]] [[0]] [[0]; [0]] [0]
           (mkArgs 1 loss_name.hs model_name.sup 5) 0 [5%Z]).
  - discriminate.
  - reflexivity.
  - split; [discriminate|]. split; [repeat constructor | discriminate].
Defined.

(** *** The softmax output *)

Lemma computeOutputSoftmax_distribution_witness :
  let out := computeOutputSoftmax [[0]; [0]] 2 [0] [0; 0] in
  length out = length [0; 0] /\
  (forall i, (0 <= i < 2)%Z ->
     vget out i
     = exp (dotRow [[0]; [0]] [0] i)
       / sumZ (fun j => exp (dotRow [[0]; [0]] [0] j)) 2
     /\ 0 <= vget out i <= 1) /\
  fold_right Rplus 0 out = 1.
Proof.
  apply (computeOutputSoftmax_distribution [[0]; [0]] 2 [0] [0; 0]);
    [reflexivity | discriminate].
Defined.



Lemma attn_engine_updateAttn_lr_0 :
  exists m',
    updateAttn attn_engine [(0%Z, 0%Z); (1%Z, 0%Z)] 0 0
    = Some (m', [(1%Z, 0%Z)]).
Proof.
  vm_compute. decide_Rlt. eexists. reflexivity.
Qed.

Lemma updateAttn_lr_0_witness :
  exists m',
    updateAttn attn_engine [(0%Z, 0%Z); (1%Z, 0%Z)] 0 0
    = Some (m', [(1%Z, 0%Z)]) /\
    wi_ m' = wi_ attn_engine /\ wo_ m' = wo_ attn_engine /\
    attn_ m' = attn_ attn_engine /\ bias_ m' = bias_ attn_engine.
Proof.
  destruct attn_engine_updateAttn_lr_0 as (m' & Hu). exists m'.
  split; [exact Hu|].
  apply (proj1 (updateAttn_lr_0 attn_engine [(0%Z, 0%Z); (1%Z, 0%Z)] 0)
           m' [(1%Z, 0%Z)]); [|exact Hu].
  intros _. change (eraseTarget 0 [(0%Z, 0%Z); (1%Z, 0%Z)]) with [(1%Z, 0%Z)].
  apply Exists_cons_hd. change (-50 <= 0 + 0). lra.
Defined.

(** *** The Huffman tree *)

Lemma paths_entries_range_witness :
  exists tree paths codes,
    Huffman.buildTree 2 3 [10; 5; 1]%Z = Some (tree, paths, codes) /\
    forall c, (0 <= c < 3)%Z ->
      exists path,
        getZ paths c = Some path /\
        Forall (fun p => (0 <= p <= 3 - 2)%Z) path /\
        (forall (i j : nat) p q, (i < j)%nat -> path !! i = Some p ->
           path !! j = Some q -> (p < q)%Z) /\
        (path <> [] -> last path = Some (3 - 2)%Z).
Proof.
  apply (HuffmanShape.paths_entries_range 2 3 [10; 5; 1]%Z);
    [lia | reflexivity | repeat constructor | lia].
Defined.

Lemma codes_prefix_free_witness :
  exists tree paths codes,
    Huffman.buildTree 2 3 [10; 5; 1]%Z = Some (tree, paths, codes) /\
    (forall c, (0 <= c < 3)%Z ->
       exists code, getZ codes c = Some code /\
                    HuffmanShape.walk tree (2 * 3 - 2) (rev code) = Some c) /\
    (forall c d code_c code_d rest,
       (0 <= c < 3)%Z -> (0 <= d < 3)%Z ->
       getZ codes c = Some code_c -> getZ codes d = Some code_d ->
       rev code_d = rev code_c ++ rest -> c = d /\ rest = []).
Proof.
  apply (HuffmanShape.codes_prefix_free 2 3 [10; 5; 1]%Z);
    [lia | reflexivity | repeat constructor | lia].
Defined.

Lemma tree_children_counts_witness :
  exists tree paths codes,
    Huffman.buildTree 2 3 [10; 5; 1]%Z = Some (tree, paths, codes) /\
    Z.of_nat (length tree) = (2 * 3 - 1)%Z /\
    (forall c, (0 <= c < 3)%Z ->
       exists nd, getZ tree c = Some nd /\
                  Huffman.left nd = (-1)%Z /\ Huffman.right nd = (-1)%Z /\
                  getZ [10; 5; 1]%Z c = Some (Huffman.count nd)) /\
    (forall x, (3 <= x <= 2 * 3 - 2)%Z ->
       exists nd l r,
         getZ tree x = Some nd /\
         getZ tree (Huffman.left nd) = Some l /\
         getZ tree (Huffman.right nd) = Some r /\
         (0 <= Huffman.left nd < x)%Z /\ (0 <= Huffman.right nd < x)%Z /\
         Huffman.left nd <> Huffman.right nd /\
         Huffman.parent l = x /\ Huffman.binary l = false /\
         Huffman.parent r = x /\ Huffman.binary r = true /\
         Huffman.count nd = (Huffman.count l + Huffman.count r)%Z).
Proof.
  apply (HuffmanShape.tree_children_counts 2 3 [10; 5; 1]%Z);
    [lia | reflexivity | repeat constructor | repeat constructor; lia
    | reflexivity | lia].
Defined.

(** *** Prediction *)

(** An implementation of the heap algorithms that keeps the vector
    sorted: since a vector in ascending order of score is a heap for
    [comparePairs], it meets the contracts of the standard. *)
Fixpoint insert_by (after : R * Z -> R * Z -> bool) (x : R * Z)
    (l : list (R * Z)) : list (R * Z) :=
  match l with
  | [] => [x]
  | y :: l' => if after x y then y :: insert_by after x l' else x :: l
  end.

Definition sort_by (after : R * Z -> R * Z -> bool) (l : list (R * Z))
  : list (R * Z) :=
  fold_right (insert_by after) [] l.

#[global] Instance sorted_heaps : HeapAlgorithms := {|
  push_heap comp v := sort_by comp v;
  pop_heap comp v :=
    match v with
    | [] => []
    | x :: v' => sort_by comp v' ++ [x]
    end;
  sort_heap comp v := sort_by (fun x y => comp y x) v
|}.

(** No entry has to go after a later one. *)
Fixpoint sorted_by (after : R * Z -> R * Z -> bool) (l : list (R * Z)) : Prop :=
  match l with
  | [] => True
  | x :: l' => Forall (fun y => after x y = false) l' /\ sorted_by after l'
  end.

Lemma insert_by_perm after x l : Permutation (insert_by after x l) (x :: l).
Proof.
  induction l as [|y l IH]; cbn; [reflexivity|].
  destruct (after x y); [|reflexivity].
  rewrite IH. apply perm_swap.
Qed.

Lemma sort_by_perm after l : Permutation (sort_by after l) l.
Proof.
  induction l as [|x l IH]; cbn; [reflexivity|].
  rewrite insert_by_perm. now constructor.
Qed.

Lemma insert_by_sorted after x l :
  (forall a b, after a b = true -> after b a = false) ->
  (forall a b c, after a b = false -> after b c = false -> after a c = false) ->
  sorted_by after l -> sorted_by after (insert_by after x l).
Proof.
  intros Htot Htrans. induction l as [|y l IH]; cbn.
  - intros _. split; [constructor | exact I].
  - intros [Hy Hl]. destruct (after x y) eqn:Hxy; cbn.
    + split; [|apply IH, Hl].
      eapply Permutation_Forall; [symmetry; apply insert_by_perm|].
      constructor; [apply Htot, Hxy | exact Hy].
    + split; [|split; assumption]. constructor; [exact Hxy|].
      eapply Forall_impl; [exact Hy|]. cbn. intros z Hz.
      eapply Htrans; eassumption.
Qed.

Lemma sort_by_sorted after l :
  (forall a b, after a b = true -> after b a = false) ->
  (forall a b c, after a b = false -> after b c = false -> after a c = false) ->
  sorted_by after (sort_by after l).
Proof.
  intros Htot Htrans. induction l as [|x l IH]; cbn; [exact I|].
  now apply insert_by_sorted.
Qed.

Lemma sorted_by_lookup after l : forall (i j : nat) x y,
  sorted_by after l -> (i < j)%nat ->
  l !! i = Some x -> l !! j = Some y -> after x y = false.
Proof.
  induction l as [|z l IH]; intros i j x y Hs Hij Hi Hj; [discriminate|].
  destruct Hs as [Hz Hl]. destruct j as [|j]; [lia|]. cbn in Hj.
  destruct i as [|i]; cbn in Hi.
  - injection Hi as <-.
    apply (proj1 (List.Forall_forall _ _) Hz).
    apply list_elem_of_In. eapply list_elem_of_lookup_2, Hj.
  - apply (IH i j); [assumption | lia | assumption..].
Qed.

Lemma comparePairs_total a b :
  comparePairs a b = true -> comparePairs b a = false.
Proof.
  unfold comparePairs.
  destruct (Rlt_dec (fst b) (fst a)), (Rlt_dec (fst a) (fst b));
    try reflexivity; try discriminate; lra.
Qed.

Lemma comparePairs_trans a b c :
  comparePairs a b = false -> comparePairs b c = false ->
  comparePairs a c = false.
Proof.
  unfold comparePairs.
  destruct (Rlt_dec (fst b) (fst a)), (Rlt_dec (fst c) (fst b)),
    (Rlt_dec (fst c) (fst a)); try reflexivity; try discriminate; lra.
Qed.

Lemma sorted_is_heap l : sorted_by comparePairs l -> is_heap l.
Proof.
  intros Hs i x y Hi Hx Hy.
  apply (sorted_by_lookup comparePairs l ((i - 1) / 2) i y x Hs);
    [apply Nat.Div0.div_lt_upper_bound; lia | assumption..].
Qed.

Lemma sorted_heaps_laws : HeapLaws.
Proof.
  split.
  - intros v x _. cbn. split; [|apply sort_by_perm].
    apply sorted_is_heap, sort_by_sorted;
      [apply comparePairs_total | apply comparePairs_trans].
  - intros x v _. exists (sort_by comparePairs v). cbn.
    split; [reflexivity|]. split; [|apply sort_by_perm].
    apply sorted_is_heap, sort_by_sorted;
      [apply comparePairs_total | apply comparePairs_trans].
  - intros v _. cbn. split; [apply sort_by_perm|].
    intros i j x y Hij Hx Hy.
    apply (sorted_by_lookup (fun a b => comparePairs b a)
             (sort_by (fun a b => comparePairs b a) v) i j x y);
      try assumption.
    apply sort_by_sorted.
    + intros a b. apply comparePairs_total.
    + intros a b c Hab Hbc. eapply comparePairs_trans; eassumption.
Qed.

(** A fresh engine with three classes and the full softmax. *)
Definition softmax_engine : Model :=
  new_Model [[0]] [[0]; [0]; [0]] [[0]] [0]
    (mkArgs 1 loss_name.softmax model_name.sup 5) 0.

Lemma findKBest_top_k_witness :
  let out := computeOutputSoftmax (wo_ softmax_engine) (osz_ softmax_engine)
               [0] [0; 0; 0] in
  exists heap,
    findKBest softmax_engine 2 [] [0] [0; 0; 0] = Some (heap, out) /\
    is_heap heap /\
    Z.of_nat (length heap) = Z.min (osz_ softmax_engine) 2 /\
    List.NoDup (map snd heap) /\
    (forall e, In e heap ->
       (0 <= snd e < osz_ softmax_engine)%Z /\
       log (vget out (snd e)) = Some (fst e)) /\
    (forall j s, (0 <= j < osz_ softmax_engine)%Z ->
       log (vget out j) = Some s ->
       In (s, j) heap \/ forall e, In e heap -> s <= fst e).
Proof.
  apply (findKBest_top_k (L := sorted_heaps_laws) softmax_engine 2 [0] [0; 0; 0]);
    [reflexivity | split; reflexivity | discriminate].
Defined.

Lemma predict_top_k_witness :
  ((2 <= 0)%Z ->
   predict 0 softmax_engine [0%Z] 2 [] (hidden_ softmax_engine)
     (output_ softmax_engine) = None) /\
  ((0 < 2)%Z ->
   exists heap h out,
     predict 0 softmax_engine [0%Z] 2 [] (hidden_ softmax_engine)
       (output_ softmax_engine) = Some (heap, h, out) /\
     computeHidden softmax_engine [0%Z] (hidden_ softmax_engine) = Some h /\
     out = computeOutputSoftmax (wo_ softmax_engine) (osz_ softmax_engine) h
             (output_ softmax_engine) /\
     Z.of_nat (length heap) = Z.min (osz_ softmax_engine) 2 /\
     List.NoDup (map snd heap) /\
     (forall (i j : nat) x y, (i < j)%nat -> heap !! i = Some x ->
        heap !! j = Some y -> fst y <= fst x) /\
     (forall e, In e heap ->
        (0 <= snd e < osz_ softmax_engine)%Z /\
        log (vget out (snd e)) = Some (fst e)) /\
     (forall j s, (0 <= j < osz_ softmax_engine)%Z ->
        log (vget out j) = Some s ->
        In (s, j) heap \/ forall e, In e heap -> s <= fst e)).
Proof.
  apply (predict_top_k (L := sorted_heaps_laws) 0 softmax_engine [0%Z] 2
           (hidden_ softmax_engine) (output_ softmax_engine));
    [reflexivity | reflexivity | discriminate | discriminate | discriminate
    | reflexivity].
Defined.

Lemma hs_engine_tree : tree_built (osz_ hs_engine) (tree hs_engine).
Proof.
  apply (buildTree_built 2 3 [10; 5; 1]%Z _ [[1]; [0; 1]; [0; 1]]%Z
           [[true]; [true; false]; [false; false]]);
    [lia | reflexivity | repeat constructor
    | exact HuffmanFacts.buildTree_10_5_1].
Qed.

Lemma dfs_keeps_heap_witness :
  exists heap',
    dfs 5 hs_engine 2 4 0 [] [0] = Some heap' /\
    is_heap heap' /\
    (length (@nil (R * Z)) <= length heap')%nat /\
    (Z.of_nat (length heap') <= 2)%Z /\
    ((Z.of_nat (length (@nil (R * Z))) < 2)%Z ->
     (length (@nil (R * Z)) < length heap')%nat) /\
    forall e, In e heap' -> In e [] \/ (0 <= snd e < osz_ hs_engine)%Z.
Proof.
  apply (dfs_keeps_heap (L := sorted_heaps_laws) hs_engine 2 [0] 5 4 0 []);
    try reflexivity.
  - split; reflexivity.
  - exact hs_engine_tree.
  - split; discriminate.
  - intros i x y _ Hx. discriminate.
  - discriminate.
Defined.

Lemma predict_hs_witness :
  exists heap h,
    predict 5 hs_engine [0%Z] 2 [] (hidden_ hs_engine) (output_ hs_engine)
    = Some (heap, h, output_ hs_engine) /\
    computeHidden hs_engine [0%Z] (hidden_ hs_engine) = Some h /\
    (1 <= Z.of_nat (length heap) <= 2)%Z /\
    (forall (i j : nat) x y, (i < j)%nat -> heap !! i = Some x ->
       heap !! j = Some y -> fst y <= fst x) /\
    (forall e, In e heap -> (0 <= snd e < osz_ hs_engine)%Z).
Proof.
  apply (predict_hs (L := sorted_heaps_laws) 5 hs_engine [0%Z] 2
           (hidden_ hs_engine) (output_ hs_engine)); try reflexivity.
  - split; reflexivity.
  - discriminate.
  - exact hs_engine_tree.
  - discriminate.
Defined.


End Concrete.
